(** * Branch-and-bound over an LP solver: a model of [src/utils/branch_and_bound.py],
      [src/model/Model.py] and [src/utils/generate_values.py].

    The Python program parses a textual 0/1 linear model, hands linear
    programs to Gurobi and walks the resulting nodes breadth first.  Here the
    program is embedded function by function:

    - text handling ([re.findall] with the three patterns of
      [Model.extract_coefficients], [str.strip], [str.split]) is that of
      Python on ASCII text: the classes [\d] and [\s] are given for ASCII
      characters only, and what is proved of the parsing of a text is
      stated for ASCII text;
    - Gurobi is a parameter [oracle] of the development: a function from the
      model that was built ([addVar], [setObjective], [addConstr]) to the
      outcome of [optimize()];
    - exceptions and the sequence of [optimize()] calls are threaded through
      a small state-and-error monad [M];
    - the [while node_list:] loops take a fuel argument, since nothing in the
      code bounds the number of distinct answers an arbitrary oracle gives.

    Floats returned by the solver are rationals ([Q]); the program only
    compares them ([<], [<=], [==]), which is exact on floats, and rounds the
    objective value with [round(_, 2)], kept abstract as [round2]. *)

From Stdlib Require Import List String Ascii Bool Arith ZArith QArith Lia Lqa.
Import ListNotations.

Local Open Scope string_scope.
Local Open Scope list_scope.

(* ===================================================================== *)
(** ** Exceptions and outcomes                                            *)
(* ===================================================================== *)

(** The Python exceptions the modelled code can raise. *)
Inductive exn : Type :=
| ValueError      (* raise ValueError(...) in the generators and lp_relaxation;
                     int(...) on more digits than it converts *)
| IndexError      (* re.findall(...)[0] on an empty list *)
| AttributeError. (* .items() / .get() on a str or on None *)

(** What running a piece of code gives: a value, an exception, or the fuel
    of an enclosing loop ran out. *)
Inductive outcome (A : Type) : Type :=
| Ok (a : A)
| Raise (e : exn)
| OutOfFuel.
Arguments Ok {A} a.
Arguments Raise {A} e.
Arguments OutOfFuel {A}.

Definition obind {A B} (o : outcome A) (f : A -> outcome B) : outcome B :=
  match o with
  | Ok a => f a
  | Raise e => Raise e
  | OutOfFuel => OutOfFuel
  end.

(* ===================================================================== *)
(** ** Text: the regular expressions of [Model.extract_coefficients]      *)
(* ===================================================================== *)

Module Re.

(** [\d] on ASCII text: the digits 0 to 9.  (On other text Python's class
    also holds the decimal digits of other scripts.) *)
Definition is_digit (c : ascii) : bool :=
  let n := nat_of_ascii c in (48 <=? n)%nat && (n <=? 57)%nat.

(** [\s] on ASCII text: TAB..CR, FS..US and the space (what [str.isspace]
    accepts below 128; Python's class also holds blanks outside ASCII). *)
Definition is_space (c : ascii) : bool :=
  let n := nat_of_ascii c in
  ((9 <=? n)%nat && (n <=? 13)%nat) || ((28 <=? n)%nat && (n <=? 32)%nat).

(** The character class [[<>=]]. *)
Definition is_opchar (c : ascii) : bool :=
  Ascii.eqb c "<" || Ascii.eqb c ">" || Ascii.eqb c "=".

(** Longest prefix whose characters satisfy [p], and the rest (a greedy
    [p+] / [p*]). *)
Fixpoint span (p : ascii -> bool) (s : list ascii) : list ascii * list ascii :=
  match s with
  | [] => ([], [])
  | c :: s' =>
      if p c then let (a, b) := span p s' in (c :: a, b) else ([], s)
  end.

(** A pattern tried at the head of the text: the captured group and the
    text after the match. *)
Definition matcher := list ascii -> option (list ascii * list ascii).

(** [(\d+)\s*\*] at the head of [s].  Giving back digits or blanks never
    helps (the next character would again be a digit or a blank), so the
    greedy attempt decides. *)
Definition match_coeff : matcher := fun s =>
  let (ds, r1) := span is_digit s in
  match ds with
  | [] => None
  | _ :: _ =>
      let (_, r2) := span is_space r1 in
      match r2 with
      | c :: r3 => if Ascii.eqb c "*" then Some (ds, r3) else None
      | [] => None
      end
  end.

(** [[<>=]+] at the head of [s] (no group: the whole match is returned). *)
Definition match_op : matcher := fun s =>
  let (os, r) := span is_opchar s in
  match os with
  | [] => None
  | _ :: _ => Some (os, r)
  end.

(** [(\d+)\s*$] at the head of [s]. *)
Definition match_rhs : matcher := fun s =>
  let (ds, r1) := span is_digit s in
  match ds with
  | [] => None
  | _ :: _ =>
      let (_, r2) := span is_space r1 in
      match r2 with
      | [] => Some (ds, [])
      | _ :: _ => None
      end
  end.

(** [re.findall]: leftmost matches, left to right, without overlap.  None
    of the three patterns matches the empty text, so each round consumes a
    character and [S (length s)] rounds are enough. *)
Fixpoint findall_from (fuel : nat) (m : matcher) (s : list ascii) : list (list ascii) :=
  match fuel with
  | O => []
  | S fuel' =>
      match m s with
      | Some (g, rest) => g :: findall_from fuel' m rest
      | None =>
          match s with
          | [] => []
          | _ :: s' => findall_from fuel' m s'
          end
      end
  end.

Definition findall (m : matcher) (s : string) : list (list ascii) :=
  let l := list_ascii_of_string s in findall_from (S (List.length l)) m l.

(** The number a run of ASCII digits writes. *)
Definition value (ds : list ascii) : Z :=
  fold_left (fun acc c => (10 * acc + (Z.of_nat (nat_of_ascii c) - 48))%Z) ds 0%Z.

(** [sys.get_int_max_str_digits()]: the most digits [int] converts
    (CPython 3.11, default setting). *)
Definition max_str_digits : nat := 4300.

(** [int(num)] on a run of ASCII digits: [ValueError] when the run has
    more than [max_str_digits] digits (leading zeros count). *)
Definition int (ds : list ascii) : outcome Z :=
  if (List.length ds <=? max_str_digits)%nat then Ok (value ds) else Raise ValueError.

(** [[int(num) for num in groups]]. *)
Fixpoint ints (groups : list (list ascii)) : outcome (list Z) :=
  match groups with
  | [] => Ok []
  | num :: groups' =>
      obind (int num) (fun z =>
      obind (ints groups') (fun zs =>
      Ok (z :: zs)))
  end.

(** [xs[0]]. *)
Definition first {A} (xs : list A) : outcome A :=
  match xs with
  | [] => Raise IndexError
  | x :: _ => Ok x
  end.

End Re.

(* ===================================================================== *)
(** ** [Model] ([src/model/Model.py])                                     *)
(* ===================================================================== *)

Record Model : Type := mkModel {
  set_obj : string;
  obj_f : string;
  constraints : list string;
  binary_vars : list string
}.

(** The four lists [extract_coefficients] returns. *)
Record Coefficients : Type := mkCoefficients {
  objective_coefficients : list Z;
  constraint_coefficients : list (list Z);
  constraint_operators : list string;
  constraint_last_values : list Z
}.

(** One round of the [for constraint in self.constraints] loop: the row, the
    operator and the right-hand side of one constraint. *)
Definition extract_constraint (constraint : string) : outcome (list Z * string * Z) :=
  obind (Re.ints (Re.findall Re.match_coeff constraint)) (fun constraint_coeffs =>
  obind (Re.first (Re.findall Re.match_op constraint)) (fun operator =>
  obind (Re.first (Re.findall Re.match_rhs constraint)) (fun last =>
  obind (Re.int last) (fun last_value =>
  Ok (constraint_coeffs, string_of_list_ascii operator, last_value))))).

Fixpoint extract_constraints (cs : list string)
  : outcome (list (list Z) * list string * list Z) :=
  match cs with
  | [] => Ok ([], [], [])
  | c :: cs' =>
      obind (extract_constraint c) (fun '(row, op, last) =>
      obind (extract_constraints cs') (fun '(rows, ops, lasts) =>
      Ok (row :: rows, op :: ops, last :: lasts)))
  end.

Definition extract_coefficients (self : Model) : outcome Coefficients :=
  obind (Re.ints (Re.findall Re.match_coeff (obj_f self))) (fun objective_coefficients =>
  obind (extract_constraints (constraints self)) (fun '(rows, ops, lasts) =>
  Ok (mkCoefficients objective_coefficients rows ops lasts))).

(* ===================================================================== *)
(** ** Python values the search passes around                             *)
(* ===================================================================== *)

(** A [dict] with [str] keys, in insertion order. *)
Definition dict (V : Type) : Type := list (string * V).

Section Dict.
Context {V : Type}.

(** [d.get(k, None)]. *)
Fixpoint dict_get (d : dict V) (k : string) : option V :=
  match d with
  | [] => None
  | (k', v) :: d' => if String.eqb k' k then Some v else dict_get d' k
  end.

(** [d[k] = v]: an existing key keeps its place, a new one goes last. *)
Fixpoint dict_set (d : dict V) (k : string) (v : V) : dict V :=
  match d with
  | [] => [(k, v)]
  | (k', v') :: d' =>
      if String.eqb k' k then (k', v) :: d' else (k', v') :: dict_set d' k v
  end.

(** Iterating a dict gives its keys. *)
Definition dict_keys (d : dict V) : list string := map fst d.
End Dict.

(** A variable assignment: [{var_name: var.X}]. *)
Definition Assignment : Type := dict Q.

(** What a name such as [relaxation] or [node['decision_vars']] may hold: a
    dict of values, the string ["infeasible"], or [None]. *)
Inductive pyobj : Type :=
| PyDict (d : Assignment)
| PyStr (s : string)
| PyNone.

(** [o.items()]: only a dict has it. *)
Definition items (o : pyobj) : outcome Assignment :=
  match o with
  | PyDict d => Ok d
  | PyStr _ | PyNone => Raise AttributeError
  end.

(** [o.get(k, None)]: only a dict has it. *)
Definition get (o : pyobj) (k : string) : outcome (option Q) :=
  match o with
  | PyDict d => Ok (dict_get d k)
  | PyStr _ | PyNone => Raise AttributeError
  end.

(** [node['optimal_objective']]: a rounded float or the string
    ["infeasible"]. *)
Inductive objective : Type :=
| ObjValue (q : Q)
| ObjInfeasible.

(** The node dict [{'optimal_objective': _, 'decision_vars': _}]. *)
Record Node : Type := mkNode {
  optimal_objective : objective;
  decision_vars : pyobj
}.

(** [a < b] on floats. *)
Definition Qlt_bool (a b : Q) : bool := negb (Qle_bool b a).

(** [tuple(d.items())], the key of the visited set and of the graph: two
    keys are equal when they list the same names with [==] values, in the
    same order. *)
Definition Key : Type := list (string * Q).

Fixpoint key_eqb (a b : Key) : bool :=
  match a, b with
  | [], [] => true
  | (n, v) :: a', (n', v') :: b' => String.eqb n n' && Qeq_bool v v' && key_eqb a' b'
  | _, _ => false
  end.

(** [k in visited_nodes] for a set of keys. *)
Definition key_mem (k : Key) (s : list Key) : bool := existsb (key_eqb k) s.

(* ===================================================================== *)
(** ** The Gurobi model an LP request consists of                         *)
(* ===================================================================== *)

Inductive vtype : Type := CONTINUOUS | BINARY.

(** [gp_model.addVar(lb=_, ub=_, vtype=_, name=_)]. *)
Record Var : Type := mkVar {
  lb : Q;
  ub : Q;
  vt : vtype;
  name : string
}.

(** [gp.quicksum(coeff * var ...)]: the terms in the order they are summed. *)
Definition LinExpr : Type := list (Z * Var).

Inductive sense : Type := LE | GE | EQ.

(** [gp_model.addConstr(expr <sense> last_value, _)].  The constraint's name
    is left out: nothing reads it. *)
Record Constr : Type := mkConstr {
  c_lhs : LinExpr;
  c_sense : sense;
  c_rhs : Z
}.

Inductive direction : Type := MAXIMIZE | MINIMIZE.

(** Everything [optimize()] sees. *)
Record GurobiModel : Type := mkGurobiModel {
  g_name : string;
  g_vars : list Var;          (* the addVar calls, in order *)
  g_direction : direction;
  g_objective : LinExpr;
  g_constrs : list Constr
}.

(** The answer of [optimize()]: [Some (ObjVal, X)] when [Status] is
    [GRB.OPTIMAL] ([X] gives [var.X] by variable name), [None] for any
    other status. *)
Definition Answer : Type := option (Q * (string -> Q)).

(** [GRB.MAXIMIZE if set_obj == "MAXIMIZE" else GRB.MINIMIZE]. *)
Definition direction_of (set_obj : string) : direction :=
  if String.eqb set_obj "MAXIMIZE" then MAXIMIZE else MINIMIZE.

(** [var_name == branch_var], where [branch_var] may be [None]. *)
Definition is_branch (var_name : string) (branch_var : option string) : bool :=
  match branch_var with
  | Some b => String.eqb var_name b
  | None => false
  end.

(** The [for var_name in binary_vars] loop of the four builders: each round
    calls [addVar] with the spec [mk var_name] and stores the variable in
    [vars_dict]; an exception of [mk] leaves the loop. *)
Fixpoint add_vars (mk : string -> outcome Var) (binary_vars : list string)
    (acc : list Var * dict Var) : outcome (list Var * dict Var) :=
  match binary_vars with
  | [] => Ok acc
  | var_name :: rest =>
      obind (mk var_name) (fun v =>
      add_vars mk rest (fst acc ++ [v], dict_set (snd acc) var_name v))
  end.

(** [gp.quicksum(coeff * vars_dict[var_name] for coeff, var_name in
    zip(coeffs, names))].  Every name of [names] was stored in [vars_dict] by
    the loop before (lemma [add_vars_get]), so the lookup never misses. *)
Definition quicksum_zip (vars_dict : dict Var) (coeffs : list Z) (names : list string) : LinExpr :=
  flat_map (fun '(coeff, var_name) =>
              match dict_get vars_dict var_name with
              | Some v => [(coeff, v)]
              | None => []
              end)
           (combine coeffs names).

(** The [if operator == '<=' ... else: raise ValueError] chain. *)
Definition sense_of (operator : string) : outcome sense :=
  if String.eqb operator "<=" then Ok LE
  else if String.eqb operator ">=" then Ok GE
  else if String.eqb operator "==" then Ok EQ
  else Raise ValueError.

(** [zip(a, b, c)]. *)
Definition zip3 {A B C} (a : list A) (b : list B) (c : list C) : list (A * B * C) :=
  combine (combine a b) c.

(** The [for coeff_row, operator, last_value in zip(...)] loop. *)
Fixpoint add_constrs (vars_dict : dict Var) (names : list string)
    (rows : list (list Z * string * Z)) : outcome (list Constr) :=
  match rows with
  | [] => Ok []
  | (coeff_row, operator, last_value) :: rows' =>
      let constraint_expr := quicksum_zip vars_dict coeff_row names in
      obind (sense_of operator) (fun s =>
      obind (add_constrs vars_dict names rows') (fun cs =>
      Ok (mkConstr constraint_expr s last_value :: cs)))
  end.

(** ** Variable specs of the four builders *)

(** [lp_relaxation], line 75. *)
Definition relaxation_var (var_name : string) : outcome Var :=
  Ok (mkVar 0 1 CONTINUOUS var_name).

(** [generate_root_node], lines 142-146. *)
Definition root_var (branch_var : option string) (var_name : string) : outcome Var :=
  if is_branch var_name branch_var
  then Ok (mkVar 0 1 BINARY var_name)
  else Ok (mkVar 0 1 CONTINUOUS var_name).

(** [generate_left_child_node], lines 208-223. *)
Definition left_var (branch_var : option string) (root_decision_vars : pyobj)
    (var_name : string) : outcome Var :=
  if is_branch var_name branch_var then
    obind (get root_decision_vars var_name) (fun root_var_value =>
    match root_var_value with
    | None => Ok (mkVar 1 1 BINARY var_name)
    | Some v =>
        if Qle_bool 0 v && Qle_bool v 1 then Ok (mkVar 1 1 BINARY var_name)
        else if Qeq_bool v 1 then Ok (mkVar 1 1 BINARY var_name)
        else if Qeq_bool v 0 then Ok (mkVar 0 0 BINARY var_name)
        else Raise ValueError
    end)
  else Ok (mkVar 0 1 CONTINUOUS var_name).

(** [generate_right_child_node], lines 275-289. *)
Definition right_var (branch_var : option string) (root_decision_vars : pyobj)
    (var_name : string) : outcome Var :=
  if is_branch var_name branch_var then
    obind (get root_decision_vars var_name) (fun root_var_value =>
    match root_var_value with
    | None => Ok (mkVar 0 0 BINARY var_name)
    | Some v =>
        if Qle_bool 0 v && Qle_bool v 1 then Ok (mkVar 0 0 BINARY var_name)
        else if Qeq_bool v 1 then Ok (mkVar 0 0 CONTINUOUS var_name)
        else if Qeq_bool v 0 then Ok (mkVar 1 1 BINARY var_name)
        else Raise ValueError
    end)
  else Ok (mkVar 0 1 CONTINUOUS var_name).

(** ** [find_next_branch_var] *)

(** One round of the loop over [relaxation.items()]; the state is
    [(next_branch_var, max_fractional_value)]. *)
Definition branch_step (st : option string * Q) (item : string * Q) : option string * Q :=
  let '(var_name, var_value) := item in
  if Qlt_bool 0 var_value && Qlt_bool var_value 1 && Qlt_bool (snd st) var_value
  then (Some var_name, var_value)
  else st.

(** The loop on a dict. *)
Definition select_branch_variable (relaxation : Assignment) : option string :=
  fst (fold_left branch_step relaxation (None, -1 # 1)).

Definition find_next_branch_var (relaxation : pyobj) : outcome (option string) :=
  obind (items relaxation) (fun its => Ok (select_branch_variable its)).

(** ** [all_binary_check] (defined in the source, called nowhere) *)
Definition all_binary_check (current_vars : Assignment) : bool :=
  forallb (fun '(_, value) => Qeq_bool value 0 || Qeq_bool value 1) current_vars.

(* ===================================================================== *)
(** ** [networkx.DiGraph] as far as the tree builder uses it             *)
(* ===================================================================== *)

(** Nodes in insertion order with their [optimal_objective] attribute
    ([None]: the node carries no attribute), and the set of edges. *)
Record DiGraph : Type := mkDiGraph {
  nodes : list (Key * option objective);
  edges : list (Key * Key)
}.

Definition empty_graph : DiGraph := mkDiGraph [] [].

Definition has_node (g : DiGraph) (k : Key) : bool := key_mem k (map fst (nodes g)).

Definition edge_eqb (e e' : Key * Key) : bool :=
  key_eqb (fst e) (fst e') && key_eqb (snd e) (snd e').

Definition has_edge (g : DiGraph) (u v : Key) : bool := existsb (edge_eqb (u, v)) (edges g).

(** The attribute update of [add_node] on a node that exists. *)
Fixpoint set_attr (ns : list (Key * option objective)) (k : Key) (o : objective)
  : list (Key * option objective) :=
  match ns with
  | [] => []
  | (k', a) :: ns' =>
      if key_eqb k k' then (k', Some o) :: ns' else (k', a) :: set_attr ns' k o
  end.

(** [graph.add_node(k, optimal_objective=o)]. *)
Definition add_node (g : DiGraph) (k : Key) (o : objective) : DiGraph :=
  if has_node g k
  then mkDiGraph (set_attr (nodes g) k o) (edges g)
  else mkDiGraph (nodes g ++ [(k, Some o)]) (edges g).

(** What [add_edge] does to an endpoint: a missing one becomes a node
    without attributes. *)
Definition touch_node (g : DiGraph) (k : Key) : DiGraph :=
  if has_node g k then g else mkDiGraph (nodes g ++ [(k, None)]) (edges g).

(** [graph.add_edge(u, v)]: both endpoints exist afterwards, and the edge is
    stored once. *)
Definition add_edge (g : DiGraph) (u v : Key) : DiGraph :=
  let g := touch_node (touch_node g u) v in
  if has_edge g u v then g else mkDiGraph (nodes g) (edges g ++ [(u, v)]).

(** [graph.in_degree(k)]: the edges that end in [k]. *)
Definition in_degree (g : DiGraph) (k : Key) : nat :=
  List.length (filter (fun e => key_eqb k (snd e)) (edges g)).

(* ===================================================================== *)
(** ** The monad of the search: exceptions plus the log of [optimize()]   *)
(* ===================================================================== *)

(** A computation reads and extends the list of models handed to
    [optimize()] so far; the log survives an exception, so that "raised
    before any solver call" can be said. *)
Definition M (A : Type) : Type := list GurobiModel -> outcome A * list GurobiModel.

Definition ret {A} (a : A) : M A := fun log => (Ok a, log).

Definition bind {A B} (c : M A) (f : A -> M B) : M B :=
  fun log =>
    match c log with
    | (Ok a, log') => f a log'
    | (Raise e, log') => (Raise e, log')
    | (OutOfFuel, log') => (OutOfFuel, log')
    end.

(** A step that makes no solver call. *)
Definition lift {A} (o : outcome A) : M A := fun log => (o, log).

Definition out_of_fuel {A} : M A := fun log => (OutOfFuel, log).

Declare Scope search_scope.
Delimit Scope search_scope with search.
Notation "x <- c ;; k" := (bind c (fun x => k))
  (at level 61, c at next level, right associativity) : search_scope.
Notation "' p <- c ;; k" := (bind c (fun p => k))
  (at level 61, p pattern, c at next level, right associativity) : search_scope.

Section Search.

(** The LP solver behind [gp_model.optimize()]. *)
Variable oracle : GurobiModel -> Answer.

(** [round(gp_model.ObjVal, 2)]. *)
Variable round2 : Q -> Q.

Local Open Scope search_scope.

(** [gp_model.optimize()] followed by reading [Status], [ObjVal] and [X]. *)
Definition optimize (g : GurobiModel) : M Answer :=
  fun log => (Ok (oracle g), log ++ [g]).

(** [{var_name: var.X for var_name, var in vars_dict.items()}]. *)
Definition solution_of (vars_dict : dict Var) (X : string -> Q) : Assignment :=
  map (fun '(var_name, _) => (var_name, X var_name)) vars_dict.

(** The node built after [optimize()] (lines 167-181, 241-252, 308-319). *)
Definition node_of (vars_dict : dict Var) (a : Answer) : Node :=
  match a with
  | Some (ObjVal, X) => mkNode (ObjValue (round2 ObjVal)) (PyDict (solution_of vars_dict X))
  | None => mkNode ObjInfeasible (PyStr "infeasible")
  end.

(** The text the three node generators share: variables by [mk], the
    objective from [objective_coeffs], the constraints, [optimize()], the
    node. *)
Definition generate_node (mk : string -> outcome Var) (set_obj : string)
    (objective_coeffs : list Z) (constraint_coeffs : list (list Z))
    (operators : list string) (last_values : list Z) (binary_vars : list string)
  : M Node :=
  '(gvars, vars_dict) <- lift (add_vars mk binary_vars ([], [])) ;;
  let objective_expr := quicksum_zip vars_dict objective_coeffs binary_vars in
  cs <- lift (add_constrs vars_dict binary_vars
                (zip3 constraint_coeffs operators last_values)) ;;
  a <- optimize (mkGurobiModel "Node_LP_Relaxation" gvars (direction_of set_obj)
                   objective_expr cs) ;;
  ret (node_of vars_dict a).

(** [lp_relaxation]: the objective sums [coeff * var] over every row of
    [coefficients]; the result is the solution dict, or [None] when the
    status is not optimal (the function falls off its end). *)
Definition lp_relaxation (set_obj : string) (coefficients : list (list Z))
    (operators : list string) (last_values : list Z) (decision_variables : list string)
  : M pyobj :=
  '(gvars, vars_dict) <- lift (add_vars relaxation_var decision_variables ([], [])) ;;
  let objective_expr :=
    flat_map (fun coeff_row => quicksum_zip vars_dict coeff_row decision_variables)
             coefficients in
  cs <- lift (add_constrs vars_dict decision_variables
                (zip3 coefficients operators last_values)) ;;
  a <- optimize (mkGurobiModel "LP_Relaxation" gvars (direction_of set_obj)
                   objective_expr cs) ;;
  match a with
  | Some (_, X) => ret (PyDict (solution_of vars_dict X))
  | None => ret PyNone
  end.

Definition generate_root_node (set_obj : string) (objective_coeffs : list Z)
    (constraint_coeffs : list (list Z)) (operators : list string)
    (last_values : list Z) (binary_vars : list string) (branch_var : option string)
  : M Node :=
  generate_node (root_var branch_var) set_obj objective_coeffs constraint_coeffs
    operators last_values binary_vars.

Definition generate_left_child_node (model : Model) (objective_coeffs : list Z)
    (constraint_coeffs : list (list Z)) (operators : list string)
    (last_values : list Z) (binary_vars : list string) (branch_var : option string)
    (root_decision_vars : pyobj) : M Node :=
  generate_node (left_var branch_var root_decision_vars) (set_obj model)
    objective_coeffs constraint_coeffs operators last_values binary_vars.

Definition generate_right_child_node (model : Model) (objective_coeffs : list Z)
    (constraint_coeffs : list (list Z)) (operators : list string)
    (last_values : list Z) (binary_vars : list string) (branch_var : option string)
    (root_decision_vars : pyobj) : M Node :=
  generate_node (right_var branch_var root_decision_vars) (set_obj model)
    objective_coeffs constraint_coeffs operators last_values binary_vars.

(** [generate_child_nodes].  Its second argument is the popped node's
    assignment dict, which the builders iterate as [binary_vars]: the
    names are the dict's keys. *)
Definition generate_child_nodes (model : Model) (decision_vars : Assignment)
    (next_branch_var : option string) (root_node_vars : pyobj) : M (Node * Node) :=
  c <- lift (extract_coefficients model) ;;
  left_child_node <-
    generate_left_child_node model (objective_coefficients c)
      (constraint_coefficients c) (constraint_operators c) (constraint_last_values c)
      (dict_keys decision_vars) next_branch_var root_node_vars ;;
  right_child_node <-
    generate_right_child_node model (objective_coefficients c)
      (constraint_coefficients c) (constraint_operators c) (constraint_last_values c)
      (dict_keys decision_vars) next_branch_var root_node_vars ;;
  ret (left_child_node, right_child_node).

(** *** Flat mode: [solve_branch_and_bound] *)

(** A frontier entry [(node, current_node_vars)].  The frontier [node_list]
    is a list used first in, first out; [visited_nodes] is a Python set,
    kept here as the list of its keys in the order they were added (only
    membership is ever asked of it). *)
Definition Entry : Type := Node * pyobj.

(** Lines 396-398 and 406-408: a child whose key is new is queued with
    the reference assignment [ref] and marked visited.  The [print] calls
    of the branch write to stdout only. *)
Definition admit_child (child : Node) (ref : pyobj) (st : list Entry * list Key)
  : M (list Entry * list Key) :=
  k <- lift (items (decision_vars child)) ;;
  if negb (key_mem k (snd st))
  then ret (fst st ++ [(child, ref)], snd st ++ [k])
  else ret st.

(** One round of the [while node_list:] loop (lines 388-414) on the popped
    entry, the rest of the list and the visited set. *)
Definition expand (model : Model) (entry : Entry) (node_list : list Entry)
    (visited_nodes : list Key) : M (list Entry * list Key) :=
  let '(current_node, current_node_vars) := entry in
  next_branch_var <- lift (find_next_branch_var (decision_vars current_node)) ;;
  dv <- lift (items (decision_vars current_node)) ;;
  '(left_child_node, right_child_node) <-
    generate_child_nodes model dv next_branch_var current_node_vars ;;
  st <- admit_child left_child_node current_node_vars (node_list, visited_nodes) ;;
  admit_child right_child_node (decision_vars right_child_node) st.

Fixpoint solve_loop (fuel : nat) (model : Model) (node_list : list Entry)
    (visited_nodes : list Key) : M (list Key) :=
  match node_list with
  | [] => ret visited_nodes
  | entry :: rest =>
      match fuel with
      | O => out_of_fuel
      | S fuel' =>
          '(node_list', visited') <- expand model entry rest visited_nodes ;;
          solve_loop fuel' model node_list' visited'
      end
  end.

(** Lines 369-385: the pre-root relaxation, the root node, the first
    frontier entry and the first visited key.  Line 380 prints the root's
    [decision_vars.items()]. *)
Definition start (model : Model) : M (Node * Key) :=
  c <- lift (extract_coefficients model) ;;
  relaxation <- lp_relaxation (set_obj model) (constraint_coefficients c)
                  (constraint_operators c) (constraint_last_values c)
                  (binary_vars model) ;;
  next_branch_var <- lift (find_next_branch_var relaxation) ;;
  root_node <- generate_root_node (set_obj model) (objective_coefficients c)
                 (constraint_coefficients c) (constraint_operators c)
                 (constraint_last_values c) (binary_vars model) next_branch_var ;;
  k <- lift (items (decision_vars root_node)) ;;
  ret (root_node, k).

Definition solve_branch_and_bound (fuel : nat) (model : Model) : M (list Key) :=
  '(root_node, k) <- start model ;;
  solve_loop fuel model [(root_node, decision_vars root_node)] [k].

(** *** Tree mode: [create_branch_and_bound_tree] *)

(** A frontier entry [(node, current_node_vars, node_type)]. *)
Definition TEntry : Type := Node * pyobj * string.

(** Lines 454-462 and 464-472: the produced child is recorded as a graph
    node, the edge from the key of [current_node_vars] is added, and only
    then the visited set decides whether the child is queued. *)
Definition attach_child (child : Node) (current_node_vars ref : pyobj) (node_type : string)
    (st : list TEntry * list Key * DiGraph) : M (list TEntry * list Key * DiGraph) :=
  let '(node_list, visited_nodes, graph) := st in
  k <- lift (items (decision_vars child)) ;;
  let graph := add_node graph k (optimal_objective child) in
  pk <- lift (items current_node_vars) ;;
  let graph := add_edge graph pk k in
  if negb (key_mem k visited_nodes)
  then ret (node_list ++ [(child, ref, node_type)], visited_nodes ++ [k], graph)
  else ret (node_list, visited_nodes, graph).

(** One round of the loop of lines 447-472. *)
Definition expand_tree (model : Model) (entry : TEntry) (node_list : list TEntry)
    (visited_nodes : list Key) (graph : DiGraph)
  : M (list TEntry * list Key * DiGraph) :=
  let '(current_node, current_node_vars, _) := entry in
  next_branch_var <- lift (find_next_branch_var (decision_vars current_node)) ;;
  dv <- lift (items (decision_vars current_node)) ;;
  '(left_child_node, right_child_node) <-
    generate_child_nodes model dv next_branch_var current_node_vars ;;
  st <- attach_child left_child_node current_node_vars current_node_vars "left"
          (node_list, visited_nodes, graph) ;;
  attach_child right_child_node current_node_vars (decision_vars right_child_node)
    "right" st.

Fixpoint tree_loop (fuel : nat) (model : Model) (node_list : list TEntry)
    (visited_nodes : list Key) (graph : DiGraph) : M DiGraph :=
  match node_list with
  | [] => ret graph
  | entry :: rest =>
      match fuel with
      | O => out_of_fuel
      | S fuel' =>
          '(node_list', visited', graph') <-
            expand_tree model entry rest visited_nodes graph ;;
          tree_loop fuel' model node_list' visited' graph'
      end
  end.

(** Lines 433-445 repeat lines 369-375 ([start]); the root becomes the
    first graph node. *)
Definition create_branch_and_bound_tree (fuel : nat) (model : Model) : M DiGraph :=
  '(root_node, k) <- start model ;;
  let graph := add_node empty_graph k (optimal_objective root_node) in
  tree_loop fuel model [(root_node, decision_vars root_node, "root")] [k] graph.

End Search.

(* ===================================================================== *)
(** ** Vocabulary of the statements                                       *)
(* ===================================================================== *)

(** A value strictly between 0 and 1. *)
Definition fractional (v : Q) : Prop := 0 < v /\ v < 1.

(** Every value is exactly 0 or 1. *)
Definition integral (A : Assignment) : Prop :=
  Forall (fun item => snd item == 0 \/ snd item == 1) A.

(** Every value lies in [0, 1]. *)
Definition in_unit_range (A : Assignment) : Prop :=
  Forall (fun item => 0 <= snd item /\ snd item <= 1) A.

(** What the loop of [find_next_branch_var] has established after the
    items [A]: either nothing fractional was seen, or the remembered
    variable is the first one carrying the largest fractional value. *)
Definition branch_state_ok (A : Assignment) (st : option string * Q) : Prop :=
  match fst st with
  | None =>
      snd st == -1 /\ forall n w, In (n, w) A -> ~ fractional w
  | Some b =>
      exists i, nth_error A i = Some (b, snd st) /\ fractional (snd st) /\
        forall j n w, nth_error A j = Some (n, w) -> fractional w ->
          w <= snd st /\ ((j < i)%nat -> w < snd st)
  end.

(** The three operators the builders know. *)
Definition known_operator (operator : string) : Prop :=
  operator = "<=" \/ operator = ">=" \/ operator = "==".

(** The variable list of a child request whose branch variable [b] got the
    spec [fixed] and every other variable the continuous range [0, 1]. *)
Definition child_vars (fixed : string -> Var) (b : string) (names : list string) : list Var :=
  map (fun n => if String.eqb n b then fixed n else mkVar 0 1 CONTINUOUS n) names.

(** A computation only ever adds solver calls to the end of the log. *)
Definition appends {A} (c : M A) : Prop :=
  forall log, exists l, snd (c log) = log ++ l.

(** What [lp_relaxation] returns for a solver answer. *)
Definition relaxation_of (vars_dict : dict Var) (a : Answer) : pyobj :=
  match a with
  | Some (_, X) => PyDict (solution_of vars_dict X)
  | None => PyNone
  end.

(** The [vars_dict] the variable loop leaves when the spec of every name
    [n] is [f n]. *)
Definition vars_dict_of (f : string -> Var) (names : list string) (acc : dict Var) : dict Var :=
  fold_left (fun d n => dict_set d n (f n)) names acc.

(** The spec of a variable that is not branched on. *)
Definition relaxed (n : string) : Var := mkVar 0 1 CONTINUOUS n.

(** ASCII text: every character is below 128.  On such text the classes
    of [Re] and the methods of [Str] are Python's. *)
Definition ascii_text (s : string) : bool :=
  forallb (fun c => (nat_of_ascii c <? 128)%nat) (list_ascii_of_string s).

(** The texts of the model that are parsed are ASCII. *)
Definition ascii_model (model : Model) : Prop :=
  ascii_text (obj_f model) = true /\
  Forall (fun constraint => ascii_text constraint = true) (constraints model).

(** The number of digits the text starts with. *)
Fixpoint digit_run (s : list ascii) : nat :=
  match s with
  | c :: s' => if Re.is_digit c then S (digit_run s') else O
  | [] => O
  end.

(** The length of the longest run of digits in the text. *)
Fixpoint longest_digit_run (s : list ascii) : nat :=
  match s with
  | [] => O
  | _ :: s' => Nat.max (digit_run s) (longest_digit_run s')
  end.

(** No number in the text has more digits than [int] converts. *)
Definition numbers_fit (s : string) : bool :=
  (longest_digit_run (list_ascii_of_string s) <=? Re.max_str_digits)%nat.

Definition numbers_fit_model (model : Model) : Prop :=
  numbers_fit (obj_f model) = true /\
  Forall (fun constraint => numbers_fit constraint = true) (constraints model).


(** A frontier entry of tree mode without its [node_type] tag. *)
Definition strip (e : TEntry) : Entry := fst e.

(** The keys of the graph's nodes start with the root key [rk]; no other
    node has the root's key, and every other node has an incoming edge. *)
Definition root_ok (g : DiGraph) (rk : Key) : Prop :=
  exists rest,
    map fst (nodes g) = rk :: rest /\
    forall k, In k rest -> key_eqb k rk = false /\ (1 <= in_degree g k)%nat.

(** What tree mode maintains between two rounds of its loop. *)
Record tree_inv (node_list : list TEntry) (visited : list Key) (g : DiGraph) (rk : Key)
  : Prop := mk_tree_inv {
  inv_refs : forall n r t, In (n, r, t) node_list ->
             exists pk, r = PyDict pk /\ key_mem pk visited = true;
  inv_nodes : forall k, has_node g k = key_mem k visited;
  inv_root : root_ok g rk
}.

(** Flat mode and tree mode are in the same state. *)
Definition sim (rk : Key) (fs : list Entry * list Key)
    (ts : list TEntry * list Key * DiGraph) : Prop :=
  fst fs = map strip (fst (fst ts)) /\
  snd fs = snd (fst ts) /\
  tree_inv (fst (fst ts)) (snd fs) (snd ts) rk.

(** Two runs made the same solver calls and ended the same way: with
    related values, with the same exception, or both out of fuel. *)
Definition agree {A B} (R : A -> B -> Prop)
    (x : outcome A * list GurobiModel) (y : outcome B * list GurobiModel) : Prop :=
  snd x = snd y /\
  match fst x, fst y with
  | Ok a, Ok b => R a b
  | Raise e, Raise e' => e = e'
  | OutOfFuel, OutOfFuel => True
  | _, _ => False
  end.

(** The visited set of flat mode and the graph of tree mode at the end of
    a run that started from the root key [rk]. *)
Definition same_nodes (rk : Key) (visited : list Key) (g : DiGraph) : Prop :=
  (forall k, has_node g k = key_mem k visited) /\ root_ok g rk.

(** The text ends in a number: a non-empty run of digits followed by
    nothing but blanks. *)
Definition ends_in_number (s : list ascii) : Prop :=
  exists pre ds sp,
    s = pre ++ ds ++ sp /\ ds <> [] /\
    Forall (fun c => Re.is_digit c = true) ds /\
    Forall (fun c => Re.is_space c = true) sp.

(* ===================================================================== *)
(** ** Concrete models and solvers used in the examples                   *)
(* ===================================================================== *)

Module Examples.

(** The value of a linear expression under the valuation [X]. *)
Definition eval_expr (X : string -> Q) (e : LinExpr) : Q :=
  fold_left (fun acc '(coeff, v) => acc + inject_Z coeff * X (name v)) e 0.

(** An optimal answer with the objective computed from the model. *)
Definition optimal (g : GurobiModel) (X : string -> Q) : Answer :=
  Some (eval_expr X (g_objective g), X).

(** A valuation of [x1] and [x2]. *)
Definition point (a b : Q) : string -> Q :=
  fun n => if String.eqb n "x1" then a else if String.eqb n "x2" then b else 0.

Definition no_rounding (q : Q) : Q := q.

(** The scenario of the specification. *)
Definition scenario_model : Model :=
  mkModel "MAXIMIZE" "5*x1 + 4*x2" ["6*x1 + 4*x2 <= 24"; "1*x1 + 2*x2 <= 6"] ["x1"; "x2"].

(** max x1 + x2 subject to x1 + x2 <= 0: the origin is the only feasible
    point of every LP the search builds without a branch variable. *)
Definition zero_model : Model :=
  mkModel "MAXIMIZE" "1*x1 + 1*x2" ["1*x1 + 1*x2 <= 0"] ["x1"; "x2"].

Definition zero_oracle (g : GurobiModel) : Answer := optimal g (point 0 0).

(** max x1 + x2 subject to 2 x1 + 2 x2 <= 3.  The solver below answers
    from the bounds of [x1] and [x2]: a variable fixed to 1 leaves 1/2
    for the other, one fixed to 0 leaves 1; with [x2] binary the optimum
    is (1/2, 1); the plain relaxation returns the vertex (1, 1/2). *)
Definition half_model : Model :=
  mkModel "MAXIMIZE" "1*x1 + 1*x2" ["2*x1 + 2*x2 <= 3"] ["x1"; "x2"].

Definition half_oracle (g : GurobiModel) : Answer :=
  match g_vars g with
  | [v1; v2] =>
      if Qeq_bool (lb v1) 1 then optimal g (point 1 (1 # 2))
      else if Qeq_bool (ub v1) 0 then optimal g (point 0 1)
      else if Qeq_bool (lb v2) 1 then optimal g (point (1 # 2) 1)
      else if Qeq_bool (ub v2) 0 then optimal g (point 1 0)
      else match vt v2 with
           | BINARY => optimal g (point (1 # 2) 1)
           | CONTINUOUS => optimal g (point 1 (1 # 2))
           end
  | _ => None
  end.

(** The root of the run on [half_model] and its key. *)
Definition half_key : Key := [("x1", 1 # 2); ("x2", 1)].


(** max x1 subject to 2 x1 == 1: the relaxation has the single point
    x1 = 1/2; once [x1] is binary nothing is feasible. *)
Definition infeasible_root_model : Model :=
  mkModel "MAXIMIZE" "1*x1" ["2*x1 == 1"] ["x1"].

Definition infeasible_root_oracle (g : GurobiModel) : Answer :=
  if existsb (fun v => match vt v with BINARY => true | CONTINUOUS => false end) (g_vars g)
  then None
  else optimal g (point (1 # 2) 0).

(** max x1 + x2 subject to 2 x1 + 2 x2 <= 1: the relaxation returns the
    vertex (1/2, 0); with [x1] binary the optimum is (0, 1/2); a variable
    fixed to 1 is infeasible, one fixed to 0 leaves 1/2 for the other. *)
Definition infeasible_child_model : Model :=
  mkModel "MAXIMIZE" "1*x1 + 1*x2" ["2*x1 + 2*x2 <= 1"] ["x1"; "x2"].

Definition infeasible_child_oracle (g : GurobiModel) : Answer :=
  match g_vars g with
  | [v1; v2] =>
      if Qeq_bool (lb v1) 1 || Qeq_bool (lb v2) 1 then None
      else if Qeq_bool (ub v1) 0 then optimal g (point 0 (1 # 2))
      else if Qeq_bool (ub v2) 0 then optimal g (point (1 # 2) 0)
      else match vt v1 with
           | BINARY => optimal g (point 0 (1 # 2))
           | CONTINUOUS => optimal g (point (1 # 2) 0)
           end
  | _ => None
  end.




End Examples.

(* ===================================================================== *)
(** ** More vocabulary: what a completed run looks like                   *)
(* ===================================================================== *)

(** No two keys of the list are equal (as [tuple]s are compared). *)
Definition distinct_keys (s : list Key) : Prop :=
  ForallOrdPairs (fun a b => key_eqb a b = false) s.

(** [vars_dict.keys()] after the variable loop over [names], started from
    the keys [acc]: a repeated name keeps its first place. *)
Definition keys_after (names : list string) (acc : list string) : list string :=
  fold_left (fun ks n => if existsb (String.eqb n) ks then ks else ks ++ [n]) names acc.

(** The graph tree mode has built so far, seen against its visited set and
    its frontier: the node keys are the visited keys in the order they were
    met, no key twice; every node carries an objective; every edge joins
    two nodes and is stored once; every frontier entry refers to a visited
    key; and each round so far has added at most two edges. *)
Record tree_shape (node_list : list TEntry) (visited : list Key) (g : DiGraph) : Prop :=
  mk_tree_shape {
  shape_keys : map fst (nodes g) = visited;
  shape_distinct : distinct_keys visited;
  shape_attrs : Forall (fun n => snd n <> None) (nodes g);
  shape_ends : Forall (fun e => has_node g (fst e) = true /\ has_node g (snd e) = true)
                 (edges g);
  shape_edges : ForallOrdPairs (fun e e' => edge_eqb e e' = false) (edges g);
  shape_count : (List.length (edges g) + 2 * List.length node_list
                 <= 2 * List.length visited)%nat
}.

(** A request in which no variable but those named [b] (if any) is
    touched: every other variable is continuous with bounds [0, 1]. *)
Definition at_most_named (b : option string) (g : GurobiModel) : Prop :=
  Forall (fun v => is_branch (name v) b = true \/ v = relaxed (name v)) (g_vars g).



(* ===================================================================== *)
(** ** More concrete inputs                                               *)
(* ===================================================================== *)

Module MoreExamples.

(** max x1 subject to x1 >= 2: no LP the search builds for it is
    feasible. *)
Definition impossible_model : Model :=
  mkModel "MAXIMIZE" "1*x1" ["1*x1 >= 2"] ["x1"].

(** A solver for requests with one variable and constraints [a*x >= r]
    with [a >= 0]: when the upper bound of the variable meets every
    constraint it is the optimum of a maximisation, and otherwise there is
    none. *)
Definition one_variable_oracle (g : GurobiModel) : Answer :=
  match g_vars g with
  | [v] =>
      if forallb (fun c =>
                    match c_lhs c, c_sense c with
                    | [(a, _)], GE => Qle_bool (inject_Z (c_rhs c)) (inject_Z a * ub v)
                    | _, _ => true
                    end) (g_constrs g)
      then Examples.optimal g (fun _ => ub v)
      else None
  | _ => None
  end.

End MoreExamples.

(* ===================================================================== *)
(** ** Vocabulary for the parser                                          *)
(* ===================================================================== *)

(** A constraint text the parser accepts: it has an operator character
    and ends in a number. *)
Definition parsable (constraint : string) : Prop :=
  (exists c, In c (list_ascii_of_string constraint) /\ Re.is_opchar c = true) /\
  ends_in_number (list_ascii_of_string constraint).

(** A non-empty run of digits. *)
Definition number (ds : list ascii) : Prop :=
  ds <> [] /\ Forall (fun c => Re.is_digit c = true) ds.

(** A number that [int] converts: a non-empty run of at most
    [Re.max_str_digits] digits. *)
Definition literal (ds : list ascii) : Prop :=
  number ds /\ (List.length ds <= Re.max_str_digits)%nat.

(** A character of a variable name: an ASCII character that is no blank,
    none of [<], [>], [=], and not [*]. *)
Definition plain (c : ascii) : bool :=
  (nat_of_ascii c <? 128)%nat &&
  negb (Re.is_space c) && negb (Re.is_opchar c) && negb (Ascii.eqb c "*").

(** The text of one term, [<coefficient>*<name>]. *)
Definition term_text (t : list ascii * list ascii) : list ascii :=
  fst t ++ "*"%char :: snd t.

(** The terms after the first, each introduced by [ + ]. *)
Fixpoint more_terms (ts : list (list ascii * list ascii)) : list ascii :=
  match ts with
  | [] => []
  | t :: ts' => " "%char :: "+"%char :: " "%char :: term_text t ++ more_terms ts'
  end.

(** [c1*v1 + c2*v2 + ...]. *)
Definition sum_text (ts : list (list ascii * list ascii)) : list ascii :=
  match ts with
  | [] => []
  | t :: ts' => term_text t ++ more_terms ts'
  end.

(** [c1*v1 + ... <op> <rhs>], the way the specification writes a
    constraint. *)
Definition constraint_text (ts : list (list ascii * list ascii)) (op rhs : list ascii)
  : list ascii :=
  sum_text ts ++ " "%char :: op ++ " "%char :: rhs.

(** A term whose coefficient is a number and whose name is made of plain
    characters. *)
Definition well_formed_term (t : list ascii * list ascii) : Prop :=
  literal (fst t) /\ Forall (fun c => plain c = true) (snd t).

(** A constraint as data: its terms, its operator and its right-hand
    side. *)
Definition Row : Type := list (list ascii * list ascii) * list ascii * list ascii.

Definition well_formed_row (r : Row) : Prop :=
  let '(ts, op, rhs) := r in
  Forall well_formed_term ts /\ op <> [] /\
  Forall (fun c => Re.is_opchar c = true) op /\ literal rhs.

Definition row_text (r : Row) : string :=
  let '(ts, op, rhs) := r in string_of_list_ascii (constraint_text ts op rhs).

Definition coefficients_of (ts : list (list ascii * list ascii)) : list Z :=
  map (fun t => Re.value (fst t)) ts.

Definition row_meaning (r : Row) : list Z * string * Z :=
  let '(ts, op, rhs) := r in (coefficients_of ts, string_of_list_ascii op, Re.value rhs).

(** The model whose texts spell out an objective and rows. *)
Definition written_model (sense : string) (objective : list (list ascii * list ascii))
  (rows : list Row) (names : list string) : Model :=
  mkModel sense (string_of_list_ascii (sum_text objective)) (map row_text rows) names.

(** What the parser should make of it. *)
Definition model_meaning (objective : list (list ascii * list ascii)) (rows : list Row)
  : Coefficients :=
  mkCoefficients (coefficients_of objective)
                 (map (fun r => fst (fst (row_meaning r))) rows)
                 (map (fun r => snd (fst (row_meaning r))) rows)
                 (map (fun r => snd (row_meaning r)) rows).

(* ===================================================================== *)
(** ** Reading a model file ([src/utils/generate_values.py])              *)
(* ===================================================================== *)

(** The [str] methods the reader uses, on ASCII text. *)
Module Str.

(** [s.lstrip()]: without its leading blanks. *)
Fixpoint lstrip (s : string) : string :=
  match s with
  | String c s' => if Re.is_space c then lstrip s' else s
  | EmptyString => EmptyString
  end.

(** [s.rstrip()]: without its trailing blanks. *)
Fixpoint rstrip (s : string) : string :=
  match s with
  | EmptyString => EmptyString
  | String c s' =>
      match rstrip s' with
      | EmptyString => if Re.is_space c then EmptyString else String c EmptyString
      | r => String c r
      end
  end.

(** [s.strip()]. *)
Definition strip (s : string) : string := rstrip (lstrip s).

(** [s.split(sep)] for a separator of one character: the pieces between
    the separators, at least one. *)
Fixpoint split (sep : ascii) (s : string) : list string :=
  match s with
  | EmptyString => [EmptyString]
  | String c s' =>
      if Ascii.eqb c sep then EmptyString :: split sep s'
      else match split sep s' with
           | piece :: pieces => String c piece :: pieces
           | [] => [String c EmptyString]
           end
  end.

(** [sep.join(xs)]. *)
Fixpoint join (sep : string) (xs : list string) : string :=
  match xs with
  | [] => EmptyString
  | x :: xs' =>
      match xs' with
      | [] => x
      | _ :: _ => (x ++ sep ++ join sep xs')%string
      end
  end.

End Str.

(** The one exception the reader can raise. *)
Inductive input_error : Type :=
| TypeError. (* len(None), str + None *)

Inductive result (A : Type) : Type :=
| Returns (a : A)
| Raises (e : input_error).
Arguments Returns {A} a.
Arguments Raises {A} e.

(** [(setObj, obj_f, constraints, binary_vars)]; the first two are [None]
    until a line sets them. *)
Definition Values : Type := (option string * option string * list string * list string)%type.

(** [content[2:-1]]. *)
Definition middle_lines (content : list string) : list string :=
  firstn (List.length content - 1 - 2) (skipn 2 content).

(** The line feed. *)
Definition nl : string := String (ascii_of_nat 10) EmptyString.

(** [extract_values(content)]; [content] is what [open_file()] returned:
    the lines of the file, or [None] when no file was chosen or the file
    was empty. *)
Definition extract_values (content : option (list string)) : result Values :=
  let setObj :=
    match content with
    | Some (line :: _) => Some (Str.strip line)
    | _ => None
    end in
  match content with
  | None => Raises TypeError
  | Some lines =>
      let obj_f :=
        if (1 <? List.length lines)%nat
        then Some (Str.strip (nth 1 lines EmptyString))
        else None in
      let constraints :=
        if (2 <? List.length lines)%nat
        then flat_map (fun line => map Str.strip (Str.split "," line)) (middle_lines lines)
        else map Str.strip (middle_lines lines) in
      let binary_vars :=
        match lines with
        | [] => []
        | _ :: _ =>
            let last_line_values := Str.split "," (Str.strip (last lines EmptyString)) in
            map Str.strip last_line_values
        end in
      Returns (setObj, obj_f, constraints, binary_vars)
  end.

(** [display_lines(setObj, obj_f, constraints, binary_vars)]. *)
Definition display_lines (setObj obj_f : option string)
  (constraints binary_vars : list string) : result (list string) :=
  let setObj_text :=
    match setObj with
    | Some s => if String.eqb s "MAXIMIZE" then "max" else "min"
    | None => "min"
    end in
  match obj_f with
  | None => Raises TypeError
  | Some f =>
      let setObj_text := (setObj_text ++ " " ++ f ++ nl)%string in
      let constraints_text :=
        ("s.t " ++ nl ++ Str.join (", " ++ nl) constraints ++ nl)%string in
      let variables_text := (Str.join ", " binary_vars ++ " = 1 or 0")%string in
      Returns [setObj_text; constraints_text; variables_text]
  end.

(** What [get_model_values] of [src/screen/root_screen.py] computes from
    the result of [open_file()]: the text it puts on the label and the
    values it stores on the window. *)
Definition get_model_values (content : option (list string)) : result (string * Values) :=
  match extract_values content with
  | Raises e => Raises e
  | Returns (setObj, obj_f, constraints, binary_vars) =>
      match display_lines setObj obj_f constraints binary_vars with
      | Raises e => Raises e
      | Returns display => Returns (Str.join nl display, (setObj, obj_f, constraints, binary_vars))
      end
  end.

(** *** Vocabulary for files *)

(** Nothing but blanks. *)
Fixpoint blank (s : string) : bool :=
  match s with
  | EmptyString => true
  | String c s' => Re.is_space c && blank s'
  end.

(** The character occurs in the text. *)
Fixpoint mentions (x : ascii) (s : string) : bool :=
  match s with
  | EmptyString => false
  | String c s' => Ascii.eqb c x || mentions x s'
  end.

(** Text that starts with something other than a blank, if it starts at
    all. *)
Definition starts_clean (s : string) : Prop :=
  match s with
  | String c _ => Re.is_space c = false
  | EmptyString => True
  end.

(** The pieces [ps], the last one with [sp] appended. *)
Fixpoint app_last (ps : list string) (sp : string) : list string :=
  match ps with
  | [] => []
  | p :: ps' =>
      match ps' with
      | [] => [(p ++ sp)%string]
      | _ :: _ => p :: app_last ps' sp
      end
  end.

(** A value as the reader returns it: no blanks around it, no comma in
    it. *)
Definition field (x : string) : Prop :=
  Str.strip x = x /\ mentions "," x = false.

(** [y] is [x] with blanks around it. *)
Definition padded (x y : string) : Prop :=
  exists sp1 sp2, blank sp1 = true /\ blank sp2 = true /\ y = (sp1 ++ x ++ sp2)%string.

(** [line] lists the values [xs], separated by commas, with any blanks
    around each. *)
Definition lists (xs : list string) (line : string) : Prop :=
  exists ps, Forall2 padded xs ps /\ line = Str.join "," ps.

(** A field of ASCII text. *)
Definition ascii_field (x : string) : Prop :=
  field x /\ ascii_text x = true.

(** The values of a model that a file can hold: a trimmed sense and
    objective, groups of constraints (one group per line) and names, all of
    them fields, all of ASCII text, no group and not the names empty. *)
Definition storable (sense obj : string) (groups : list (list string))
  (names : list string) : Prop :=
  Str.strip sense = sense /\ ascii_text sense = true /\
  Str.strip obj = obj /\ ascii_text obj = true /\
  Forall (fun g => g <> [] /\ Forall ascii_field g) groups /\
  names <> [] /\ Forall ascii_field names.

(** [content] is a file that holds them: the sense, the objective, one
    line per group of constraints, the names. *)
Definition holds (content : list string) (sense obj : string)
  (groups : list (list string)) (names : list string) : Prop :=
  exists l0 l1 mids ln,
    content = l0 :: l1 :: mids ++ [ln] /\
    padded sense l0 /\ padded obj l1 /\
    Forall2 lists groups mids /\ lists names ln.

(* ===================================================================== *)
(** * Properties                                                          *)
(* ===================================================================== *)

(** ** Comparisons on values *)

Lemma Qlt_bool_iff (a b : Q) : Qlt_bool a b = true <-> a < b.
Proof.
  unfold Qlt_bool. rewrite negb_true_iff. split; intro H.
  - apply Qnot_le_lt. intro L. apply Qle_bool_iff in L. congruence.
  - destruct (Qle_bool b a) eqn:E; [|reflexivity].
    apply Qle_bool_iff in E. lra.
Qed.

Lemma Qlt_bool_false (a b : Q) : Qlt_bool a b = false <-> b <= a.
Proof.
  unfold Qlt_bool. rewrite negb_false_iff. apply Qle_bool_iff.
Qed.

(** ** The branching rule *)

Lemma select_last (A : Assignment) (item : string * Q) :
  fold_left branch_step (A ++ [item]) (None, -1 # 1)
  = branch_step (fold_left branch_step A (None, -1 # 1)) item.
Proof. rewrite fold_left_app. reflexivity. Qed.

Lemma branch_state_invariant (A : Assignment) :
  branch_state_ok A (fold_left branch_step A (None, -1 # 1)).
Proof.
  induction A as [|[x v] A IH] using rev_ind.
  - simpl. split; [reflexivity | intros n w []].
  - rewrite select_last.
    destruct (fold_left branch_step A (None, -1 # 1)) as [nb mx].
    unfold branch_step, branch_state_ok in *. cbn [fst snd] in *.
    destruct (Qlt_bool 0 v && Qlt_bool v 1 && Qlt_bool mx v) eqn:C.
    + (* the new item takes over *)
      apply andb_true_iff in C as [C C3]. apply andb_true_iff in C as [C1 C2].
      apply Qlt_bool_iff in C1, C2, C3. cbn [fst snd].
      exists (List.length A). split; [|split].
      * rewrite nth_error_app2 by lia. rewrite Nat.sub_diag. reflexivity.
      * split; assumption.
      * intros j n w Hj Fw.
        destruct (Nat.lt_ge_cases j (List.length A)) as [Lt|Ge].
        -- rewrite nth_error_app1 in Hj by assumption.
           destruct nb as [b|].
           ++ destruct IH as (i & _ & _ & Hmax).
              destruct (Hmax j n w Hj Fw) as [Le _]. split; intros; lra.
           ++ destruct IH as [_ Hno]. exfalso.
              apply (Hno n w); [eapply nth_error_In; eassumption | assumption].
        -- split; [|lia].
           rewrite nth_error_app2 in Hj by assumption.
           destruct (j - List.length A)%nat as [|[|k]]; simpl in Hj; try discriminate.
           injection Hj as _ <-. lra.
    + (* the state is kept *)
      cbn [fst snd]. destruct nb as [b|].
      * destruct IH as (i & Hi & Fi & Hmax).
        assert (Li : (i < List.length A)%nat)
          by (apply nth_error_Some; congruence).
        exists i. split; [|split].
        -- rewrite nth_error_app1 by assumption. assumption.
        -- assumption.
        -- intros j n w Hj Fw.
           destruct (Nat.lt_ge_cases j (List.length A)) as [Lt|Ge].
           ++ rewrite nth_error_app1 in Hj by assumption. eauto.
           ++ rewrite nth_error_app2 in Hj by assumption.
              destruct (j - List.length A)%nat as [|[|k]]; simpl in Hj; try discriminate.
              injection Hj as _ <-.
              destruct Fw as [F0 F1].
              apply Qlt_bool_iff in F0, F1. rewrite F0, F1 in C. simpl in C.
              apply Qlt_bool_false in C. split; [assumption | intro; lia].
      * destruct IH as [Hm Hno]. split; [assumption|].
        intros n w Hin Fw. apply in_app_or in Hin as [Hin|[E|[]]].
        -- apply (Hno n w); assumption.
        -- injection E as _ <-. destruct Fw as [F0 F1].
           assert (Qlt_bool mx v = true) by (apply Qlt_bool_iff; lra).
           apply Qlt_bool_iff in F0, F1. rewrite F0, F1, H in C. discriminate.
Qed.

Lemma integral_iff_no_fractional (A : Assignment) :
  in_unit_range A ->
  (integral A <-> forall n w, In (n, w) A -> ~ fractional w).
Proof.
  intro R. unfold integral, in_unit_range in *. rewrite Forall_forall in *.
  split.
  - intros I n w Hin [F0 F1]. destruct (I _ Hin) as [E|E]; cbn in E; lra.
  - intros N [n w] Hin. cbn. specialize (R _ Hin). cbn in R.
    destruct (Qlt_le_dec 0 w) as [P|P]; [|left; lra].
    destruct (Qlt_le_dec w 1) as [P1|P1]; [|right; lra].
    exfalso. apply (N n w Hin). split; assumption.
Qed.

(** C6.  On an assignment with all values in [0, 1], [find_next_branch_var]
    returns [None] exactly when the assignment is integral; otherwise it
    returns a variable whose value is strictly between 0 and 1, no
    fractional value is larger, and every fractional value at an earlier
    position is strictly smaller (first occurrence wins a tie).  Being a
    function of the assignment, the answer is the same on every call. *)
Theorem find_next_branch_var_spec (A : Assignment) :
  in_unit_range A ->
  exists r, find_next_branch_var (PyDict A) = Ok r /\
    (r = None <-> integral A) /\
    (forall b, r = Some b ->
       exists i v, nth_error A i = Some (b, v) /\ fractional v /\
         forall j n w, nth_error A j = Some (n, w) -> fractional w ->
           w <= v /\ ((j < i)%nat -> w < v)).
Proof.
  intro R. exists (select_branch_variable A). split; [reflexivity|].
  pose proof (branch_state_invariant A) as Inv.
  unfold select_branch_variable.
  destruct (fold_left branch_step A (None, -1 # 1)) as [nb mx].
  unfold branch_state_ok in Inv. cbn [fst snd] in *.
  rewrite (integral_iff_no_fractional A R).
  destruct nb as [b|].
  - destruct Inv as (i & Hi & Fi & Hmax). split.
    + split; [discriminate|]. intro N. exfalso.
      apply (N b mx); [eapply nth_error_In; eassumption | assumption].
    + intros b' E. injection E as <-. exists i, mx. auto.
  - destruct Inv as [_ Hno]. split.
    + split; auto.
    + discriminate.
Qed.

Lemma find_next_branch_var_spec_witness :
  exists r, find_next_branch_var (PyDict [("x1", 1 # 2); ("x2", 1); ("x3", 1 # 2)]) = Ok r /\
    (r = None <-> integral [("x1", 1 # 2); ("x2", 1); ("x3", 1 # 2)]) /\
    (forall b, r = Some b ->
       exists i v, nth_error [("x1", 1 # 2); ("x2", 1); ("x3", 1 # 2)] i = Some (b, v) /\
         fractional v /\
         forall j n w, nth_error [("x1", 1 # 2); ("x2", 1); ("x3", 1 # 2)] j = Some (n, w) ->
           fractional w -> w <= v /\ ((j < i)%nat -> w < v)).
Proof.
  apply (find_next_branch_var_spec [("x1", 1 # 2); ("x2", 1); ("x3", 1 # 2)]).
  repeat constructor; cbn; discriminate.
Defined.

Example find_next_branch_var_tie :
  find_next_branch_var (PyDict [("x1", 1 # 2); ("x2", 1); ("x3", 1 # 2)]) = Ok (Some "x1").
Proof. reflexivity. Qed.

(** ** Running computations *)

Lemma bind_ok {A B} (c : M A) (f : A -> M B) (log log' : list GurobiModel) (a : A) :
  c log = (Ok a, log') -> bind c f log = f a log'.
Proof. intro H. unfold bind. rewrite H. reflexivity. Qed.

Lemma bind_raise {A B} (c : M A) (f : A -> M B) (log log' : list GurobiModel) (e : exn) :
  c log = (Raise e, log') -> bind c f log = (Raise e, log').
Proof. intro H. unfold bind. rewrite H. reflexivity. Qed.

Lemma bind_out_of_fuel {A B} (c : M A) (f : A -> M B) (log log' : list GurobiModel) :
  c log = (OutOfFuel, log') -> bind c f log = (OutOfFuel, log').
Proof. intro H. unfold bind. rewrite H. reflexivity. Qed.

Lemma appends_ret {A} (a : A) : appends (ret a).
Proof. intro log. exists []. simpl. now rewrite app_nil_r. Qed.

Lemma appends_lift {A} (o : outcome A) : appends (lift o).
Proof. intro log. exists []. simpl. now rewrite app_nil_r. Qed.

Lemma appends_out_of_fuel {A} : appends (@out_of_fuel A).
Proof. intro log. exists []. simpl. now rewrite app_nil_r. Qed.

Lemma appends_bind {A B} (c : M A) (f : A -> M B) :
  appends c -> (forall a, appends (f a)) -> appends (bind c f).
Proof.
  intros Hc Hf log. destruct (Hc log) as [l1 E1]. unfold bind.
  destruct (c log) as [[a|e|] log1]; simpl in E1; subst log1.
  - destruct (Hf a (log ++ l1)) as [l2 E2]. exists (l1 ++ l2).
    rewrite E2. now rewrite app_assoc.
  - exists l1. reflexivity.
  - exists l1. reflexivity.
Qed.

(** A call made by the first part of a computation stays in the log. *)
Lemma calls_bind {A B} (c : M A) (f : A -> M B) (log : list GurobiModel) (g : GurobiModel) :
  (exists rest, snd (c log) = log ++ g :: rest) ->
  (forall a, appends (f a)) ->
  exists rest, snd (bind c f log) = log ++ g :: rest.
Proof.
  intros [l1 E1] Hf. unfold bind.
  destruct (c log) as [[a|e|] log1]; simpl in E1; subst log1.
  - destruct (Hf a (log ++ g :: l1)) as [l2 E2]. exists (l1 ++ l2).
    rewrite E2. rewrite <- app_assoc. reflexivity.
  - exists l1. reflexivity.
  - exists l1. reflexivity.
Qed.

Lemma calls_after {A B} (c : M A) (f : A -> M B) (log : list GurobiModel)
    (g : GurobiModel) (a : A) :
  c log = (Ok a, log ++ [g]) -> appends (f a) ->
  exists rest, snd (bind c f log) = log ++ g :: rest.
Proof.
  intros E Hf. rewrite (bind_ok _ _ _ _ _ E).
  destruct (Hf (log ++ [g])) as [l E2]. exists l. rewrite E2.
  rewrite <- app_assoc. reflexivity.
Qed.

Create HintDb appends.

#[local] Hint Resolve appends_ret appends_lift appends_out_of_fuel : appends.

(** Splits a computation along its binds. *)
Ltac appends_step :=
  match goal with
  | |- appends (bind _ _) => apply appends_bind; [|intros]
  | |- appends (let '(_, _) := ?p in _) => destruct p
  | |- appends (match ?x with _ => _ end) => destruct x
  | |- appends (if ?c then _ else _) => destruct c
  | |- appends _ => solve [auto with appends]
  end.

Section Appends.

Variable oracle : GurobiModel -> Answer.
Variable round2 : Q -> Q.

Lemma appends_optimize (g : GurobiModel) : appends (optimize oracle g).
Proof. intro log. exists [g]. reflexivity. Qed.

Hint Resolve appends_optimize : appends.

Lemma appends_generate_node mk so oc cc ops lv names :
  appends (generate_node oracle round2 mk so oc cc ops lv names).
Proof. unfold generate_node. repeat appends_step. Qed.

Lemma appends_lp_relaxation so cc ops lv names :
  appends (lp_relaxation oracle so cc ops lv names).
Proof. unfold lp_relaxation. repeat appends_step. Qed.

Hint Resolve appends_generate_node appends_lp_relaxation : appends.

Lemma appends_generate_child_nodes model dv b ref :
  appends (generate_child_nodes oracle round2 model dv b ref).
Proof.
  unfold generate_child_nodes, generate_left_child_node, generate_right_child_node.
  repeat appends_step.
Qed.

Lemma appends_start model : appends (start oracle round2 model).
Proof. unfold start, generate_root_node. repeat appends_step. Qed.

Lemma appends_admit_child child ref st : appends (admit_child child ref st).
Proof. unfold admit_child. repeat appends_step. Qed.

Lemma appends_attach_child child cur ref tag st :
  appends (attach_child child cur ref tag st).
Proof. unfold attach_child. destruct st as [[? ?] ?]. repeat appends_step. Qed.

Hint Resolve appends_generate_child_nodes appends_start appends_admit_child
  appends_attach_child : appends.

Lemma appends_expand model entry rest visited :
  appends (expand oracle round2 model entry rest visited).
Proof. unfold expand. destruct entry. repeat appends_step. Qed.

Lemma appends_expand_tree model entry rest visited graph :
  appends (expand_tree oracle round2 model entry rest visited graph).
Proof. unfold expand_tree. destruct entry as [[? ?] ?]. repeat appends_step. Qed.

Hint Resolve appends_expand appends_expand_tree : appends.

Lemma appends_solve_loop fuel model node_list visited :
  appends (solve_loop oracle round2 fuel model node_list visited).
Proof.
  revert node_list visited. induction fuel as [|fuel IH]; intros node_list visited;
    destruct node_list as [|entry rest]; simpl; auto with appends.
  apply appends_bind; [auto with appends|]. intros [nl vis]. apply IH.
Qed.

Lemma appends_tree_loop fuel model node_list visited graph :
  appends (tree_loop oracle round2 fuel model node_list visited graph).
Proof.
  revert node_list visited graph.
  induction fuel as [|fuel IH]; intros node_list visited graph;
    destruct node_list as [|entry rest]; simpl; auto with appends.
  apply appends_bind; [auto with appends|]. intros [[nl vis] g]. apply IH.
Qed.

(** [lp_relaxation] whose two loops succeed makes one solver call. *)
Lemma lp_relaxation_run (so : string) (cc : list (list Z)) (ops : list string)
    (lv : list Z) (names : list string) (gv : list Var) (vd : dict Var)
    (cs : list Constr) (log : list GurobiModel) :
  add_vars relaxation_var names ([], []) = Ok (gv, vd) ->
  add_constrs vd names (zip3 cc ops lv) = Ok cs ->
  let g := mkGurobiModel "LP_Relaxation" gv (direction_of so)
             (flat_map (fun coeff_row => quicksum_zip vd coeff_row names) cc) cs in
  lp_relaxation oracle so cc ops lv names log
  = (Ok (relaxation_of vd (oracle g)), log ++ [g]).
Proof.
  intros V C g. unfold lp_relaxation, bind, lift, optimize.
  rewrite V, C. fold g. unfold relaxation_of.
  destruct (oracle g) as [[o X]|]; reflexivity.
Qed.

(** The first solver call of a run is the one of [lp_relaxation]. *)
Lemma start_first_call (model : Model) (c : Coefficients)
    (relaxation : pyobj) (g : GurobiModel) (log : list GurobiModel) :
  extract_coefficients model = Ok c ->
  lp_relaxation oracle (set_obj model) (constraint_coefficients c)
    (constraint_operators c) (constraint_last_values c) (binary_vars model) log
  = (Ok relaxation, log ++ [g]) ->
  exists rest, snd (start oracle round2 model log) = log ++ g :: rest.
Proof.
  intros E R. unfold start.
  rewrite (bind_ok _ _ log log c) by (unfold lift; now rewrite E).
  eapply calls_after; [exact R|].
  unfold generate_root_node. repeat appends_step.
Qed.

Lemma solve_first_call (fuel : nat) (model : Model) (c : Coefficients)
    (relaxation : pyobj) (g : GurobiModel) (log : list GurobiModel) :
  extract_coefficients model = Ok c ->
  lp_relaxation oracle (set_obj model) (constraint_coefficients c)
    (constraint_operators c) (constraint_last_values c) (binary_vars model) log
  = (Ok relaxation, log ++ [g]) ->
  exists rest,
    snd (solve_branch_and_bound oracle round2 fuel model log) = log ++ g :: rest.
Proof.
  intros E R. unfold solve_branch_and_bound.
  apply calls_bind; [eapply start_first_call; eassumption|].
  intros [root k]. apply appends_solve_loop.
Qed.

Lemma tree_first_call (fuel : nat) (model : Model) (c : Coefficients)
    (relaxation : pyobj) (g : GurobiModel) (log : list GurobiModel) :
  extract_coefficients model = Ok c ->
  lp_relaxation oracle (set_obj model) (constraint_coefficients c)
    (constraint_operators c) (constraint_last_values c) (binary_vars model) log
  = (Ok relaxation, log ++ [g]) ->
  exists rest,
    snd (create_branch_and_bound_tree oracle round2 fuel model log) = log ++ g :: rest.
Proof.
  intros E R. unfold create_branch_and_bound_tree.
  apply calls_bind; [eapply start_first_call; eassumption|].
  intros [root k]. apply appends_tree_loop.
Qed.

End Appends.

(** ** The builders *)

Lemma sense_of_known (operator : string) :
  known_operator operator -> exists s, sense_of operator = Ok s.
Proof.
  intros [-> | [-> | ->]]; eexists; reflexivity.
Qed.




(** The constraint loop succeeds when every operator it meets is known. *)
Lemma add_constrs_known (vars_dict : dict Var) (names : list string)
    (rows : list (list Z * string * Z)) :
  Forall (fun row => known_operator (snd (fst row))) rows ->
  exists cs, add_constrs vars_dict names rows = Ok cs.
Proof.
  induction 1 as [|[[r op] l] rows K _ IH]; simpl.
  - eexists; reflexivity.
  - cbn in K. destruct (sense_of_known op K) as [s ->]. simpl.
    destruct IH as [cs ->]. simpl. eexists; reflexivity.
Qed.


Lemma zip3_known {A C} (rows : list A) (ops : list string) (lasts : list C) :
  Forall known_operator ops ->
  Forall (fun row => known_operator (snd (fst row))) (zip3 rows ops lasts).
Proof.
  intro K. apply Forall_forall. intros [[r op] l] Hin. cbn.
  unfold zip3 in Hin. apply in_combine_l in Hin. apply in_combine_r in Hin.
  rewrite Forall_forall in K. auto.
Qed.


(** When the spec function [mk] never raises, the variable loop calls
    [addVar] once per name, in order, and stores each variable under its
    name. *)
Lemma add_vars_total (mk : string -> outcome Var) (f : string -> Var)
    (names : list string) (acc : list Var * dict Var) :
  (forall n, In n names -> mk n = Ok (f n)) ->
  add_vars mk names acc = Ok (fst acc ++ map f names, vars_dict_of f names (snd acc)).
Proof.
  revert acc. induction names as [|n names IH]; intros acc H; simpl.
  - rewrite app_nil_r. destruct acc. reflexivity.
  - rewrite (H n (or_introl eq_refl)). simpl.
    rewrite IH by (intros m Hm; apply H; right; exact Hm).
    cbn [fst snd]. rewrite <- app_assoc. reflexivity.
Qed.

(** An exception of [mk] on some name leaves the variable loop. *)
Lemma add_vars_raises (mk : string -> outcome Var) (names : list string)
    (acc : list Var * dict Var) (n : string) (e : exn) :
  In n names -> mk n = Raise e ->
  (forall m, mk m = Raise e \/ exists v, mk m = Ok v) ->
  add_vars mk names acc = Raise e.
Proof.
  revert acc. induction names as [|m names IH]; intros acc Hin R Out; [destruct Hin|].
  simpl. destruct (Out m) as [Em|[v Em]]; rewrite Em; [reflexivity|].
  simpl. destruct Hin as [->|Hin]; [congruence|]. apply IH; assumption.
Qed.

(** ** [vars_dict] *)

Lemma dict_get_set_same {V} (d : dict V) (k : string) (v : V) :
  dict_get (dict_set d k v) k = Some v.
Proof.
  induction d as [|[k' v'] d IH]; simpl.
  - now rewrite String.eqb_refl.
  - destruct (String.eqb k' k) eqn:E; simpl; rewrite E; [reflexivity|exact IH].
Qed.

Lemma dict_get_set_other {V} (d : dict V) (k k' : string) (v : V) :
  k <> k' -> dict_get (dict_set d k v) k' = dict_get d k'.
Proof.
  intro N. induction d as [|[k0 v0] d IH]; simpl.
  - destruct (String.eqb_spec k k'); [contradiction|reflexivity].
  - destruct (String.eqb_spec k0 k) as [->|N0]; simpl.
    + destruct (String.eqb_spec k k'); [contradiction|reflexivity].
    + destruct (String.eqb k0 k'); [reflexivity|exact IH].
Qed.

(** What a lookup in [vars_dict] gives after the variable loop. *)
Lemma vars_dict_of_get (f : string -> Var) (names : list string) (acc : dict Var)
    (n : string) :
  dict_get (vars_dict_of f names acc) n
  = if in_dec string_dec n names then Some (f n) else dict_get acc n.
Proof.
  revert acc. induction names as [|m names IH]; intro acc; [reflexivity|].
  change (vars_dict_of f (m :: names) acc)
    with (vars_dict_of f names (dict_set acc m (f m))).
  rewrite IH.
  destruct (in_dec string_dec n names) as [I|NI];
    destruct (in_dec string_dec n (m :: names)) as [I'|NI']; try reflexivity.
  - exfalso. apply NI'. now right.
  - destruct I' as [->|I']; [apply dict_get_set_same|contradiction].
  - apply dict_get_set_other. intros ->. apply NI'. now left.
Qed.

(** After the variable loop every name of the list is a key of
    [vars_dict], bound to the variable made for it. *)
Lemma add_vars_get (f : string -> Var) (names : list string) (n : string) :
  In n names -> dict_get (vars_dict_of f names []) n = Some (f n).
Proof.
  intro Hin. rewrite vars_dict_of_get.
  destruct (in_dec string_dec n names); [reflexivity|contradiction].
Qed.

(** So [quicksum] finds every variable: the sum has one term per pair of
    [zip(coeffs, names)]. *)
Lemma quicksum_zip_terms (f : string -> Var) (names : list string) (coeffs : list Z) :
  quicksum_zip (vars_dict_of f names []) coeffs names
  = map (fun '(coeff, n) => (coeff, f n)) (combine coeffs names).
Proof.
  unfold quicksum_zip.
  assert (H : forall l : list (Z * string),
             (forall c n, In (c, n) l -> In n names) ->
             flat_map (fun '(coeff, var_name) =>
                         match dict_get (vars_dict_of f names []) var_name with
                         | Some v => [(coeff, v)]
                         | None => []
                         end) l
             = map (fun '(coeff, n) => (coeff, f n)) l).
  { induction l as [|[c n] l IH]; intro Hl; [reflexivity|].
    simpl. rewrite (add_vars_get f names n) by (apply (Hl c); now left).
    simpl. f_equal. apply IH. intros c' n' Hin. apply (Hl c'). now right. }
  apply H. intros c n Hin. apply in_combine_r in Hin. exact Hin.
Qed.

Section Builders.

Variable oracle : GurobiModel -> Answer.
Variable round2 : Q -> Q.

(** A node generator whose two loops succeed makes exactly one solver call,
    on the model it has built, and returns the node read off the answer. *)
Lemma generate_node_run (mk : string -> outcome Var) (so : string) (oc : list Z)
    (cc : list (list Z)) (ops : list string) (lv : list Z) (names : list string)
    (gv : list Var) (vd : dict Var) (cs : list Constr) (log : list GurobiModel) :
  add_vars mk names ([], []) = Ok (gv, vd) ->
  add_constrs vd names (zip3 cc ops lv) = Ok cs ->
  let g := mkGurobiModel "Node_LP_Relaxation" gv (direction_of so)
             (quicksum_zip vd oc names) cs in
  generate_node oracle round2 mk so oc cc ops lv names log
  = (Ok (node_of round2 vd (oracle g)), log ++ [g]).
Proof.
  intros V C g. unfold generate_node, bind, lift, optimize, ret.
  rewrite V, C. reflexivity.
Qed.

(** A request all of whose variable specs are given by [f]: one solver
    call, on the model [request_of f ...]. *)
Lemma node_request (mk : string -> outcome Var) (f : string -> Var)
    (so : string) (oc : list Z) (cc : list (list Z)) (ops : list string) (lv : list Z)
    (names : list string) (log : list GurobiModel) :
  (forall n, mk n = Ok (f n)) ->
  Forall known_operator ops ->
  exists cs,
    add_constrs (vars_dict_of f names []) names (zip3 cc ops lv) = Ok cs /\
    let g := mkGurobiModel "Node_LP_Relaxation" (map f names) (direction_of so)
               (quicksum_zip (vars_dict_of f names []) oc names) cs in
    generate_node oracle round2 mk so oc cc ops lv names log
    = (Ok (node_of round2 (vars_dict_of f names []) (oracle g)), log ++ [g]).
Proof.
  intros Hmk K.
  pose proof (add_vars_total mk f names ([], []) (fun n _ => Hmk n)) as V.
  cbn [fst snd app] in V.
  destruct (add_constrs_known (vars_dict_of f names []) names (zip3 cc ops lv)
              (zip3_known cc ops lv K)) as [cs C].
  exists cs. split; [exact C|].
  apply (generate_node_run _ _ _ _ _ _ _ _ _ _ _ V C).
Qed.

(** A child request whose branch variable takes the spec [fixed]: one
    solver call, with the variables [child_vars fixed b names]. *)
Lemma child_request (mk : string -> outcome Var) (fixed : string -> Var) (b : string)
    (so : string) (oc : list Z) (cc : list (list Z)) (ops : list string) (lv : list Z)
    (names : list string) (log : list GurobiModel) :
  (forall n, mk n = Ok (if String.eqb n b then fixed n else mkVar 0 1 CONTINUOUS n)) ->
  Forall known_operator ops ->
  exists g vd,
    generate_node oracle round2 mk so oc cc ops lv names log
    = (Ok (node_of round2 vd (oracle g)), log ++ [g]) /\
    g_vars g = child_vars fixed b names.
Proof.
  intros Hmk K.
  destruct (node_request mk _ so oc cc ops lv names log Hmk K) as (cs & _ & R).
  eexists _, _. split; [exact R|reflexivity].
Qed.

End Builders.

(** The left builder on a parent value inside [0, 1] (or on no value). *)
Lemma left_var_in_range (b : string) (A : Assignment) (n : string) :
  match dict_get A b with
  | None => True
  | Some v => 0 <= v /\ v <= 1
  end ->
  left_var (Some b) (PyDict A) n
  = Ok (if String.eqb n b then mkVar 1 1 BINARY n else mkVar 0 1 CONTINUOUS n).
Proof.
  intro H. unfold left_var, is_branch.
  destruct (String.eqb_spec n b) as [->|]; [|reflexivity].
  cbn. destruct (dict_get A b) as [v|]; [|reflexivity].
  destruct H as [H0 H1]. apply Qle_bool_iff in H0, H1. rewrite H0, H1. reflexivity.
Qed.

(** The right builder on a parent value inside [0, 1] (or on no value). *)
Lemma right_var_in_range (b : string) (A : Assignment) (n : string) :
  match dict_get A b with
  | None => True
  | Some v => 0 <= v /\ v <= 1
  end ->
  right_var (Some b) (PyDict A) n
  = Ok (if String.eqb n b then mkVar 0 0 BINARY n else mkVar 0 1 CONTINUOUS n).
Proof.
  intro H. unfold right_var, is_branch.
  destruct (String.eqb_spec n b) as [->|]; [|reflexivity].
  cbn. destruct (dict_get A b) as [v|]; [|reflexivity].
  destruct H as [H0 H1]. apply Qle_bool_iff in H0, H1. rewrite H0, H1. reflexivity.
Qed.

(** C1.  What [generate_left_child_node] does when the parent value of the
    branch variable is 0: the guard [0 <= v <= 1] of line 211 already holds,
    so the request fixes the variable to 1 (bounds [1, 1], binary) and the
    branch of line 217 (bounds [0, 0]) is never reached.  Every other
    variable is continuous in [0, 1]. *)
Theorem left_child_of_zero_is_fixed_to_one
    (oracle : GurobiModel -> Answer) (round2 : Q -> Q) (model : Model) (oc : list Z)
    (cc : list (list Z)) (ops : list string) (lv : list Z) (names : list string)
    (b : string) (A : Assignment) (v : Q) (log : list GurobiModel) :
  dict_get A b = Some v -> v == 0 -> Forall known_operator ops ->
  exists g vd,
    generate_left_child_node oracle round2 model oc cc ops lv names (Some b) (PyDict A) log
    = (Ok (node_of round2 vd (oracle g)), log ++ [g]) /\
    g_vars g = child_vars (mkVar 1 1 BINARY) b names.
Proof.
  intros G Z0 K. unfold generate_left_child_node.
  apply child_request; [|exact K].
  intro n. apply left_var_in_range. rewrite G. lra.
Qed.

Lemma left_child_of_zero_is_fixed_to_one_witness :
  exists g vd,
    generate_left_child_node Examples.half_oracle Examples.no_rounding Examples.half_model
      [1; 1]%Z [[2; 2]]%Z ["<="] [3]%Z ["x1"; "x2"] (Some "x1")
      (PyDict [("x1", 0); ("x2", 1 # 2)]) []
    = (Ok (node_of Examples.no_rounding vd (Examples.half_oracle g)), [] ++ [g]) /\
    g_vars g = child_vars (mkVar 1 1 BINARY) "x1" ["x1"; "x2"].
Proof.
  apply (left_child_of_zero_is_fixed_to_one Examples.half_oracle Examples.no_rounding
           Examples.half_model [1; 1]%Z [[2; 2]]%Z ["<="] [3]%Z ["x1"; "x2"] "x1"
           [("x1", 0); ("x2", 1 # 2)] 0).
  - reflexivity.
  - reflexivity.
  - repeat constructor.
Defined.

(** C7.  What [generate_right_child_node] does when the parent value of the
    branch variable is 0 or 1: the guard [0 <= v <= 1] of line 278 already
    holds, so the request fixes the variable to 0 with bounds [0, 0] and
    binary type in both cases; the branches of lines 280 (continuous type)
    and 283 (bounds [1, 1]) are never reached. *)
Theorem right_child_of_zero_or_one_is_fixed_to_zero
    (oracle : GurobiModel -> Answer) (round2 : Q -> Q) (model : Model) (oc : list Z)
    (cc : list (list Z)) (ops : list string) (lv : list Z) (names : list string)
    (b : string) (A : Assignment) (v : Q) (log : list GurobiModel) :
  dict_get A b = Some v -> v == 0 \/ v == 1 -> Forall known_operator ops ->
  exists g vd,
    generate_right_child_node oracle round2 model oc cc ops lv names (Some b) (PyDict A) log
    = (Ok (node_of round2 vd (oracle g)), log ++ [g]) /\
    g_vars g = child_vars (mkVar 0 0 BINARY) b names.
Proof.
  intros G Z01 K. unfold generate_right_child_node.
  apply child_request; [|exact K].
  intro n. apply right_var_in_range. rewrite G. destruct Z01; lra.
Qed.

Lemma right_child_of_zero_or_one_is_fixed_to_zero_witness :
  exists g vd,
    generate_right_child_node Examples.half_oracle Examples.no_rounding Examples.half_model
      [1; 1]%Z [[2; 2]]%Z ["<="] [3]%Z ["x1"; "x2"] (Some "x1")
      (PyDict [("x1", 0); ("x2", 1 # 2)]) []
    = (Ok (node_of Examples.no_rounding vd (Examples.half_oracle g)), [] ++ [g]) /\
    g_vars g = child_vars (mkVar 0 0 BINARY) "x1" ["x1"; "x2"].
Proof.
  apply (right_child_of_zero_or_one_is_fixed_to_zero Examples.half_oracle
           Examples.no_rounding Examples.half_model [1; 1]%Z [[2; 2]]%Z ["<="] [3]%Z
           ["x1"; "x2"] "x1" [("x1", 0); ("x2", 1 # 2)] 0).
  - reflexivity.
  - left. reflexivity.
  - repeat constructor.
Defined.

(** ** The parts of the child policy the code does follow *)

(** X1.  A fractional or absent parent value: the left child fixes the
    branch variable to 1, the right child to 0, both binary-typed, and
    every other variable is continuous in [0, 1]. *)
Lemma children_of_fractional_or_absent
    (oracle : GurobiModel -> Answer) (round2 : Q -> Q) (model : Model) (oc : list Z)
    (cc : list (list Z)) (ops : list string) (lv : list Z) (names : list string)
    (b : string) (A : Assignment) (log : list GurobiModel) :
  match dict_get A b with
  | None => True
  | Some v => fractional v
  end ->
  Forall known_operator ops ->
  (exists g vd,
      generate_left_child_node oracle round2 model oc cc ops lv names (Some b) (PyDict A) log
      = (Ok (node_of round2 vd (oracle g)), log ++ [g]) /\
      g_vars g = child_vars (mkVar 1 1 BINARY) b names) /\
  (exists g vd,
      generate_right_child_node oracle round2 model oc cc ops lv names (Some b) (PyDict A) log
      = (Ok (node_of round2 vd (oracle g)), log ++ [g]) /\
      g_vars g = child_vars (mkVar 0 0 BINARY) b names).
Proof.
  intros F K.
  assert (R : match dict_get A b with None => True | Some v => 0 <= v /\ v <= 1 end).
  { destruct (dict_get A b) as [v|]; [|exact I]. destruct F. lra. }
  split.
  - unfold generate_left_child_node. apply child_request; [|exact K].
    intro n. apply left_var_in_range. exact R.
  - unfold generate_right_child_node. apply child_request; [|exact K].
    intro n. apply right_var_in_range. exact R.
Qed.

Lemma children_of_fractional_or_absent_witness :
  (exists g vd,
      generate_left_child_node Examples.half_oracle Examples.no_rounding
        Examples.half_model [1; 1]%Z [[2; 2]]%Z ["<="] [3]%Z ["x1"; "x2"] (Some "x1")
        (PyDict Examples.half_key) []
      = (Ok (node_of Examples.no_rounding vd (Examples.half_oracle g)), [] ++ [g]) /\
      g_vars g = child_vars (mkVar 1 1 BINARY) "x1" ["x1"; "x2"]) /\
  (exists g vd,
      generate_right_child_node Examples.half_oracle Examples.no_rounding
        Examples.half_model [1; 1]%Z [[2; 2]]%Z ["<="] [3]%Z ["x1"; "x2"] (Some "x1")
        (PyDict Examples.half_key) []
      = (Ok (node_of Examples.no_rounding vd (Examples.half_oracle g)), [] ++ [g]) /\
      g_vars g = child_vars (mkVar 0 0 BINARY) "x1" ["x1"; "x2"]).
Proof.
  apply (children_of_fractional_or_absent Examples.half_oracle Examples.no_rounding
           Examples.half_model [1; 1]%Z [[2; 2]]%Z ["<="] [3]%Z ["x1"; "x2"] "x1"
           Examples.half_key []).
  - cbn. split; reflexivity.
  - repeat constructor.
Defined.

(** X2.  A parent value outside [0, 1]: both builders raise [ValueError]
    in their variable loop, before any solver call. *)
Lemma children_of_out_of_range
    (oracle : GurobiModel -> Answer) (round2 : Q -> Q) (model : Model) (oc : list Z)
    (cc : list (list Z)) (ops : list string) (lv : list Z) (names : list string)
    (b : string) (A : Assignment) (v : Q) (log : list GurobiModel) :
  dict_get A b = Some v -> v < 0 \/ 1 < v -> In b names ->
  generate_left_child_node oracle round2 model oc cc ops lv names (Some b) (PyDict A) log
  = (Raise ValueError, log) /\
  generate_right_child_node oracle round2 model oc cc ops lv names (Some b) (PyDict A) log
  = (Raise ValueError, log).
Proof.
  intros G Out Hin.
  assert (C1 : Qle_bool 0 v && Qle_bool v 1 = false).
  { apply andb_false_iff. destruct Out as [O|O]; [left|right];
      (destruct (Qle_bool _ _) eqn:E; [apply Qle_bool_iff in E; lra|reflexivity]). }
  assert (C2 : Qeq_bool v 1 = false).
  { destruct (Qeq_bool v 1) eqn:E; [apply Qeq_bool_iff in E; lra|reflexivity]. }
  assert (C3 : Qeq_bool v 0 = false).
  { destruct (Qeq_bool v 0) eqn:E; [apply Qeq_bool_iff in E; lra|reflexivity]. }
  assert (L : left_var (Some b) (PyDict A) b = Raise ValueError).
  { unfold left_var, is_branch. rewrite String.eqb_refl. cbn. now rewrite G, C1, C2, C3. }
  assert (R : right_var (Some b) (PyDict A) b = Raise ValueError).
  { unfold right_var, is_branch. rewrite String.eqb_refl. cbn. now rewrite G, C1, C2, C3. }
  unfold generate_left_child_node, generate_right_child_node, generate_node.
  split; apply bind_raise; unfold lift.
  - rewrite (add_vars_raises _ names ([], []) b ValueError Hin L); [reflexivity|].
    intro m. destruct (String.eqb_spec m b) as [->|N]; [left; exact L|right].
    unfold left_var, is_branch.
    destruct (String.eqb_spec m b); [contradiction|]. eexists; reflexivity.
  - rewrite (add_vars_raises _ names ([], []) b ValueError Hin R); [reflexivity|].
    intro m. destruct (String.eqb_spec m b) as [->|N]; [left; exact R|right].
    unfold right_var, is_branch.
    destruct (String.eqb_spec m b); [contradiction|]. eexists; reflexivity.
Qed.

Lemma children_of_out_of_range_witness :
  generate_left_child_node Examples.half_oracle Examples.no_rounding Examples.half_model
    [1; 1]%Z [[2; 2]]%Z ["<="] [3]%Z ["x1"; "x2"] (Some "x1") (PyDict [("x1", 2)]) []
  = (Raise ValueError, []) /\
  generate_right_child_node Examples.half_oracle Examples.no_rounding Examples.half_model
    [1; 1]%Z [[2; 2]]%Z ["<="] [3]%Z ["x1"; "x2"] (Some "x1") (PyDict [("x1", 2)]) []
  = (Raise ValueError, []).
Proof.
  apply (children_of_out_of_range Examples.half_oracle Examples.no_rounding
           Examples.half_model [1; 1]%Z [[2; 2]]%Z ["<="] [3]%Z ["x1"; "x2"] "x1"
           [("x1", 2)] 2 []).
  - reflexivity.
  - right. reflexivity.
  - left. reflexivity.
Defined.

(** X5.  [all_binary_check] (which no driver calls) decides integrality. *)
Lemma all_binary_check_integral (A : Assignment) :
  all_binary_check A = true <-> integral A.
Proof.
  unfold all_binary_check, integral. rewrite forallb_forall, Forall_forall.
  split; intros H [n v] Hin; specialize (H (n, v) Hin); cbn in *.
  - apply orb_true_iff in H as [H|H]; apply Qeq_bool_iff in H; auto.
  - apply orb_true_iff. destruct H as [H|H]; apply Qeq_bool_iff in H; auto.
Qed.

(** ** Parsing the model *)

(** *** What the patterns find *)

Example parse_scenario :
  extract_coefficients Examples.scenario_model
  = Ok (mkCoefficients [5; 4]%Z [[6; 4]; [1; 2]]%Z ["<="; "<="] [24; 6]%Z).
Proof. reflexivity. Qed.

(** Blanks may separate a coefficient from its [*]; a digit run that is
    not followed by [*] is no coefficient; the right-hand side is the last
    digit run. *)
Example parse_blanks :
  extract_constraint "12 *x1 + 3x2 >= 7 "
  = Ok ([12]%Z, ">=", 7%Z).
Proof. reflexivity. Qed.

Example parse_without_operator :
  extract_constraint "1*x1 + 1*x2 5" = Raise IndexError.
Proof. reflexivity. Qed.

Lemma first_outcome {A} (xs : list A) :
  (exists x, Re.first xs = Ok x) \/ Re.first xs = Raise IndexError.
Proof. destruct xs; [right|left; eexists]; reflexivity. Qed.

Lemma span_spec (p : ascii -> bool) (s : list ascii) :
  s = fst (Re.span p s) ++ snd (Re.span p s) /\
  Forall (fun c => p c = true) (fst (Re.span p s)).
Proof.
  induction s as [|c s [IH1 IH2]]; simpl; [split; [reflexivity|constructor]|].
  destruct (p c) eqn:E; [|split; [reflexivity|constructor]].
  destruct (Re.span p s) as [a b]. simpl in *. split; [now f_equal|].
  constructor; assumption.
Qed.

Lemma span_app (p : ascii -> bool) (a b : list ascii) :
  Forall (fun c => p c = true) a ->
  match b with [] => True | c :: _ => p c = false end ->
  Re.span p (a ++ b) = (a, b).
Proof.
  intros Ha Hb. induction Ha as [|c a Hc _ IH]; simpl.
  - destruct b as [|c b]; [reflexivity|]. simpl. now rewrite Hb.
  - rewrite Hc, IH. reflexivity.
Qed.

Lemma space_is_no_digit (c : ascii) : Re.is_space c = true -> Re.is_digit c = false.
Proof.
  unfold Re.is_space, Re.is_digit. generalize (nat_of_ascii c). intros n H.
  apply orb_true_iff in H. apply andb_false_iff.
  destruct H as [H|H]; apply andb_true_iff in H as [H1 H2];
    apply Nat.leb_le in H1, H2; left; apply Nat.leb_gt; lia.
Qed.

(** [findall] returns nothing exactly when the pattern matches at no
    position of the text. *)
Lemma findall_from_nil (m : Re.matcher) (s : list ascii) :
  forall fuel, (List.length s < fuel)%nat ->
    (Re.findall_from fuel m s = [] <-> forall pre t, s = pre ++ t -> m t = None).
Proof.
  induction s as [|c s IH]; intros [|fuel] L; try (simpl in L; lia); simpl.
  - split.
    + intros H pre t E. symmetry in E. apply app_eq_nil in E as [_ ->].
      destruct (m []) as [[g r]|]; [discriminate|reflexivity].
    + intro H. now rewrite (H [] [] eq_refl).
  - split.
    + intros H pre t E.
      destruct (m (c :: s)) as [[g r]|] eqn:Em; [discriminate|].
      destruct pre as [|c' pre]; simpl in E.
      * now subst t.
      * injection E as <- E. apply (proj1 (IH fuel ltac:(simpl in L; lia)) H pre t E).
    + intro H. rewrite (H [] (c :: s) eq_refl).
      apply (IH fuel ltac:(simpl in L; lia)).
      intros pre t E. apply (H (c :: pre) t). simpl. now f_equal.
Qed.

(** No operator is found exactly when the text has none of [<], [>],
    [=]. *)
Lemma no_operator_found (constraint : string) :
  Re.findall Re.match_op constraint = [] <->
  forall c, In c (list_ascii_of_string constraint) -> Re.is_opchar c = false.
Proof.
  unfold Re.findall. rewrite findall_from_nil by lia. split.
  - intros H c Hin. apply in_split in Hin as (pre & post & E).
    specialize (H pre (c :: post) E). unfold Re.match_op in H. simpl in H.
    destruct (Re.is_opchar c); [|reflexivity].
    destruct (Re.span Re.is_opchar post); discriminate.
  - intros H pre t E. unfold Re.match_op. destruct t as [|c t]; [reflexivity|].
    simpl. rewrite (H c); [reflexivity|]. rewrite E. apply in_or_app. right. now left.
Qed.

(** No right-hand side is found exactly when the text does not end in a
    number. *)
Lemma no_right_hand_side_found (constraint : string) :
  Re.findall Re.match_rhs constraint = [] <->
  ~ ends_in_number (list_ascii_of_string constraint).
Proof.
  unfold Re.findall. rewrite findall_from_nil by lia. split.
  - intros H (pre & ds & sp & E & Hne & Hd & Hs).
    specialize (H pre (ds ++ sp) E). unfold Re.match_rhs in H.
    rewrite (span_app Re.is_digit ds sp Hd) in H.
    + destruct ds as [|d ds]; [contradiction|].
      pose proof (span_app Re.is_space sp [] Hs I) as Sp. rewrite app_nil_r in Sp.
      rewrite Sp in H. discriminate.
    + destruct sp as [|c sp]; [exact I|]. apply space_is_no_digit.
      now inversion Hs.
  - intros N pre t E. unfold Re.match_rhs.
    destruct (span_spec Re.is_digit t) as [Et Hd].
    destruct (Re.span Re.is_digit t) as [ds r1]. simpl in Et, Hd.
    destruct ds as [|d ds]; [reflexivity|].
    destruct (span_spec Re.is_space r1) as [Er Hs].
    destruct (Re.span Re.is_space r1) as [sp r2]. simpl in Er, Hs.
    destruct r2 as [|c r2]; [|reflexivity].
    exfalso. apply N. exists pre, (d :: ds), sp. rewrite app_nil_r in Er.
    repeat split; try assumption; [congruence|discriminate].
Qed.

(** *** Numbers that [int] converts *)

Lemma int_outcome (ds : list ascii) :
  Re.int ds = Ok (Re.value ds) \/ Re.int ds = Raise ValueError.
Proof. unfold Re.int. destruct (_ <=? _)%nat; auto. Qed.

Lemma int_fits (ds : list ascii) :
  (List.length ds <= Re.max_str_digits)%nat -> Re.int ds = Ok (Re.value ds).
Proof.
  intro H. unfold Re.int. apply Nat.leb_le in H. now rewrite H.
Qed.

Lemma ints_outcome (gs : list (list ascii)) :
  Re.ints gs = Ok (map Re.value gs) \/ Re.ints gs = Raise ValueError.
Proof.
  induction gs as [|g gs IH]; cbn [Re.ints map]; [now left|].
  destruct (int_outcome g) as [-> | ->]; cbn [obind]; [|now right].
  destruct IH as [-> | ->]; cbn [obind]; auto.
Qed.

Lemma ints_ok (gs : list (list ascii)) (zs : list Z) :
  Re.ints gs = Ok zs -> zs = map Re.value gs.
Proof.
  intro H. destruct (ints_outcome gs) as [E|E]; rewrite E in H;
    [now injection H|discriminate H].
Qed.

Lemma ints_fit (gs : list (list ascii)) :
  Forall (fun g => (List.length g <= Re.max_str_digits)%nat) gs ->
  Re.ints gs = Ok (map Re.value gs).
Proof.
  induction 1 as [|g gs Hg _ IH]; cbn [Re.ints map]; [reflexivity|].
  now rewrite (int_fits g Hg), IH.
Qed.

(** The digits a pattern captures are a run of digits of the text. *)
Lemma span_digit_run (s : list ascii) :
  List.length (fst (Re.span Re.is_digit s)) = digit_run s.
Proof.
  induction s as [|c s IH]; cbn [Re.span digit_run]; [reflexivity|].
  destruct (Re.is_digit c); [|reflexivity].
  destruct (Re.span Re.is_digit s). cbn [fst List.length] in *. now rewrite IH.
Qed.

Lemma digit_run_longest (s : list ascii) : (digit_run s <= longest_digit_run s)%nat.
Proof. destruct s; cbn [longest_digit_run]; [reflexivity|apply Nat.le_max_l]. Qed.

Lemma longest_digit_run_suffix (a s : list ascii) :
  (longest_digit_run s <= longest_digit_run (a ++ s))%nat.
Proof.
  induction a as [|c a IH]; [reflexivity|]. cbn [app longest_digit_run].
  etransitivity; [exact IH|apply Nat.le_max_r].
Qed.

Lemma match_coeff_fit (t g r : list ascii) :
  Re.match_coeff t = Some (g, r) ->
  List.length g = digit_run t /\ exists a, t = a ++ r.
Proof.
  unfold Re.match_coeff. pose proof (span_digit_run t) as L.
  destruct (span_spec Re.is_digit t) as [E1 _].
  destruct (Re.span Re.is_digit t) as [ds r1]. cbn [fst snd] in *.
  destruct ds as [|d ds]; [discriminate|].
  destruct (span_spec Re.is_space r1) as [E2 _].
  destruct (Re.span Re.is_space r1) as [sp r2]. cbn [fst snd] in *.
  destruct r2 as [|c r3]; [discriminate|]. destruct (Ascii.eqb c "*"); [|discriminate].
  intro H. injection H as <- <-. split; [exact L|].
  exists ((d :: ds) ++ sp ++ [c]). rewrite E1 at 1. rewrite E2 at 1.
  now rewrite <- !app_assoc.
Qed.

Lemma match_rhs_fit (t g r : list ascii) :
  Re.match_rhs t = Some (g, r) ->
  List.length g = digit_run t /\ exists a, t = a ++ r.
Proof.
  unfold Re.match_rhs. pose proof (span_digit_run t) as L.
  destruct (Re.span Re.is_digit t) as [ds r1]. cbn [fst snd] in *.
  destruct ds as [|d ds]; [discriminate|].
  destruct (Re.span Re.is_space r1) as [sp r2].
  destruct r2 as [|c r3]; [|discriminate].
  intro H. injection H as <- <-. split; [exact L|].
  exists t. now rewrite app_nil_r.
Qed.

Lemma findall_from_fit (m : Re.matcher) :
  (forall t g r, m t = Some (g, r) ->
                 List.length g = digit_run t /\ exists a, t = a ++ r) ->
  forall (N fuel : nat) (s : list ascii),
    (longest_digit_run s <= N)%nat ->
    Forall (fun g => (List.length g <= N)%nat) (Re.findall_from fuel m s).
Proof.
  intros Hm N. induction fuel as [|fuel IH]; intros s L; cbn [Re.findall_from];
    [constructor|].
  destruct (m s) as [[g r]|] eqn:E.
  - destruct (Hm s g r E) as [Lg [a Ea]]. constructor.
    + rewrite Lg. etransitivity; [apply digit_run_longest|exact L].
    + apply IH. etransitivity; [apply (longest_digit_run_suffix a r)|].
      now rewrite <- Ea.
  - destruct s as [|c s]; [constructor|]. apply IH.
    etransitivity; [apply (longest_digit_run_suffix [c] s)|exact L].
Qed.

(** When the numbers of a text fit, its coefficients are converted. *)
Lemma coefficients_fit (s : string) :
  numbers_fit s = true ->
  Re.ints (Re.findall Re.match_coeff s) = Ok (map Re.value (Re.findall Re.match_coeff s)).
Proof.
  intro H. apply ints_fit. unfold Re.findall.
  apply (findall_from_fit Re.match_coeff match_coeff_fit).
  now apply Nat.leb_le.
Qed.

Lemma right_hand_side_fits (s : string) (g : list ascii) (gs : list (list ascii)) :
  numbers_fit s = true ->
  Re.findall Re.match_rhs s = g :: gs ->
  Re.int g = Ok (Re.value g).
Proof.
  intros H E. apply int_fits.
  pose proof (findall_from_fit Re.match_rhs match_rhs_fit Re.max_str_digits
                (S (List.length (list_ascii_of_string s))) (list_ascii_of_string s)
                (proj1 (Nat.leb_le _ _) H)) as F.
  unfold Re.findall in E. rewrite E in F. now apply Forall_inv in F.
Qed.




(** When its numbers fit, only [IndexError] is left. *)
Lemma extract_constraint_fit_outcome (constraint : string) :
  numbers_fit constraint = true ->
  (exists row op last, extract_constraint constraint = Ok (row, op, last)) \/
  extract_constraint constraint = Raise IndexError.
Proof.
  intro Fit. unfold extract_constraint.
  rewrite (coefficients_fit constraint Fit). cbn [obind].
  destruct (first_outcome (Re.findall Re.match_op constraint)) as [[o ->]| ->];
    cbn [obind]; [|now right].
  destruct (Re.findall Re.match_rhs constraint) as [|l ls] eqn:El;
    cbn [Re.first obind]; [now right|].
  rewrite (right_hand_side_fits constraint l ls Fit El). cbn [obind].
  left. do 3 eexists. reflexivity.
Qed.

(** The three lists of a parsed model have one entry per constraint, and
    the operator of every constraint is in the operator list. *)
Lemma extract_constraints_ok (cs : list string) rows ops lasts :
  extract_constraints cs = Ok (rows, ops, lasts) ->
  List.length rows = List.length ops /\ List.length lasts = List.length ops /\
  forall constraint, In constraint cs ->
    exists row op last,
      extract_constraint constraint = Ok (row, op, last) /\ In op ops.
Proof.
  revert rows ops lasts. induction cs as [|c cs IH]; intros rows ops lasts H; simpl in H.
  - injection H as <- <- <-. repeat split. intros ? [].
  - destruct (extract_constraint c) as [[[row op] last]|e|] eqn:Ec; try discriminate.
    simpl in H.
    destruct (extract_constraints cs) as [[[rows' ops'] lasts']|e|] eqn:Ecs;
      try discriminate.
    simpl in H. injection H as <- <- <-.
    destruct (IH _ _ _ eq_refl) as (L1 & L2 & Hall).
    simpl. repeat split; try congruence.
    intros constraint [<-|Hin].
    + exists row, op, last. split; [assumption|now left].
    + destruct (Hall constraint Hin) as (r & o & l & E & I).
      exists r, o, l. split; [assumption|now right].
Qed.


Lemma extract_constraints_fit_outcome (cs : list string) :
  Forall (fun constraint => numbers_fit constraint = true) cs ->
  (exists r, extract_constraints cs = Ok r) \/
  extract_constraints cs = Raise IndexError.
Proof.
  induction 1 as [|c cs Hc _ IH]; cbn [extract_constraints].
  - left. eexists; reflexivity.
  - destruct (extract_constraint_fit_outcome c Hc) as [(row & op & last & ->)| ->];
      [|now right].
    cbn [obind]. destruct IH as [[[[rows ops] lasts] ->]| ->]; cbn [obind].
    + left. eexists; reflexivity.
    + now right.
Qed.


Lemma extract_coefficients_fit_outcome (model : Model) :
  numbers_fit_model model ->
  (exists c, extract_coefficients model = Ok c) \/
  extract_coefficients model = Raise IndexError.
Proof.
  intros [Fo Fc]. unfold extract_coefficients.
  rewrite (coefficients_fit (obj_f model) Fo). cbn [obind].
  destruct (extract_constraints_fit_outcome (constraints model) Fc)
    as [[[[rows ops] lasts] ->]| ->]; cbn [obind].
  - left. eexists; reflexivity.
  - now right.
Qed.


Section ModelErrors.

Variable oracle : GurobiModel -> Answer.
Variable round2 : Q -> Q.



End ModelErrors.




(** ** The pre-root relaxation *)

(** The request [lp_relaxation] hands to the solver for a parsed model with
    known operators: every variable continuous in [0, 1], the model's
    direction, and as objective the sum of [coeff * var] over the rows it
    was given -- which the drivers fill with the constraint rows. *)
Lemma pre_root_request (oracle : GurobiModel -> Answer) (round2 : Q -> Q) (fuel : nat)
    (model : Model) (c : Coefficients) (log : list GurobiModel) :
  extract_coefficients model = Ok c ->
  Forall known_operator (constraint_operators c) ->
  let names := binary_vars model in
  let vd := vars_dict_of relaxed names [] in
  exists g rest rest',
    snd (solve_branch_and_bound oracle round2 fuel model log) = log ++ g :: rest /\
    snd (create_branch_and_bound_tree oracle round2 fuel model log) = log ++ g :: rest' /\
    g_name g = "LP_Relaxation" /\
    g_vars g = map relaxed names /\
    g_direction g = direction_of (set_obj model) /\
    g_objective g
    = flat_map (fun row => map (fun '(coeff, n) => (coeff, relaxed n)) (combine row names))
        (constraint_coefficients c).
Proof.
  intros E K names vd.
  pose proof (add_vars_total relaxation_var relaxed names ([], [])
                (fun n _ => eq_refl)) as V.
  cbn [fst snd app] in V.
  destruct (add_constrs_known vd names
              (zip3 (constraint_coefficients c) (constraint_operators c)
                 (constraint_last_values c))
              (zip3_known _ _ _ K)) as [cs C].
  pose proof (lp_relaxation_run oracle (set_obj model) _ _ _ names _ _ cs log V C) as R.
  cbv zeta in R.
  destruct (solve_first_call oracle round2 fuel model c _ _ log E R) as [rest S].
  destruct (tree_first_call oracle round2 fuel model c _ _ log E R) as [rest' T].
  eexists _, rest, rest'.
  split; [exact S|]. split; [exact T|]. repeat split.
  cbn [g_objective]. apply flat_map_ext. intro row. apply quicksum_zip_terms.
Qed.

(** C4.  The pre-root LP of the specification's scenario (objective
    5 x1 + 4 x2): whatever the solver answers, the first model handed to
    it has both variables continuous in [0, 1], and its objective is
    6 x1 + 4 x2 + 1 x1 + 2 x2, the sum of the two constraint rows; the
    objective coefficients [5; 4] are not part of it. *)
Theorem pre_root_objective_sums_the_constraint_rows :
  forall (oracle : GurobiModel -> Answer) (round2 : Q -> Q) (fuel : nat),
    extract_coefficients Examples.scenario_model
    = Ok (mkCoefficients [5; 4]%Z [[6; 4]; [1; 2]]%Z ["<="; "<="] [24; 6]%Z) /\
    exists g rest,
      snd (solve_branch_and_bound oracle round2 fuel Examples.scenario_model [])
      = g :: rest /\
      g_name g = "LP_Relaxation" /\
      g_vars g = [relaxed "x1"; relaxed "x2"] /\
      g_direction g = MAXIMIZE /\
      g_objective g
      = [(6, relaxed "x1"); (4, relaxed "x2"); (1, relaxed "x1"); (2, relaxed "x2")]%Z.
Proof.
  intros oracle round2 fuel. split; [reflexivity|].
  destruct (pre_root_request oracle round2 fuel Examples.scenario_model _ []
              eq_refl) as (g & rest & _ & S & _ & N & V & D & O).
  { repeat constructor. }
  exists g, rest. repeat split; assumption.
Qed.

(** ** Infeasible answers *)

(** C3.  What the drivers do with an infeasible answer.  The node
    generators turn it into a node whose [decision_vars] is the string
    ["infeasible"]; the admission steps then call [.items()] on that
    string, so admitting an infeasible child raises [AttributeError] in
    both modes, for every state of the search.  On [infeasible_root_model]
    the root is infeasible and both drivers raise; on
    [infeasible_child_model] the left child of the root is infeasible and
    both drivers raise. *)
Theorem infeasible_answer_raises_attribute_error :
  (forall round2 vd ref st log,
      admit_child (node_of round2 vd None) ref st log = (Raise AttributeError, log)) /\
  (forall round2 vd cur ref tag st log,
      attach_child (node_of round2 vd None) cur ref tag st log
      = (Raise AttributeError, log)) /\
  fst (solve_branch_and_bound Examples.infeasible_root_oracle Examples.no_rounding 10
         Examples.infeasible_root_model []) = Raise AttributeError /\
  fst (create_branch_and_bound_tree Examples.infeasible_root_oracle Examples.no_rounding 10
         Examples.infeasible_root_model []) = Raise AttributeError /\
  fst (solve_branch_and_bound Examples.infeasible_child_oracle Examples.no_rounding 10
         Examples.infeasible_child_model []) = Raise AttributeError /\
  fst (create_branch_and_bound_tree Examples.infeasible_child_oracle Examples.no_rounding 10
         Examples.infeasible_child_model []) = Raise AttributeError.
Proof.
  split; [reflexivity|].
  split; [intros round2 vd cur ref tag [[nl vis] g] log; reflexivity|].
  repeat split; vm_compute; reflexivity.
Qed.

(** ** One round of the loop *)

(** The admission steps make no solver call. *)
Lemma admit_child_log child ref st log : snd (admit_child child ref st log) = log.
Proof.
  unfold admit_child, bind, lift.
  destruct (items (decision_vars child)); try reflexivity.
  destruct (negb _); reflexivity.
Qed.

Lemma attach_child_log child cur ref tag st log :
  snd (attach_child child cur ref tag st log) = log.
Proof.
  destruct st as [[nl vis] g]. unfold attach_child, bind, lift.
  destruct (items (decision_vars child)); try reflexivity.
  destruct (items cur); try reflexivity.
  destruct (negb _); reflexivity.
Qed.

Lemma silent_bind {A B} (c : M A) (f : A -> M B) (log : list GurobiModel) :
  snd (c log) = log -> (forall a, snd (f a log) = log) -> snd (bind c f log) = log.
Proof.
  intros Hc Hf. unfold bind. destruct (c log) as [[a|e|] l]; simpl in Hc; subst l.
  - apply Hf.
  - reflexivity.
  - reflexivity.
Qed.

Section Rounds.

Variable oracle : GurobiModel -> Answer.
Variable round2 : Q -> Q.

(** Without a branch variable both children come from one and the same
    request: every variable continuous in [0, 1]. *)
Lemma children_without_branch_variable (model : Model) (c : Coefficients)
    (dv : Assignment) (ref : pyobj) (log : list GurobiModel) :
  extract_coefficients model = Ok c ->
  Forall known_operator (constraint_operators c) ->
  exists g child,
    generate_child_nodes oracle round2 model dv None ref log
    = (Ok (child, child), log ++ [g; g]) /\
    g_vars g = map relaxed (dict_keys dv).
Proof.
  intros E K. unfold generate_child_nodes.
  rewrite (bind_ok _ _ log log c) by (unfold lift; now rewrite E).
  unfold generate_left_child_node, generate_right_child_node.
  destruct (node_request oracle round2 (left_var None ref) relaxed (set_obj model)
              (objective_coefficients c) (constraint_coefficients c)
              (constraint_operators c) (constraint_last_values c) (dict_keys dv) log
              (fun n => eq_refl) K) as (cs & C & L).
  destruct (node_request oracle round2 (right_var None ref) relaxed (set_obj model)
              (objective_coefficients c) (constraint_coefficients c)
              (constraint_operators c) (constraint_last_values c) (dict_keys dv)
              (log ++ [mkGurobiModel "Node_LP_Relaxation" (map relaxed (dict_keys dv))
                         (direction_of (set_obj model))
                         (quicksum_zip (vars_dict_of relaxed (dict_keys dv) [])
                            (objective_coefficients c) (dict_keys dv)) cs])
              (fun n => eq_refl) K) as (cs' & C' & R).
  assert (cs' = cs) by congruence. subst cs'.
  cbv zeta in L, R.
  rewrite (bind_ok _ _ _ _ _ L). rewrite (bind_ok _ _ _ _ _ R).
  eexists _, _. split.
  - unfold ret. rewrite <- app_assoc. reflexivity.
  - reflexivity.
Qed.

End Rounds.

(** C2, the defect.  [find_next_branch_var] returns [None] for an
    integral assignment, but neither driver looks at the result before it
    calls [generate_child_nodes] ([all_binary_check] is called nowhere).
    So a popped node whose assignment gives no branch variable is expanded
    like any other: in both modes the round makes two solver calls, each
    on the request in which every variable of the node's assignment is
    continuous in [0, 1]. *)
Theorem integral_node_is_expanded
    (oracle : GurobiModel -> Answer) (round2 : Q -> Q) (model : Model) (c : Coefficients)
    (node : Node) (A : Assignment) (ref : pyobj) (log : list GurobiModel) :
  decision_vars node = PyDict A ->
  find_next_branch_var (decision_vars node) = Ok None ->
  extract_coefficients model = Ok c ->
  Forall known_operator (constraint_operators c) ->
  exists g,
    g_vars g = map relaxed (dict_keys A) /\
    (forall rest visited,
        snd (expand oracle round2 model (node, ref) rest visited log) = log ++ [g; g]) /\
    (forall tag rest visited graph,
        snd (expand_tree oracle round2 model (node, ref, tag) rest visited graph log)
        = log ++ [g; g]).
Proof.
  intros D B E K.
  destruct (children_without_branch_variable oracle round2 model c A ref log E K)
    as (g & child & G & V).
  exists g. split; [exact V|]. split.
  - intros rest visited. unfold expand.
    rewrite (bind_ok _ _ log log None) by (unfold lift; now rewrite B).
    rewrite (bind_ok _ _ log log A) by (unfold lift; now rewrite D).
    rewrite (bind_ok _ _ _ _ _ G).
    apply silent_bind; [apply admit_child_log|intros; apply admit_child_log].
  - intros tag rest visited graph. unfold expand_tree.
    rewrite (bind_ok _ _ log log None) by (unfold lift; now rewrite B).
    rewrite (bind_ok _ _ log log A) by (unfold lift; now rewrite D).
    rewrite (bind_ok _ _ _ _ _ G).
    apply silent_bind; [apply attach_child_log|intros; apply attach_child_log].
Qed.

Lemma integral_node_is_expanded_witness :
  exists g,
    g_vars g = map relaxed (dict_keys [("x1", 0); ("x2", 0)]) /\
    (forall rest visited,
        snd (expand Examples.zero_oracle Examples.no_rounding Examples.zero_model
               (mkNode (ObjValue 0) (PyDict [("x1", 0); ("x2", 0)]),
                PyDict [("x1", 0); ("x2", 0)]) rest visited [])
        = [] ++ [g; g]) /\
    (forall tag rest visited graph,
        snd (expand_tree Examples.zero_oracle Examples.no_rounding Examples.zero_model
               (mkNode (ObjValue 0) (PyDict [("x1", 0); ("x2", 0)]),
                PyDict [("x1", 0); ("x2", 0)], tag) rest visited graph [])
        = [] ++ [g; g]).
Proof.
  apply (integral_node_is_expanded Examples.zero_oracle Examples.no_rounding
           Examples.zero_model
           (mkCoefficients [1; 1]%Z [[1; 1]%Z] ["<="] [0]%Z)
           (mkNode (ObjValue 0) (PyDict [("x1", 0); ("x2", 0)]))
           [("x1", 0); ("x2", 0)] (PyDict [("x1", 0); ("x2", 0)]) []).
  - reflexivity.
  - reflexivity.
  - reflexivity.
  - repeat constructor.
Defined.

(** C2, a failing run.  On [zero_model] the root's assignment is
    x1 = 0, x2 = 0: [find_next_branch_var] returns [None] for it, and yet
    the round that pops the root makes two solver calls, so that the whole
    run makes four (the relaxation, the root and the root's two
    children). *)
Lemma integral_root_is_expanded :
  exists root,
    fst (start Examples.zero_oracle Examples.no_rounding Examples.zero_model [])
    = Ok (root, [("x1", 0); ("x2", 0)]) /\
    integral [("x1", 0); ("x2", 0)] /\
    find_next_branch_var (decision_vars root) = Ok None /\
    List.length
      (snd (expand Examples.zero_oracle Examples.no_rounding Examples.zero_model
              (root, decision_vars root) [] [[("x1", 0); ("x2", 0)]] [])) = 2%nat /\
    List.length
      (snd (solve_branch_and_bound Examples.zero_oracle Examples.no_rounding 10
              Examples.zero_model [])) = 4%nat.
Proof.
  eexists. split; [vm_compute; reflexivity|].
  split; [repeat constructor; left; reflexivity|].
  repeat split; reflexivity.
Qed.

(** ** Keys and the graph *)

Lemma key_eqb_refl (k : Key) : key_eqb k k = true.
Proof.
  induction k as [|[n v] k IH]; simpl; [reflexivity|].
  rewrite String.eqb_refl, Qeq_bool_refl, IH. reflexivity.
Qed.

Lemma key_mem_app (k : Key) (s t : list Key) :
  key_mem k (s ++ t) = key_mem k s || key_mem k t.
Proof. unfold key_mem. apply existsb_app. Qed.

Lemma key_mem_last (k : Key) (s : list Key) : key_mem k (s ++ [k]) = true.
Proof.
  rewrite key_mem_app. simpl. rewrite key_eqb_refl. apply orb_true_iff. right. reflexivity.
Qed.

Lemma key_mem_grows (k k' : Key) (s : list Key) :
  key_mem k s = true -> key_mem k (s ++ [k']) = true.
Proof. intro H. rewrite key_mem_app, H. reflexivity. Qed.

(** A key that is in no element's class is in none of the listed ones. *)
Lemma key_mem_false (k : Key) (s : list Key) (k' : Key) :
  key_mem k s = false -> In k' s -> key_eqb k k' = false.
Proof.
  unfold key_mem. intros H Hin.
  destruct (key_eqb k k') eqn:E; [|reflexivity].
  assert (existsb (key_eqb k) s = true) by (apply existsb_exists; eauto).
  congruence.
Qed.

Lemma set_attr_keys (ns : list (Key * option objective)) (k : Key) (o : objective) :
  map fst (set_attr ns k o) = map fst ns.
Proof.
  induction ns as [|[k' a] ns IH]; simpl; [reflexivity|].
  destruct (key_eqb k k'); simpl; [reflexivity|]. now rewrite IH.
Qed.

(** [add_node] keeps the node keys when the key is known and puts the key
    last when it is new. *)
Lemma add_node_keys (g : DiGraph) (k : Key) (o : objective) :
  map fst (nodes (add_node g k o))
  = if has_node g k then map fst (nodes g) else map fst (nodes g) ++ [k].
Proof.
  unfold add_node. destruct (has_node g k); simpl.
  - apply set_attr_keys.
  - rewrite map_app. reflexivity.
Qed.

Lemma add_node_edges (g : DiGraph) (k : Key) (o : objective) :
  edges (add_node g k o) = edges g.
Proof. unfold add_node. destruct (has_node g k); reflexivity. Qed.

Lemma has_node_add_node (g : DiGraph) (k : Key) (o : objective) :
  has_node (add_node g k o) k = true.
Proof.
  unfold has_node at 1. rewrite add_node_keys.
  destruct (has_node g k) eqn:H; [exact H|]. apply key_mem_last.
Qed.

Lemma touch_node_known (g : DiGraph) (k : Key) : has_node g k = true -> touch_node g k = g.
Proof. intro H. unfold touch_node. now rewrite H. Qed.

(** [add_edge] between two known nodes leaves the nodes alone. *)
Lemma add_edge_nodes (g : DiGraph) (u v : Key) :
  has_node g u = true -> has_node g v = true -> nodes (add_edge g u v) = nodes g.
Proof.
  intros Hu Hv. unfold add_edge.
  rewrite (touch_node_known g u Hu), (touch_node_known g v Hv).
  destruct (has_edge g u v); reflexivity.
Qed.

Lemma in_degree_app (ns : list (Key * option objective)) (es es' : list (Key * Key))
    (k : Key) :
  in_degree (mkDiGraph ns (es ++ es')) k
  = (in_degree (mkDiGraph ns es) k + in_degree (mkDiGraph ns es') k)%nat.
Proof. unfold in_degree. simpl. rewrite filter_app, length_app. reflexivity. Qed.

(** [add_edge] between two known nodes removes no edge. *)
Lemma add_edge_in_degree_grows (g : DiGraph) (u v k : Key) :
  has_node g u = true -> has_node g v = true ->
  (in_degree g k <= in_degree (add_edge g u v) k)%nat.
Proof.
  intros Hu Hv. unfold add_edge.
  rewrite (touch_node_known g u Hu), (touch_node_known g v Hv).
  destruct (has_edge g u v); [lia|].
  rewrite in_degree_app. destruct g. simpl. unfold in_degree at 1 2. simpl. lia.
Qed.

(** After [add_edge g u v] an edge ends in [v]. *)
Lemma add_edge_in_degree_target (g : DiGraph) (u v : Key) :
  has_node g u = true -> has_node g v = true ->
  (1 <= in_degree (add_edge g u v) v)%nat.
Proof.
  intros Hu Hv. unfold add_edge.
  rewrite (touch_node_known g u Hu), (touch_node_known g v Hv).
  destruct (has_edge g u v) eqn:E.
  - unfold has_edge in E. apply existsb_exists in E as (e & Hin & Ee).
    unfold edge_eqb in Ee. apply andb_true_iff in Ee as [_ Ev]. simpl in Ev.
    unfold in_degree.
    assert (Hf : In e (filter (fun e0 => key_eqb v (snd e0)) (edges g)))
      by (apply filter_In; split; assumption).
    destruct (filter (fun e0 => key_eqb v (snd e0)) (edges g)); [destruct Hf|simpl; lia].
  - rewrite in_degree_app. unfold in_degree at 2. simpl. rewrite key_eqb_refl. simpl. lia.
Qed.

(** Recording a produced child -- [add_node] for the child, then
    [add_edge] from a known parent key -- keeps the shape of the graph:
    the node keys gain the child's key when it is new, the root stays
    first, and every node but the root keeps an incoming edge. *)
Lemma record_child (g : DiGraph) (rk pk k : Key) (o : objective) :
  root_ok g rk -> has_node g pk = true ->
  let g' := add_edge (add_node g k o) pk k in
  map fst (nodes g') = (if has_node g k then map fst (nodes g) else map fst (nodes g) ++ [k])
  /\ root_ok g' rk.
Proof.
  intros (rest & Hk & Hrest) Hpk g'.
  assert (Hpk' : has_node (add_node g k o) pk = true).
  { unfold has_node. rewrite add_node_keys. fold (has_node g k).
    destruct (has_node g k); [exact Hpk|]. apply key_mem_grows. exact Hpk. }
  pose proof (has_node_add_node g k o) as Hkk.
  assert (Hn : nodes g' = nodes (add_node g k o)) by (apply add_edge_nodes; assumption).
  assert (Hdeg : forall k', (in_degree g k' <= in_degree g' k')%nat).
  { intro k'. subst g'.
    etransitivity; [|apply add_edge_in_degree_grows; assumption].
    unfold in_degree. rewrite add_node_edges. lia. }
  split.
  - rewrite Hn. apply add_node_keys.
  - unfold root_ok. rewrite Hn, add_node_keys.
    destruct (has_node g k) eqn:Hgk.
    + exists rest. split; [exact Hk|]. intros k' Hin.
      destruct (Hrest k' Hin) as [Hne Hd]. split; [exact Hne|].
      specialize (Hdeg k'). lia.
    + exists (rest ++ [k]). split; [rewrite Hk; reflexivity|].
      intros k' Hin. apply in_app_or in Hin as [Hin|[<-|[]]].
      * destruct (Hrest k' Hin) as [Hne Hd]. split; [exact Hne|].
        specialize (Hdeg k'). lia.
      * split.
        -- apply (key_mem_false k (map fst (nodes g))); [exact Hgk|].
           rewrite Hk. now left.
        -- subst g'. apply add_edge_in_degree_target; assumption.
Qed.

(** ** Flat mode and tree mode, round by round *)

Lemma agree_refl {A} (x : outcome A * list GurobiModel) : agree eq x x.
Proof. split; [reflexivity|]. destruct (fst x); auto. Qed.

Lemma agree_bind {A B A' B'} (R : A -> B -> Prop) (R' : A' -> B' -> Prop)
    (c1 : M A) (c2 : M B) (f1 : A -> M A') (f2 : B -> M B') (log : list GurobiModel) :
  agree R (c1 log) (c2 log) ->
  (forall a b log', R a b -> agree R' (f1 a log') (f2 b log')) ->
  agree R' (bind c1 f1 log) (bind c2 f2 log).
Proof.
  intros [Hl Hr] Hf. unfold bind.
  destruct (c1 log) as [[a|e|] l1], (c2 log) as [[b|e'|] l2];
    simpl in Hl, Hr; subst; try contradiction.
  - apply Hf. exact Hr.
  - split; reflexivity.
  - split; [reflexivity|exact I].
Qed.

Lemma agree_impl {A B} (R R' : A -> B -> Prop)
    (x : outcome A * list GurobiModel) (y : outcome B * list GurobiModel) :
  agree R x y -> (forall a b, R a b -> R' a b) -> agree R' x y.
Proof.
  intros [Hl Hr] Himp. split; [exact Hl|].
  destruct (fst x), (fst y); auto.
Qed.

Lemma items_dict (o : pyobj) (k : Assignment) : items o = Ok k -> o = PyDict k.
Proof. destruct o; simpl; congruence. Qed.

(** Admission of one child: flat mode queues and marks, tree mode first
    records node and edge; both end in the same state, and nothing leaves
    the visited set. *)
Lemma attach_child_agrees (rk : Key) (child : Node) (pk : Key) (ref : pyobj) (tag : string)
    (tl : list TEntry) (visited : list Key) (g : DiGraph) (log : list GurobiModel) :
  tree_inv tl visited g rk ->
  key_mem pk visited = true ->
  ref = PyDict pk \/ ref = decision_vars child ->
  agree (fun fs ts => sim rk fs ts /\
                      forall k, key_mem k visited = true -> key_mem k (snd fs) = true)
    (admit_child child ref (map strip tl, visited) log)
    (attach_child child (PyDict pk) ref tag (tl, visited, g) log).
Proof.
  intros [Refs Nodes Root] Hpk Href.
  unfold admit_child, attach_child, bind, lift, ret.
  destruct (items (decision_vars child)) as [k|e|] eqn:Ek;
    [|split; reflexivity|split; [reflexivity|exact I]].
  cbn [items fst snd].
  assert (Hgpk : has_node g pk = true) by (rewrite Nodes; exact Hpk).
  destruct (record_child g rk pk k (optimal_objective child) Root Hgpk) as [Keys Root'].
  cbv zeta in Keys, Root'.
  set (g' := add_edge (add_node g k (optimal_objective child)) pk k) in *.
  destruct (key_mem k visited) eqn:Hk; cbn [negb].
  - (* a known key: nothing is queued *)
    split; [reflexivity|]. cbn [fst snd]. split; [|trivial].
    split; [reflexivity|]. split; [reflexivity|]. cbn [fst snd].
    constructor; [exact Refs| |exact Root'].
    intro k'. unfold has_node. rewrite Keys, Nodes, Hk. apply Nodes.
  - (* a new key: queued, marked *)
    split; [reflexivity|]. cbn [fst snd]. split.
    + split; [cbn [fst snd]; rewrite map_app; reflexivity|].
      split; [reflexivity|]. cbn [fst snd].
      constructor.
      * intros n r t Hin. apply in_app_or in Hin as [Hin|[E|[]]].
        -- destruct (Refs n r t Hin) as (p & -> & Hp).
           exists p. split; [reflexivity|]. apply key_mem_grows. exact Hp.
        -- injection E as <- <- <-. destruct Href as [->| ->].
           ++ exists pk. split; [reflexivity|]. apply key_mem_grows. exact Hpk.
           ++ exists k. split; [apply items_dict; exact Ek|]. apply key_mem_last.
      * intro k'. unfold has_node. rewrite Keys, Nodes, Hk.
        rewrite !key_mem_app. fold (has_node g k'). rewrite Nodes. reflexivity.
      * exact Root'.
    + intros k' Hk'. apply key_mem_grows. exact Hk'.
Qed.

Section Simulation.

Variable oracle : GurobiModel -> Answer.
Variable round2 : Q -> Q.

(** One round of the two loops. *)
Lemma expand_agrees (rk : Key) (model : Model) (n : Node) (r : pyobj) (t : string)
    (rest : list TEntry) (visited : list Key) (g : DiGraph) (log : list GurobiModel) :
  tree_inv ((n, r, t) :: rest) visited g rk ->
  agree (sim rk)
    (expand oracle round2 model (n, r) (map strip rest) visited log)
    (expand_tree oracle round2 model (n, r, t) rest visited g log).
Proof.
  intros Inv.
  destruct (inv_refs _ _ _ _ Inv n r t (or_introl eq_refl)) as (pk & -> & Hpk).
  assert (Inv' : tree_inv rest visited g rk).
  { destruct Inv as [Refs Nodes Root]. constructor; [|exact Nodes|exact Root].
    intros n' r' t' Hin. apply (Refs n' r' t'). right. exact Hin. }
  unfold expand, expand_tree.
  eapply agree_bind; [apply agree_refl|]. intros b ? log1 <-.
  eapply agree_bind; [apply agree_refl|]. intros dv ? log2 <-.
  eapply agree_bind; [apply agree_refl|]. intros [left right] ? log3 <-.
  eapply agree_bind.
  - apply (attach_child_agrees rk left pk (PyDict pk) "left" rest visited g log3 Inv' Hpk).
    left. reflexivity.
  - intros [fl vis] [[tl vis'] g'] log4 [(Hfl & Hvis & Inv1) Mono].
    cbn [fst snd] in *. subst fl vis'.
    eapply agree_impl.
    + exact (attach_child_agrees rk right pk (decision_vars right) "right"
               tl vis g' log4 Inv1 (Mono pk Hpk) (or_intror eq_refl)).
    + intros fs ts [H _]. exact H.
Qed.

(** The two loops, for every amount of fuel. *)
Lemma loops_agree (rk : Key) (model : Model) (fuel : nat) :
  forall (tl : list TEntry) (visited : list Key) (g : DiGraph) (log : list GurobiModel),
    tree_inv tl visited g rk ->
    agree (same_nodes rk)
      (solve_loop oracle round2 fuel model (map strip tl) visited log)
      (tree_loop oracle round2 fuel model tl visited g log).
Proof.
  induction fuel as [|fuel IH]; intros tl visited g log Inv;
    destruct tl as [|[[n r] t] rest]; simpl.
  - split; [reflexivity|]. simpl. split; [apply Inv|apply Inv].
  - split; [reflexivity|exact I].
  - split; [reflexivity|]. simpl. split; [apply Inv|apply Inv].
  - eapply agree_bind; [exact (expand_agrees rk model n r t rest visited g log Inv)|].
    intros [fl vis] [[tl' vis'] g'] log' (Hfl & Hvis & Inv1).
    cbn [fst snd] in *. subst fl vis'. apply IH. exact Inv1.
Qed.

(** The root reported by [start] carries the key reported with it. *)
Lemma start_root (model : Model) (log log' : list GurobiModel) (root : Node) (k : Key) :
  start oracle round2 model log = (Ok (root, k), log') -> decision_vars root = PyDict k.
Proof.
  unfold start, bind, lift, ret. intro H.
  repeat match type of H with
         | (match ?x with _ => _ end) = _ => destruct x eqn:?; try discriminate H
         | (let '(_, _) := ?x in _) = _ => destruct x eqn:?
         end.
  injection H as <- <- _. apply items_dict. assumption.
Qed.

(** The state both drivers enter their loop with. *)
Lemma initial_state (root : Node) (k : Key) :
  decision_vars root = PyDict k ->
  tree_inv [(root, decision_vars root, "root")] [k]
    (add_node empty_graph k (optimal_objective root)) k.
Proof.
  intro D. constructor.
  - intros n r t [E|[]]. injection E as <- <- <-. exists k. split; [exact D|].
    apply (key_mem_last k []).
  - intro k'. reflexivity.
  - exists []. split; [reflexivity|]. intros k' [].
Qed.

(** Both drivers, for every amount of fuel: the same solver calls, the
    same exception or both out of fuel, or a visited set and a graph with
    the same keys, the root's key first. *)
Lemma drivers_agree (fuel : nat) (model : Model) (log : list GurobiModel) :
  agree (fun visited g =>
           exists root rk l0,
             start oracle round2 model log = (Ok (root, rk), l0) /\
             same_nodes rk visited g)
    (solve_branch_and_bound oracle round2 fuel model log)
    (create_branch_and_bound_tree oracle round2 fuel model log).
Proof.
  unfold solve_branch_and_bound, create_branch_and_bound_tree, bind.
  destruct (start oracle round2 model log) as [[[root k]|e|] l0] eqn:S.
  - pose proof (start_root model log l0 root k S) as D.
    eapply agree_impl.
    + exact (loops_agree k model fuel _ _ _ l0 (initial_state root k D)).
    + intros visited g H. exists root, k, l0. split; [reflexivity|exact H].
  - split; reflexivity.
  - split; [reflexivity|exact I].
Qed.

End Simulation.

(** ** Fuel *)

Section Fuel.

Variable oracle : GurobiModel -> Answer.
Variable round2 : Q -> Q.

(** A loop that ends (returns or raises) within some fuel ends the same
    way with any larger fuel: the fuel only decides whether the model of
    the loop is cut short. *)
Lemma solve_loop_more_fuel (model : Model) (fuel : nat) :
  forall fuel' node_list visited log,
    (fuel <= fuel')%nat ->
    fst (solve_loop oracle round2 fuel model node_list visited log) <> OutOfFuel ->
    solve_loop oracle round2 fuel' model node_list visited log
    = solve_loop oracle round2 fuel model node_list visited log.
Proof.
  induction fuel as [|fuel IH]; intros fuel' node_list visited log L N;
    destruct node_list as [|entry rest]; try (destruct fuel'; reflexivity).
  - exfalso. apply N. reflexivity.
  - destruct fuel' as [|fuel']; [lia|]. simpl in *. unfold bind in *.
    destruct (expand oracle round2 model entry rest visited log) as [[[nl vis]|e|] l];
      try reflexivity.
    apply IH; [lia|exact N].
Qed.

Lemma tree_loop_more_fuel (model : Model) (fuel : nat) :
  forall fuel' node_list visited g log,
    (fuel <= fuel')%nat ->
    fst (tree_loop oracle round2 fuel model node_list visited g log) <> OutOfFuel ->
    tree_loop oracle round2 fuel' model node_list visited g log
    = tree_loop oracle round2 fuel model node_list visited g log.
Proof.
  induction fuel as [|fuel IH]; intros fuel' node_list visited g log L N;
    destruct node_list as [|entry rest]; try (destruct fuel'; reflexivity).
  - exfalso. apply N. reflexivity.
  - destruct fuel' as [|fuel']; [lia|]. simpl in *. unfold bind in *.
    destruct (expand_tree oracle round2 model entry rest visited g log)
      as [[[[nl vis] g']|e|] l]; try reflexivity.
    apply IH; [lia|exact N].
Qed.

(** X3.  The drivers: once flat mode ends (returns or raises) within some
    fuel, more fuel changes nothing, in either mode. *)
Lemma drivers_more_fuel (model : Model) (fuel fuel' : nat) (log : list GurobiModel) :
  (fuel <= fuel')%nat ->
  fst (solve_branch_and_bound oracle round2 fuel model log) <> OutOfFuel ->
  solve_branch_and_bound oracle round2 fuel' model log
  = solve_branch_and_bound oracle round2 fuel model log /\
  create_branch_and_bound_tree oracle round2 fuel' model log
  = create_branch_and_bound_tree oracle round2 fuel model log.
Proof.
  intros L N.
  assert (N' : fst (create_branch_and_bound_tree oracle round2 fuel model log)
               <> OutOfFuel).
  { destruct (drivers_agree oracle round2 fuel model log) as [_ Hr]. intro E.
    rewrite E in Hr.
    destruct (fst (solve_branch_and_bound oracle round2 fuel model log));
      [contradiction|contradiction|apply N; reflexivity]. }
  revert N N'. unfold solve_branch_and_bound, create_branch_and_bound_tree, bind.
  destruct (start oracle round2 model log) as [[[root k]|e|] l0]; intros N N';
    split; try reflexivity.
  - apply solve_loop_more_fuel; assumption.
  - apply tree_loop_more_fuel; assumption.
Qed.

End Fuel.

Lemma drivers_more_fuel_witness :
  solve_branch_and_bound Examples.half_oracle Examples.no_rounding 11 Examples.half_model []
  = solve_branch_and_bound Examples.half_oracle Examples.no_rounding 10
      Examples.half_model [] /\
  create_branch_and_bound_tree Examples.half_oracle Examples.no_rounding 11
    Examples.half_model []
  = create_branch_and_bound_tree Examples.half_oracle Examples.no_rounding 10
      Examples.half_model [].
Proof.
  apply (drivers_more_fuel Examples.half_oracle Examples.no_rounding Examples.half_model
           10 11 []).
  - repeat constructor.
  - vm_compute. discriminate.
Defined.

(** ** The two modes compared *)

(** C8.  For one model, one solver and one amount of fuel, flat mode and
    tree mode make the same solver calls in the same order and end the
    same way: both raise the same exception, or both run out of fuel, or
    both return -- and then a key is a node of the graph exactly when it is
    in the visited set. *)
Theorem flat_and_tree_mode_visit_the_same_keys
    (oracle : GurobiModel -> Answer) (round2 : Q -> Q) (fuel : nat) (model : Model)
    (log : list GurobiModel) :
  snd (solve_branch_and_bound oracle round2 fuel model log)
  = snd (create_branch_and_bound_tree oracle round2 fuel model log) /\
  match fst (solve_branch_and_bound oracle round2 fuel model log),
        fst (create_branch_and_bound_tree oracle round2 fuel model log) with
  | Ok visited, Ok g => forall k, has_node g k = key_mem k visited
  | Raise e, Raise e' => e = e'
  | OutOfFuel, OutOfFuel => True
  | _, _ => False
  end.
Proof.
  destruct (drivers_agree oracle round2 fuel model log) as [Hl Hr].
  split; [exact Hl|].
  destruct (fst (solve_branch_and_bound oracle round2 fuel model log)),
           (fst (create_branch_and_bound_tree oracle round2 fuel model log)); auto.
  destruct Hr as (root & rk & l0 & _ & Hn & _). exact Hn.
Qed.

(** Both modes return on [half_model]: four keys after ten solver calls. *)
Example both_modes_return_on_half_model :
  exists visited g log,
    solve_branch_and_bound Examples.half_oracle Examples.no_rounding 10
      Examples.half_model [] = (Ok visited, log) /\
    create_branch_and_bound_tree Examples.half_oracle Examples.no_rounding 10
      Examples.half_model [] = (Ok g, log) /\
    List.length visited = 4%nat /\ List.length (nodes g) = 4%nat /\
    List.length log = 10%nat.
Proof.
  do 3 eexists. split; [vm_compute; reflexivity|].
  split; [vm_compute; reflexivity|]. repeat split.
Qed.

(** ** Reference assignments *)



(** ** The search tree *)

(** C10, as the code has it.  In every graph tree mode returns, the first
    node is the root (its key is the one [start] reports), no other node
    has the root's key, and every other node has at least one incoming
    edge.  Nothing is said about the edges into the root: a child with the
    root's key adds one. *)
Theorem every_node_but_the_root_has_an_incoming_edge
    (oracle : GurobiModel -> Answer) (round2 : Q -> Q) (fuel : nat) (model : Model)
    (log log' : list GurobiModel) (g : DiGraph) :
  create_branch_and_bound_tree oracle round2 fuel model log = (Ok g, log') ->
  exists root rk l0 rest,
    start oracle round2 model log = (Ok (root, rk), l0) /\
    map fst (nodes g) = rk :: rest /\
    forall k, In k rest -> key_eqb k rk = false /\ (1 <= in_degree g k)%nat.
Proof.
  intro T. destruct (drivers_agree oracle round2 fuel model log) as [_ Hr].
  rewrite T in Hr. cbn [fst] in Hr.
  destruct (fst (solve_branch_and_bound oracle round2 fuel model log)); try contradiction.
  destruct Hr as (root & rk & l0 & S & _ & rest & Hk & Hrest).
  exists root, rk, l0, rest. auto.
Qed.

Lemma every_node_but_the_root_has_an_incoming_edge_witness :
  exists g log',
    create_branch_and_bound_tree Examples.half_oracle Examples.no_rounding 10
      Examples.half_model [] = (Ok g, log') /\
    List.length (nodes g) = 4%nat /\
    exists root rk l0 rest,
      start Examples.half_oracle Examples.no_rounding Examples.half_model []
      = (Ok (root, rk), l0) /\
      map fst (nodes g) = rk :: rest /\
      forall k, In k rest -> key_eqb k rk = false /\ (1 <= in_degree g k)%nat.
Proof.
  eexists _, _. split; [vm_compute; reflexivity|]. split; [reflexivity|].
  eapply (every_node_but_the_root_has_an_incoming_edge Examples.half_oracle
           Examples.no_rounding 10 Examples.half_model [] _ _).
  vm_compute. reflexivity.
Defined.

(** C10, counterexample.  On [zero_model] the root's assignment is
    x1 = 0, x2 = 0 and both children of the root have the same assignment:
    the graph tree mode returns has the root as its only node and the edge
    root -> root, so the root has one incoming edge, not none. *)
Lemma root_has_an_incoming_edge :
  exists g log,
    create_branch_and_bound_tree Examples.zero_oracle Examples.no_rounding 10
      Examples.zero_model [] = (Ok g, log) /\
    map fst (nodes g) = [[("x1", 0); ("x2", 0)]] /\
    edges g = [([("x1", 0); ("x2", 0)], [("x1", 0); ("x2", 0)])] /\
    in_degree g [("x1", 0); ("x2", 0)] = 1%nat.
Proof.
  eexists _, _. split; [vm_compute; reflexivity|]. repeat split.
Qed.

(** The same on [half_model]: the round that pops the root's left child
    still uses the root's assignment as its reference, so the child
    (1/2, 1) it produces is recorded with an edge root -> root. *)
Example half_model_root_gets_an_edge :
  exists g log,
    create_branch_and_bound_tree Examples.half_oracle Examples.no_rounding 10
      Examples.half_model [] = (Ok g, log) /\
    hd_error (map fst (nodes g)) = Some Examples.half_key /\
    has_edge g Examples.half_key Examples.half_key = true /\
    in_degree g Examples.half_key = 1%nat.
Proof.
  eexists _, _. split; [vm_compute; reflexivity|]. repeat split.
Qed.

(** ** Completed runs *)

Section Runs.

Variable oracle : GurobiModel -> Answer.
Variable round2 : Q -> Q.

(** A node generator that returns has run both loops and made one solver
    call. *)
Lemma generate_node_inv mk so oc cc ops lv names log node log' :
  generate_node oracle round2 mk so oc cc ops lv names log = (Ok node, log') ->
  exists gv vd cs,
    add_vars mk names ([], []) = Ok (gv, vd) /\
    add_constrs vd names (zip3 cc ops lv) = Ok cs /\
    log' = log ++ [mkGurobiModel "Node_LP_Relaxation" gv (direction_of so)
                     (quicksum_zip vd oc names) cs] /\
    node = node_of round2 vd
             (oracle (mkGurobiModel "Node_LP_Relaxation" gv (direction_of so)
                        (quicksum_zip vd oc names) cs)).
Proof.
  unfold generate_node, bind, lift, optimize, ret. intro H.
  destruct (add_vars mk names ([], [])) as [[gv vd]|e|] eqn:V; try discriminate H.
  destruct (add_constrs vd names (zip3 cc ops lv)) as [cs|e|] eqn:C; try discriminate H.
  injection H as <- <-. exists gv, vd, cs. auto.
Qed.

(** Child generation that returns has parsed the model and made two
    solver calls. *)
Lemma generate_child_nodes_inv model dv b ref log left right log' :
  generate_child_nodes oracle round2 model dv b ref log = (Ok (left, right), log') ->
  exists c gl gr vl vr,
    extract_coefficients model = Ok c /\
    log' = log ++ [gl; gr] /\
    left = node_of round2 vl (oracle gl) /\
    right = node_of round2 vr (oracle gr) /\
    add_vars (left_var b ref) (dict_keys dv) ([], []) = Ok (g_vars gl, vl) /\
    add_vars (right_var b ref) (dict_keys dv) ([], []) = Ok (g_vars gr, vr).
Proof.
  unfold generate_child_nodes, generate_left_child_node, generate_right_child_node.
  unfold bind at 1. unfold lift at 1. intro H.
  destruct (extract_coefficients model) as [c|e|] eqn:E; try discriminate H.
  unfold bind at 1 in H.
  match type of H with
  | context [generate_node ?o ?r ?mk ?so ?oc ?cc ?ops ?lv ?names log] =>
      destruct (generate_node o r mk so oc cc ops lv names log) as [[l|e|] log1] eqn:L;
        try discriminate H
  end.
  unfold bind at 1 in H.
  match type of H with
  | context [generate_node ?o ?r ?mk ?so ?oc ?cc ?ops ?lv ?names log1] =>
      destruct (generate_node o r mk so oc cc ops lv names log1) as [[r'|e|] log2] eqn:R;
        try discriminate H
  end.
  unfold ret in H. injection H as <- <- <-.
  apply generate_node_inv in L as (gvl & vl & csl & Vl & _ & -> & ->).
  apply generate_node_inv in R as (gvr & vr & csr & Vr & _ & -> & ->).
  eexists c, _, _, vl, vr. split; [reflexivity|]. split.
  - rewrite <- app_assoc. reflexivity.
  - repeat split; assumption.
Qed.

(** What a round of flat mode that completes has done. *)
Lemma expand_inv model node ref rest visited log nl' vis' log' :
  expand oracle round2 model (node, ref) rest visited log = (Ok (nl', vis'), log') ->
  exists A left right lk rk,
    decision_vars node = PyDict A /\
    generate_child_nodes oracle round2 model A (select_branch_variable A) ref log
    = (Ok (left, right), log') /\
    decision_vars left = PyDict lk /\ decision_vars right = PyDict rk /\
    let vis1 := if key_mem lk visited then visited else visited ++ [lk] in
    nl' = (rest ++ (if key_mem lk visited then [] else [(left, ref)]))
          ++ (if key_mem rk vis1 then [] else [(right, PyDict rk)]) /\
    vis' = if key_mem rk vis1 then vis1 else vis1 ++ [rk].
Proof.
  intro H. unfold expand, bind, lift in H.
  destruct (decision_vars node) as [A| |] eqn:DA; try discriminate H.
  cbn [find_next_branch_var items obind] in H.
  destruct (generate_child_nodes oracle round2 model A (select_branch_variable A) ref log)
    as [[[left right]|e|] log1] eqn:G; try discriminate H.
  unfold admit_child, bind, lift, ret in H.
  destruct (decision_vars left) as [lk| |] eqn:DL; try discriminate H.
  cbn [items fst snd] in H.
  destruct (key_mem lk visited) eqn:Kl; cbn [negb fst snd] in H;
    destruct (decision_vars right) as [rk| |] eqn:DR; try discriminate H;
    cbn [items fst snd] in H;
    match type of H with
    | context [key_mem rk ?s] => destruct (key_mem rk s) eqn:Kr
    end; cbn [negb] in H; injection H as <- <- <-;
    exists A, left, right, lk, rk; cbv zeta; repeat split; try assumption;
    rewrite ?Kl; cbv iota; rewrite ?Kr; cbv iota; rewrite ?app_nil_r; reflexivity.
Qed.

(** What holds before every round and is kept by every completed round
    holds when the loop returns. *)
Lemma solve_loop_rule (I : list Entry -> list Key -> list GurobiModel -> Prop)
    (model : Model) :
  (forall entry rest visited log nl' vis' log',
      I (entry :: rest) visited log ->
      expand oracle round2 model entry rest visited log = (Ok (nl', vis'), log') ->
      I nl' vis' log') ->
  forall fuel node_list visited log v log',
    I node_list visited log ->
    solve_loop oracle round2 fuel model node_list visited log = (Ok v, log') ->
    I [] v log'.
Proof.
  intros Step. induction fuel as [|fuel IH]; intros nl visited log v log' Inv H;
    destruct nl as [|entry rest]; simpl in H.
  - injection H as <- <-. exact Inv.
  - discriminate H.
  - injection H as <- <-. exact Inv.
  - unfold bind in H.
    destruct (expand oracle round2 model entry rest visited log) as [[[nl1 vis1]|e|] log1]
      eqn:E; try discriminate H.
    apply (IH nl1 vis1 log1 v log'); [|exact H].
    apply (Step entry rest visited log); assumption.
Qed.

(** What [start] has done when it returns: parsed the model, solved the
    relaxation and the root (two solver calls), and read the root's key. *)
Lemma start_inv model log root k log' :
  start oracle round2 model log = (Ok (root, k), log') ->
  exists c relaxation b g0 g1,
    extract_coefficients model = Ok c /\
    lp_relaxation oracle (set_obj model) (constraint_coefficients c)
      (constraint_operators c) (constraint_last_values c) (binary_vars model) log
    = (Ok relaxation, log ++ [g0]) /\
    find_next_branch_var relaxation = Ok b /\
    generate_root_node oracle round2 (set_obj model) (objective_coefficients c)
      (constraint_coefficients c) (constraint_operators c) (constraint_last_values c)
      (binary_vars model) b (log ++ [g0])
    = (Ok root, log') /\
    log' = log ++ [g0; g1] /\
    decision_vars root = PyDict k.
Proof.
  unfold start. unfold bind at 1. unfold lift at 1. intro H.
  destruct (extract_coefficients model) as [c|e|] eqn:E; try discriminate H.
  unfold bind at 1 in H.
  destruct (lp_relaxation oracle (set_obj model) (constraint_coefficients c)
              (constraint_operators c) (constraint_last_values c) (binary_vars model) log)
    as [[relaxation|e|] log1] eqn:R; try discriminate H.
  unfold bind at 1 in H. unfold lift at 1 in H.
  destruct (find_next_branch_var relaxation) as [b|e|] eqn:B; try discriminate H.
  unfold bind at 1 in H.
  destruct (generate_root_node oracle round2 (set_obj model) (objective_coefficients c)
              (constraint_coefficients c) (constraint_operators c)
              (constraint_last_values c) (binary_vars model) b log1)
    as [[root'|e|] log2] eqn:G; try discriminate H.
  unfold bind, lift, ret in H.
  destruct (items (decision_vars root')) as [k'|e|] eqn:It; try discriminate H.
  injection H as <- <- <-.
  assert (exists g0, log1 = log ++ [g0]) as [g0 ->].
  { revert R. unfold lp_relaxation, bind, lift, optimize, ret.
    destruct (add_vars relaxation_var (binary_vars model) ([], [])) as [[gv vd]|e|];
      try discriminate.
    destruct (add_constrs vd (binary_vars model) _) as [cs|e|]; try discriminate.
    match goal with |- context [oracle ?g] => destruct (oracle g) as [[o X]|] end;
      intro R; injection R as _ <-; eexists; reflexivity. }
  pose proof G as G'. unfold generate_root_node in G'.
  apply generate_node_inv in G' as (gv & vd & cs & _ & _ & -> & _).
  eexists c, relaxation, b, g0, _. split; [reflexivity|]. split; [exact R|].
  split; [exact B|]. split; [exact G|]. split.
  - rewrite <- app_assoc. reflexivity.
  - apply items_dict. exact It.
Qed.

End Runs.

(** ** What flat mode returns *)

Lemma key_eqb_sym (a b : Key) : key_eqb a b = key_eqb b a.
Proof.
  revert b. induction a as [|[n v] a IH]; intros [|[n' v'] b]; simpl; try reflexivity.
  rewrite (String.eqb_sym n n'), (Qeq_bool_comm v v'), (IH b). reflexivity.
Qed.

Lemma distinct_keys_snoc (s : list Key) (k : Key) :
  distinct_keys s -> key_mem k s = false -> distinct_keys (s ++ [k]).
Proof.
  unfold distinct_keys. intros D M. induction D as [|a s Ha D IH]; simpl.
  - constructor; constructor.
  - simpl in M. apply orb_false_iff in M as [Mk Ms]. constructor.
    + apply Forall_app. split; [exact Ha|].
      constructor; [|constructor]. rewrite key_eqb_sym. exact Mk.
    + apply IH. exact Ms.
Qed.

(** X6.  The visited set flat mode returns holds no key twice: every
    assignment is admitted at most once. *)
Theorem visited_keys_are_distinct
    (oracle : GurobiModel -> Answer) (round2 : Q -> Q) (fuel : nat) (model : Model)
    (log log' : list GurobiModel) (visited : list Key) :
  solve_branch_and_bound oracle round2 fuel model log = (Ok visited, log') ->
  distinct_keys visited.
Proof.
  unfold solve_branch_and_bound, bind. intro H.
  destruct (start oracle round2 model log) as [[[root k]|e|] log0]; try discriminate H.
  apply (solve_loop_rule oracle round2 (fun _ visited _ => distinct_keys visited) model)
    with (fuel := fuel) (node_list := [(root, decision_vars root)]) (visited := [k])
         (log := log0) (log' := log'); [| |exact H].
  - intros [node ref] rest vis l nl' vis' l' D E.
    apply expand_inv in E as (A & left & right & lk & rk & _ & _ & _ & _ & E).
    cbv zeta in E. destruct E as [_ ->].
    assert (D1 : distinct_keys (if key_mem lk vis then vis else vis ++ [lk])).
    { destruct (key_mem lk vis) eqn:K; [exact D|]. apply distinct_keys_snoc; assumption. }
    destruct (key_mem rk (if key_mem lk vis then vis else vis ++ [lk])) eqn:K;
      [exact D1|]. apply distinct_keys_snoc; assumption.
  - constructor; constructor.
Qed.

Lemma visited_keys_are_distinct_witness :
  exists visited log',
    solve_branch_and_bound Examples.half_oracle Examples.no_rounding 10
      Examples.half_model [] = (Ok visited, log') /\
    List.length visited = 4%nat /\
    distinct_keys visited.
Proof.
  eexists _, _. split; [vm_compute; reflexivity|]. split; [reflexivity|].
  eapply (visited_keys_are_distinct Examples.half_oracle Examples.no_rounding 10
            Examples.half_model [] _ _).
  vm_compute. reflexivity.
Defined.

(** X7.  The cost of a completed run of flat mode: two solver calls before
    the loop (the relaxation and the root) and two for every visited
    assignment, each of which is expanded exactly once. *)
Theorem solver_calls_of_a_completed_run
    (oracle : GurobiModel -> Answer) (round2 : Q -> Q) (fuel : nat) (model : Model)
    (log log' : list GurobiModel) (visited : list Key) :
  solve_branch_and_bound oracle round2 fuel model log = (Ok visited, log') ->
  exists calls,
    log' = log ++ calls /\
    List.length calls = (2 + 2 * List.length visited)%nat.
Proof.
  unfold solve_branch_and_bound, bind. intro H.
  destruct (start oracle round2 model log) as [[[root k]|e|] log0] eqn:S;
    try discriminate H.
  apply start_inv in S as (c & relaxation & b & g0 & g1 & _ & _ & _ & _ & -> & _).
  pose proof (solve_loop_rule oracle round2
                (fun nl vis l =>
                   exists calls, l = log ++ calls /\
                     (List.length calls + 2 * List.length nl
                      = 2 + 2 * List.length vis)%nat) model) as Rule.
  destruct (Rule) with (fuel := fuel) (node_list := [(root, decision_vars root)])
    (visited := [k]) (log := log ++ [g0; g1]) (v := visited) (log' := log')
    as (calls & E & L); [| |exact H|].
  - intros [node ref] rest vis l nl' vis' l' (calls & -> & L) E.
    apply expand_inv in E as (A & left & right & lk & rk & _ & G & _ & _ & E).
    cbv zeta in E. destruct E as [-> ->].
    apply generate_child_nodes_inv in G as (c' & gl & gr & _ & _ & _ & -> & _).
    exists (calls ++ [gl; gr]). split; [now rewrite app_assoc|].
    destruct (key_mem lk vis);
      match goal with
      | |- context [key_mem rk ?s] => destruct (key_mem rk s)
      end; rewrite ?length_app; simpl in *; rewrite ?length_app; simpl; lia.
  - exists [g0; g1]. split; reflexivity.
  - exists calls. split; [exact E|]. simpl in L. lia.
Qed.

Lemma solver_calls_of_a_completed_run_witness :
  exists visited log',
    solve_branch_and_bound Examples.half_oracle Examples.no_rounding 10
      Examples.half_model [] = (Ok visited, log') /\
    exists calls,
      log' = [] ++ calls /\
      List.length calls = (2 + 2 * List.length visited)%nat.
Proof.
  eexists _, _. split; [vm_compute; reflexivity|].
  eapply (solver_calls_of_a_completed_run Examples.half_oracle Examples.no_rounding 10
            Examples.half_model [] _ _).
  vm_compute. reflexivity.
Defined.

(** *** The variable names of an assignment *)

Lemma existsb_eqb_In (n : string) (ks : list string) :
  existsb (String.eqb n) ks = true <-> In n ks.
Proof.
  rewrite existsb_exists. split.
  - intros (m & Hin & E). apply String.eqb_eq in E. now subst.
  - intro Hin. exists n. split; [exact Hin|apply String.eqb_refl].
Qed.

Lemma dict_keys_set {V} (d : dict V) (k : string) (v : V) :
  dict_keys (dict_set d k v)
  = if existsb (String.eqb k) (dict_keys d) then dict_keys d else dict_keys d ++ [k].
Proof.
  unfold dict_keys. induction d as [|[k' v'] d IH]; simpl; [reflexivity|].
  rewrite (String.eqb_sym k k'). destruct (String.eqb k' k); simpl; [reflexivity|].
  rewrite IH. destruct (existsb (String.eqb k) (map fst d)); reflexivity.
Qed.

(** The keys of [vars_dict] after the variable loop do not depend on the
    variables stored. *)
Lemma add_vars_keys (mk : string -> outcome Var) (names : list string) :
  forall acc gv vd,
    add_vars mk names acc = Ok (gv, vd) ->
    dict_keys vd = keys_after names (dict_keys (snd acc)).
Proof.
  induction names as [|n names IH]; intros acc gv vd H; simpl in H.
  - injection H as ->. reflexivity.
  - destruct (mk n) as [v|e|]; try discriminate H. simpl in H.
    apply IH in H. cbn [snd] in H. rewrite H, dict_keys_set. reflexivity.
Qed.

Lemma solution_of_keys (vd : dict Var) (X : string -> Q) :
  map fst (solution_of vd X) = dict_keys vd.
Proof.
  unfold solution_of, dict_keys. rewrite map_map. apply map_ext. intros [n v]. reflexivity.
Qed.

Lemma keys_after_fresh (names acc : list string) :
  NoDup (acc ++ names) -> keys_after names acc = acc ++ names.
Proof.
  revert acc. induction names as [|n names IH]; intros acc N; simpl.
  - now rewrite app_nil_r.
  - assert (F : existsb (String.eqb n) acc = false).
    { destruct (existsb (String.eqb n) acc) eqn:E; [|reflexivity].
      apply existsb_eqb_In in E. apply NoDup_remove_2 in N. exfalso. apply N.
      apply in_or_app. now left. }
    rewrite F. rewrite IH; rewrite <- app_assoc; [reflexivity|exact N].
Qed.

Lemma keys_after_NoDup (names acc : list string) :
  NoDup acc -> NoDup (keys_after names acc).
Proof.
  revert acc. induction names as [|n names IH]; intros acc N; simpl; [exact N|].
  destruct (existsb (String.eqb n) acc) eqn:E; apply IH; [exact N|].
  apply NoDup_app; [exact N|repeat constructor; intros []|].
  intros a Ha [Ea|[]]. subst a.
  assert (existsb (String.eqb n) acc = true) by (apply existsb_eqb_In; exact Ha).
  congruence.
Qed.

(** The names of a node that carries an assignment are the keys the
    variable loop left. *)
Lemma node_of_names (round2 : Q -> Q) (vd : dict Var) (a : Answer) (k : Assignment) :
  decision_vars (node_of round2 vd a) = PyDict k -> map fst k = dict_keys vd.
Proof.
  destruct a as [[o X]|]; simpl; [|discriminate].
  intro H. injection H as <-. apply solution_of_keys.
Qed.

(** X8.  Every assignment flat mode returns lists the same variable names
    in the same order: the names of [binary_vars], a repeated name at its
    first place only -- so [binary_vars] itself when no name repeats. *)
Theorem visited_assignments_share_the_variable_names
    (oracle : GurobiModel -> Answer) (round2 : Q -> Q) (fuel : nat) (model : Model)
    (log log' : list GurobiModel) (visited : list Key) :
  solve_branch_and_bound oracle round2 fuel model log = (Ok visited, log') ->
  Forall (fun k => map fst k = keys_after (binary_vars model) []) visited /\
  (NoDup (binary_vars model) -> keys_after (binary_vars model) [] = binary_vars model).
Proof.
  intro H. split; [|intro N; apply (keys_after_fresh (binary_vars model) []); exact N].
  set (N := keys_after (binary_vars model) []).
  assert (ND : NoDup N) by (apply keys_after_NoDup; constructor).
  assert (Fix : keys_after N [] = N) by (apply (keys_after_fresh N []); exact ND).
  revert H. unfold solve_branch_and_bound, bind.
  destruct (start oracle round2 model log) as [[[root k]|e|] log0] eqn:S;
    try discriminate.
  intro H.
  apply start_inv in S as (c & relaxation & b & g0 & g1 & _ & _ & _ & G & _ & D).
  unfold generate_root_node in G.
  apply generate_node_inv in G as (gv & vd & cs & V & _ & _ & Hroot).
  assert (Hk : map fst k = N).
  { rewrite Hroot in D. apply node_of_names in D. rewrite D.
    apply (add_vars_keys _ _ _ _ _ V). }
  pose proof (solve_loop_rule oracle round2
                (fun nl vis _ =>
                   Forall (fun e => forall A, decision_vars (fst e) = PyDict A ->
                                               map fst A = N) nl /\
                   Forall (fun k => map fst k = N) vis) model) as Rule.
  apply (Rule) with (fuel := fuel) (node_list := [(root, decision_vars root)])
    (visited := [k]) (log := log0) (v := visited) (log' := log'); [| |exact H].
  - intros [node ref] rest vis l nl' vis' l' [Hnl Hvis] E.
    apply expand_inv in E as (A & left & right & lk & rk & DA & Gc & DL & DR & E).
    cbv zeta in E. destruct E as [-> ->].
    apply generate_child_nodes_inv in Gc
      as (c' & gl & gr & vl & vr & _ & _ & Hl & Hr & Vl & Vr).
    assert (HA : dict_keys A = N).
    { apply Forall_inv in Hnl. apply (Hnl A). exact DA. }
    assert (Hlk : map fst lk = N).
    { rewrite Hl in DL. apply node_of_names in DL. rewrite DL.
      rewrite (add_vars_keys _ _ _ _ _ Vl), HA. exact Fix. }
    assert (Hrk : map fst rk = N).
    { rewrite Hr in DR. apply node_of_names in DR. rewrite DR.
      rewrite (add_vars_keys _ _ _ _ _ Vr), HA. exact Fix. }
    apply Forall_inv_tail in Hnl.
    split.
    + apply Forall_app. split; [apply Forall_app; split; [exact Hnl|]|].
      * destruct (key_mem lk vis); constructor; [|constructor].
        cbn. intros A' E. rewrite DL in E. injection E as <-. exact Hlk.
      * match goal with |- context [key_mem rk ?s] => destruct (key_mem rk s) end;
          constructor; [|constructor].
        cbn. intros A' E. rewrite DR in E. injection E as <-. exact Hrk.
    + assert (H1 : Forall (fun k0 => map fst k0 = N)
                     (if key_mem lk vis then vis else vis ++ [lk])).
      { destruct (key_mem lk vis); [exact Hvis|].
        apply Forall_app. split; [exact Hvis|]. repeat constructor. exact Hlk. }
      match goal with |- context [key_mem rk ?s] => destruct (key_mem rk s) end;
        [exact H1|].
      apply Forall_app. split; [exact H1|]. repeat constructor. exact Hrk.
  - split; repeat constructor; [|exact Hk].
    cbn. intros A E. rewrite D in E. injection E as <-. exact Hk.
Qed.

Lemma visited_assignments_share_the_variable_names_witness :
  exists visited log',
    solve_branch_and_bound Examples.half_oracle Examples.no_rounding 10
      Examples.half_model [] = (Ok visited, log') /\
    Forall (fun k => map fst k = keys_after (binary_vars Examples.half_model) []) visited /\
    (NoDup (binary_vars Examples.half_model) ->
     keys_after (binary_vars Examples.half_model) [] = binary_vars Examples.half_model).
Proof.
  eexists _, _. split; [vm_compute; reflexivity|].
  eapply (visited_assignments_share_the_variable_names Examples.half_oracle
            Examples.no_rounding 10 Examples.half_model [] _ _).
  vm_compute. reflexivity.
Defined.

(** ** What tree mode returns *)

Lemma agree_strengthen {A B} (R : A -> B -> Prop) (P : B -> Prop)
    (x : outcome A * list GurobiModel) (y : outcome B * list GurobiModel) :
  agree R x y -> (forall b, fst y = Ok b -> P b) -> agree (fun a b => R a b /\ P b) x y.
Proof.
  intros [Hl Hr] HP. split; [exact Hl|].
  destruct (fst x), (fst y); auto.
Qed.

Lemma has_node_add_node_mono (g : DiGraph) (k k' : Key) (o : objective) :
  has_node g k' = true -> has_node (add_node g k o) k' = true.
Proof.
  intro H. unfold has_node. rewrite add_node_keys. fold (has_node g k).
  destruct (has_node g k); [exact H|]. apply key_mem_grows. exact H.
Qed.

Lemma edge_eqb_sym (e e' : Key * Key) : edge_eqb e e' = edge_eqb e' e.
Proof.
  unfold edge_eqb. rewrite (key_eqb_sym (fst e)), (key_eqb_sym (snd e)). reflexivity.
Qed.

Lemma set_attr_attrs (ns : list (Key * option objective)) (k : Key) (o : objective) :
  Forall (fun n => snd n <> None) ns ->
  Forall (fun n => snd n <> None) (set_attr ns k o).
Proof.
  induction 1 as [|[k' a] ns Ha Hns IH]; simpl; [constructor|].
  destruct (key_eqb k k'); constructor; try assumption. cbn. discriminate.
Qed.

(** Recording one produced child keeps the graph well formed and adds at
    most one edge. *)
Lemma record_child_shape (g : DiGraph) (pk k : Key) (o : objective) :
  has_node g pk = true ->
  Forall (fun n => snd n <> None) (nodes g) ->
  Forall (fun e => has_node g (fst e) = true /\ has_node g (snd e) = true) (edges g) ->
  ForallOrdPairs (fun e e' => edge_eqb e e' = false) (edges g) ->
  let g' := add_edge (add_node g k o) pk k in
  map fst (nodes g')
  = (if has_node g k then map fst (nodes g) else map fst (nodes g) ++ [k]) /\
  has_node g' pk = true /\
  Forall (fun n => snd n <> None) (nodes g') /\
  Forall (fun e => has_node g' (fst e) = true /\ has_node g' (snd e) = true) (edges g') /\
  ForallOrdPairs (fun e e' => edge_eqb e e' = false) (edges g') /\
  (List.length (edges g') <= S (List.length (edges g)))%nat.
Proof.
  intros Hpk Hat Hends Hdist g'.
  pose proof (has_node_add_node_mono g k pk o Hpk) as Hpk1.
  pose proof (has_node_add_node g k o) as Hkk.
  assert (Hn : nodes g' = nodes (add_node g k o)) by (apply add_edge_nodes; assumption).
  assert (Hmono : forall x, has_node g x = true -> has_node g' x = true).
  { intros x Hx. unfold has_node. rewrite Hn. apply has_node_add_node_mono. exact Hx. }
  assert (He : edges g' = edges g \/
               (edges g' = edges g ++ [(pk, k)] /\
                existsb (edge_eqb (pk, k)) (edges g) = false)).
  { subst g'. unfold add_edge.
    rewrite (touch_node_known _ pk Hpk1), (touch_node_known _ k Hkk).
    cbv zeta. unfold has_edge. rewrite add_node_edges.
    destruct (existsb (edge_eqb (pk, k)) (edges g)) eqn:E; [left|right].
    - apply add_node_edges.
    - split; reflexivity. }
  split; [rewrite Hn; apply add_node_keys|].
  split; [apply Hmono; exact Hpk|].
  split.
  { rewrite Hn. unfold add_node. destruct (has_node g k); simpl.
    - apply set_attr_attrs. exact Hat.
    - apply Forall_app. split; [exact Hat|]. repeat constructor. discriminate. }
  assert (Hends' : Forall (fun e => has_node g' (fst e) = true /\ has_node g' (snd e) = true)
                     (edges g)).
  { eapply Forall_impl; [|exact Hends]. intros e [H1 H2]. split; apply Hmono; assumption. }
  destruct He as [-> | [-> Hnew]].
  - repeat split; [exact Hends'|exact Hdist|lia].
  - split; [|split].
    + apply Forall_app. split; [exact Hends'|]. repeat constructor; cbn.
      * apply Hmono. exact Hpk.
      * unfold has_node. rewrite Hn. exact Hkk.
    + clear -Hdist Hnew. induction Hdist as [|e es He _ IH]; simpl.
      * repeat constructor.
      * simpl in Hnew. apply orb_false_iff in Hnew as [N1 N2]. constructor.
        -- apply Forall_app. split; [exact He|]. repeat constructor.
           rewrite edge_eqb_sym. exact N1.
        -- apply IH. exact N2.
    + rewrite length_app. simpl. lia.
Qed.

Section TreeRuns.

Variable oracle : GurobiModel -> Answer.
Variable round2 : Q -> Q.

(** What a round of tree mode that completes has done. *)
Lemma expand_tree_inv model node ref tag rest visited g log nl' vis' g' log' :
  expand_tree oracle round2 model (node, ref, tag) rest visited g log
  = (Ok (nl', vis', g'), log') ->
  exists A left right lk rk pk,
    decision_vars node = PyDict A /\ ref = PyDict pk /\
    generate_child_nodes oracle round2 model A (select_branch_variable A) ref log
    = (Ok (left, right), log') /\
    decision_vars left = PyDict lk /\ decision_vars right = PyDict rk /\
    let vis1 := if key_mem lk visited then visited else visited ++ [lk] in
    let g1 := add_edge (add_node g lk (optimal_objective left)) pk lk in
    nl' = (rest ++ (if key_mem lk visited then [] else [(left, ref, "left")]))
          ++ (if key_mem rk vis1 then [] else [(right, PyDict rk, "right")]) /\
    vis' = (if key_mem rk vis1 then vis1 else vis1 ++ [rk]) /\
    g' = add_edge (add_node g1 rk (optimal_objective right)) pk rk.
Proof.
  intro H. unfold expand_tree, bind, lift in H.
  destruct (decision_vars node) as [A| |] eqn:DA; try discriminate H.
  cbn [find_next_branch_var items obind] in H.
  destruct (generate_child_nodes oracle round2 model A (select_branch_variable A) ref log)
    as [[[left right]|e|] log1] eqn:G; try discriminate H.
  unfold attach_child, bind, lift, ret in H.
  destruct (decision_vars left) as [lk| |] eqn:DL; try discriminate H.
  cbn [items] in H.
  destruct ref as [pk| |]; try discriminate H. cbn [items] in H.
  destruct (key_mem lk visited) eqn:Kl; cbn [negb] in H;
    destruct (decision_vars right) as [rk| |] eqn:DR; try discriminate H;
    cbn [items] in H;
    match type of H with
    | context [key_mem rk ?s] => destruct (key_mem rk s) eqn:Kr
    end; cbn [negb] in H; injection H as <- <- <- <-;
    exists A, left, right, lk, rk, pk; cbv zeta; repeat split; try assumption;
    rewrite ?Kl; cbv iota; rewrite ?Kr; cbv iota; rewrite ?app_nil_r; reflexivity.
Qed.

(** A property of tree mode's state that every completed round keeps
    holds of the visited set flat mode returns and the graph tree mode
    returns. *)
Lemma lockstep_rule (rk : Key) (model : Model)
    (K : list TEntry -> list Key -> DiGraph -> Prop) :
  (forall n r t rest visited g log tl' vis' g' log',
      tree_inv ((n, r, t) :: rest) visited g rk ->
      K ((n, r, t) :: rest) visited g ->
      expand_tree oracle round2 model (n, r, t) rest visited g log
      = (Ok (tl', vis', g'), log') ->
      K tl' vis' g') ->
  forall fuel tl visited g log,
    tree_inv tl visited g rk -> K tl visited g ->
    agree (fun v g' => K [] v g')
      (solve_loop oracle round2 fuel model (map strip tl) visited log)
      (tree_loop oracle round2 fuel model tl visited g log).
Proof.
  intro Step. induction fuel as [|fuel IH]; intros tl visited g log Inv HK;
    destruct tl as [|[[n r] t] rest]; simpl.
  - split; [reflexivity|exact HK].
  - split; [reflexivity|exact I].
  - split; [reflexivity|exact HK].
  - eapply agree_bind.
    + apply (agree_strengthen (sim rk)
               (fun ts : list TEntry * list Key * DiGraph =>
                  K (fst (fst ts)) (snd (fst ts)) (snd ts))).
      * exact (expand_agrees oracle round2 rk model n r t rest visited g log Inv).
      * intros [[tl' vis'] g'] E. cbn [fst snd].
        apply (Step n r t rest visited g log tl' vis' g'
                 (snd (expand_tree oracle round2 model (n, r, t) rest visited g log))
                 Inv HK).
        rewrite <- E. apply surjective_pairing.
    + intros [fl vis] [[tl' vis'] g'] log' [(Hfl & Hvis & Inv1) HK1].
      cbn [fst snd] in *. subst fl vis'. apply IH; assumption.
Qed.

(** Every completed round of tree mode keeps the graph in shape. *)
Lemma expand_tree_shape (rk : Key) (model : Model) n r t rest visited g log
    tl' vis' g' log' :
  tree_inv ((n, r, t) :: rest) visited g rk ->
  tree_shape ((n, r, t) :: rest) visited g ->
  expand_tree oracle round2 model (n, r, t) rest visited g log
  = (Ok (tl', vis', g'), log') ->
  tree_shape tl' vis' g'.
Proof.
  intros Inv [Keys Dist Attrs Ends Edges Count] E.
  apply expand_tree_inv in E
    as (A & left & right & lk & rk' & pk & _ & -> & _ & _ & _ & E).
  cbv zeta in E. destruct E as (-> & -> & ->).
  destruct (inv_refs _ _ _ _ Inv n (PyDict pk) t (or_introl eq_refl))
    as (pk' & Epk & Hpk).
  injection Epk as <-.
  assert (Hgpk : has_node g pk = true) by (unfold has_node; rewrite Keys; exact Hpk).
  destruct (record_child_shape g pk lk (optimal_objective left) Hgpk Attrs Ends Edges)
    as (Keys1 & Hpk1 & Attrs1 & Ends1 & Edges1 & Count1).
  cbv zeta in *.
  set (g1 := add_edge (add_node g lk (optimal_objective left)) pk lk) in *.
  set (vis1 := if key_mem lk visited then visited else visited ++ [lk]).
  assert (Keys1' : map fst (nodes g1) = vis1).
  { rewrite Keys1. unfold has_node, vis1. rewrite Keys.
    destruct (key_mem lk visited); reflexivity. }
  assert (Dist1 : distinct_keys vis1).
  { unfold vis1. destruct (key_mem lk visited) eqn:Kl; [exact Dist|].
    apply distinct_keys_snoc; assumption. }
  destruct (record_child_shape g1 pk rk' (optimal_objective right) Hpk1 Attrs1 Ends1
              Edges1) as (Keys2 & _ & Attrs2 & Ends2 & Edges2 & Count2).
  cbv zeta in *.
  set (g2 := add_edge (add_node g1 rk' (optimal_objective right)) pk rk') in *.
  constructor; try assumption.
  - rewrite Keys2. unfold has_node. rewrite Keys1'.
    destruct (key_mem rk' vis1); reflexivity.
  - destruct (key_mem rk' vis1) eqn:Kr; [exact Dist1|].
    apply distinct_keys_snoc; assumption.
  - clearbody g2 g1. cbn [List.length] in Count. clear -Count Count1 Count2. unfold vis1.
    destruct (key_mem lk visited);
      match goal with |- context [key_mem rk' ?s] => destruct (key_mem rk' s) end;
      rewrite ?length_app; cbn [List.length]; rewrite ?length_app; cbn [List.length];
      lia.
Qed.

(** Both drivers from the start: when they return, the graph is in shape
    for the visited set flat mode returns. *)
Lemma drivers_shape (fuel : nat) (model : Model) (log : list GurobiModel) :
  agree (fun visited g => tree_shape [] visited g)
    (solve_branch_and_bound oracle round2 fuel model log)
    (create_branch_and_bound_tree oracle round2 fuel model log).
Proof.
  unfold solve_branch_and_bound, create_branch_and_bound_tree, bind.
  destruct (start oracle round2 model log) as [[[root k]|e|] l0] eqn:S.
  - pose proof (start_root oracle round2 model log l0 root k S) as D.
    apply (lockstep_rule k model tree_shape) with (fuel := fuel)
      (tl := [(root, decision_vars root, "root")]).
    + intros. eapply expand_tree_shape; eassumption.
    + apply initial_state. exact D.
    + constructor; simpl.
      * reflexivity.
      * constructor; constructor.
      * repeat constructor. discriminate.
      * constructor.
      * constructor.
      * lia.
  - split; reflexivity.
  - split; [reflexivity|exact I].
Qed.

End TreeRuns.

(** X9.  When flat mode returns, tree mode returns too, after the same
    solver calls, and the keys of the graph's nodes are the visited keys
    in the same order: node for node, the tree records what flat mode
    visits. *)
Theorem tree_nodes_are_the_visited_keys
    (oracle : GurobiModel -> Answer) (round2 : Q -> Q) (fuel : nat) (model : Model)
    (log log' : list GurobiModel) (visited : list Key) :
  solve_branch_and_bound oracle round2 fuel model log = (Ok visited, log') ->
  exists g,
    create_branch_and_bound_tree oracle round2 fuel model log = (Ok g, log') /\
    map fst (nodes g) = visited.
Proof.
  intro H. destruct (drivers_shape oracle round2 fuel model log) as [Hl Hr].
  rewrite H in Hl, Hr. cbn [fst snd] in Hl, Hr.
  destruct (create_branch_and_bound_tree oracle round2 fuel model log) as [[g|e|] l];
    cbn [fst snd] in *; try contradiction.
  exists g. subst l. split; [reflexivity|apply Hr].
Qed.

Lemma tree_nodes_are_the_visited_keys_witness :
  exists visited log',
    solve_branch_and_bound Examples.half_oracle Examples.no_rounding 10
      Examples.half_model [] = (Ok visited, log') /\
    exists g,
      create_branch_and_bound_tree Examples.half_oracle Examples.no_rounding 10
        Examples.half_model [] = (Ok g, log') /\
      map fst (nodes g) = visited.
Proof.
  eexists _, _. split; [vm_compute; reflexivity|].
  eapply (tree_nodes_are_the_visited_keys Examples.half_oracle Examples.no_rounding 10
            Examples.half_model [] _ _).
  vm_compute. reflexivity.
Defined.

(** X10.  Every graph tree mode returns is well formed: no two nodes
    have the same key, every node carries an objective attribute, every
    edge joins two recorded nodes, no edge is stored twice, and there are
    at most twice as many edges as nodes. *)
Theorem returned_tree_is_well_formed
    (oracle : GurobiModel -> Answer) (round2 : Q -> Q) (fuel : nat) (model : Model)
    (log log' : list GurobiModel) (g : DiGraph) :
  create_branch_and_bound_tree oracle round2 fuel model log = (Ok g, log') ->
  distinct_keys (map fst (nodes g)) /\
  Forall (fun n => snd n <> None) (nodes g) /\
  Forall (fun e => has_node g (fst e) = true /\ has_node g (snd e) = true) (edges g) /\
  ForallOrdPairs (fun e e' => edge_eqb e e' = false) (edges g) /\
  (List.length (edges g) <= 2 * List.length (nodes g))%nat.
Proof.
  intro H. destruct (drivers_shape oracle round2 fuel model log) as [_ Hr].
  rewrite H in Hr. cbn [fst] in Hr.
  destruct (fst (solve_branch_and_bound oracle round2 fuel model log)) as [v|e|];
    try contradiction.
  destruct Hr as [Keys Dist Attrs Ends Edges Count].
  rewrite Keys. repeat split; try assumption.
  rewrite <- (length_map fst (nodes g)), Keys. cbn [List.length] in Count. lia.
Qed.

Lemma returned_tree_is_well_formed_witness :
  exists g log',
    create_branch_and_bound_tree Examples.half_oracle Examples.no_rounding 10
      Examples.half_model [] = (Ok g, log') /\
    List.length (edges g) = 6%nat /\
    (distinct_keys (map fst (nodes g)) /\
     Forall (fun n => snd n <> None) (nodes g) /\
     Forall (fun e => has_node g (fst e) = true /\ has_node g (snd e) = true) (edges g) /\
     ForallOrdPairs (fun e e' => edge_eqb e e' = false) (edges g) /\
     (List.length (edges g) <= 2 * List.length (nodes g))%nat).
Proof.
  eexists _, _. split; [vm_compute; reflexivity|]. split; [reflexivity|].
  eapply (returned_tree_is_well_formed Examples.half_oracle Examples.no_rounding 10
            Examples.half_model [] _ _).
  vm_compute. reflexivity.
Defined.

(** ** The requests of a run *)

(** The variables the loop has added, one per name, each as [mk] made
    it. *)
Lemma add_vars_spec (mk : string -> outcome Var) (names : list string) :
  forall acc gv vd,
    add_vars mk names acc = Ok (gv, vd) ->
    exists vs, gv = fst acc ++ vs /\ Forall2 (fun n v => mk n = Ok v) names vs.
Proof.
  induction names as [|n names IH]; intros acc gv vd H; simpl in H.
  - injection H as ->. exists []. split; [now rewrite app_nil_r|constructor].
  - destruct (mk n) as [v|e|] eqn:E; try discriminate H. simpl in H.
    apply IH in H as (vs & -> & F). cbn [fst]. exists (v :: vs).
    split; [now rewrite <- app_assoc|]. constructor; assumption.
Qed.


(** Every name of the list has its variable in the request. *)
Lemma add_vars_each (mk : string -> outcome Var) (names : list string)
    (gv : list Var) (vd : dict Var) (n : string) :
  add_vars mk names ([], []) = Ok (gv, vd) ->
  In n names ->
  exists v, mk n = Ok v /\ In v gv.
Proof.
  intros V Hin. apply add_vars_spec in V as (vs & -> & F). cbn [fst app].
  induction F as [|m v ns vs Hv _ IH]; [destruct Hin|].
  destruct Hin as [->|Hin].
  - exists v. split; [exact Hv|now left].
  - destruct (IH Hin) as (v' & H1 & H2). exists v'. split; [exact H1|now right].
Qed.





Section Requests.

Variable oracle : GurobiModel -> Answer.
Variable round2 : Q -> Q.



End Requests.

(** With a repeated name the variable loop of the root makes every
    variable of that name binary: two places are touched. *)
Example repeated_name_is_touched_twice :
  exists vars_dict,
    add_vars (root_var (Some "x1")) ["x1"; "x1"] ([], [])
    = Ok ([mkVar 0 1 BINARY "x1"; mkVar 0 1 BINARY "x1"], vars_dict).
Proof. eexists. reflexivity. Qed.


(** ** How runs end early *)

Section Endings.

Variable oracle : GurobiModel -> Answer.
Variable round2 : Q -> Q.

(** X12.  When the solver finds no optimum for the request [g] that
    [lp_relaxation] makes for the model, [lp_relaxation] returns [None]
    and both drivers stop on [None.items()]: [AttributeError] after that
    single solver call. *)
Theorem infeasible_relaxation_aborts_the_run
    (fuel : nat) (model : Model) (c : Coefficients) (log : list GurobiModel)
    (g : GurobiModel) :
  extract_coefficients model = Ok c ->
  snd (lp_relaxation oracle (set_obj model) (constraint_coefficients c)
         (constraint_operators c) (constraint_last_values c) (binary_vars model) log)
  = log ++ [g] ->
  oracle g = None ->
  solve_branch_and_bound oracle round2 fuel model log
  = (Raise AttributeError, log ++ [g]) /\
  create_branch_and_bound_tree oracle round2 fuel model log
  = (Raise AttributeError, log ++ [g]).
Proof.
  intros E Call Inf.
  assert (Short : log <> log ++ [g]).
  { intro H. apply (f_equal (@List.length GurobiModel)) in H.
    rewrite length_app in H. cbn [List.length] in H. lia. }
  assert (R : lp_relaxation oracle (set_obj model) (constraint_coefficients c)
                (constraint_operators c) (constraint_last_values c)
                (binary_vars model) log
              = (Ok PyNone, log ++ [g])).
  { revert Call. unfold lp_relaxation, bind, lift, optimize.
    destruct (add_vars relaxation_var (binary_vars model) ([], []))
      as [[gv vd]|e|]; cbn [snd]; try (intro H; now elim Short).
    destruct (add_constrs vd (binary_vars model) _) as [cs|e|]; cbn [snd];
      try (intro H; now elim Short).
    match goal with
    | |- context [oracle ?g'] => set (g0 := g')
    end.
    intro H.
    assert (Eg : g0 = g).
    { destruct (oracle g0) as [[o X]|]; cbn [snd ret] in H;
        apply app_inv_head in H; now injection H. }
    rewrite Eg, Inf. reflexivity. }
  split.
  - unfold solve_branch_and_bound. apply bind_raise. unfold start.
    rewrite (bind_ok _ _ log log c) by (unfold lift; now rewrite E).
    rewrite (bind_ok _ _ _ _ _ R). reflexivity.
  - unfold create_branch_and_bound_tree. apply bind_raise. unfold start.
    rewrite (bind_ok _ _ log log c) by (unfold lift; now rewrite E).
    rewrite (bind_ok _ _ _ _ _ R). reflexivity.
Qed.

(** Without a branch variable the three node builders add the same
    variables as the relaxation does. *)
Lemma add_vars_relaxed (mk : string -> outcome Var) (names : list string) :
  (forall n, In n names -> mk n = Ok (relaxed n)) ->
  add_vars mk names ([], []) = Ok (map relaxed names, vars_dict_of relaxed names []).
Proof.
  intro H. exact (add_vars_total mk relaxed names ([], []) H).
Qed.

(** X13.  The search ends at an integral root.  When no variable name
    repeats, the root request has no binary variable (the relaxation gave
    no branch variable) and the root's own assignment gives none either,
    then both children of the root are the root's request once more: the
    root is the only visited assignment, the run makes four solver calls,
    the last three on the same request, and the tree is the root with an
    edge to itself. *)
Theorem integral_root_ends_the_search
    (fuel : nat) (model : Model) (log : list GurobiModel) (root : Node) (k : Key)
    (g0 g1 : GurobiModel) :
  NoDup (binary_vars model) ->
  start oracle round2 model log = (Ok (root, k), log ++ [g0; g1]) ->
  Forall (fun v => vt v = CONTINUOUS) (g_vars g1) ->
  select_branch_variable k = None ->
  solve_branch_and_bound oracle round2 (S fuel) model log
  = (Ok [k], log ++ [g0; g1; g1; g1]) /\
  create_branch_and_bound_tree oracle round2 (S fuel) model log
  = (Ok (mkDiGraph [(k, Some (optimal_objective root))] [(k, k)]),
     log ++ [g0; g1; g1; g1]).
Proof.
  intros ND S Cont Sel.
  pose proof S as S'.
  apply start_inv in S' as (c & relaxation & b & g0' & g1' & E & _ & _ & G & El & D).
  apply app_inv_head in El. injection El as <- <-.
  unfold generate_root_node in G.
  pose proof G as G'.
  apply generate_node_inv in G' as (gv & vd & cs & V & C & El & Hroot).
  change (log ++ [g0; g1]) with (log ++ [g0] ++ [g1]) in El.
  rewrite app_assoc in El. apply app_inv_head in El. injection El as Eg1.
  (* the root's variables are the relaxed ones *)
  assert (Hrel : forall n, In n (binary_vars model) -> root_var b n = Ok (relaxed n)).
  { intros n Hin. unfold root_var. destruct (is_branch n b) eqn:B; [|reflexivity].
    exfalso. rewrite Eg1 in Cont. cbn [g_vars] in Cont.
    destruct (add_vars_each _ _ _ _ n V Hin) as (v & Hv & Iv).
    unfold root_var in Hv. rewrite B in Hv. injection Hv as <-.
    rewrite Forall_forall in Cont. specialize (Cont _ Iv). discriminate Cont. }
  rewrite (add_vars_relaxed _ _ Hrel) in V. injection V as <- <-.
  set (names := binary_vars model) in *.
  set (vd := vars_dict_of relaxed names []) in *.
  rewrite <- Eg1 in Hroot.
  (* the root's key lists the names *)
  assert (Hk : dict_keys k = names).
  { rewrite Hroot in D. apply node_of_names in D. unfold dict_keys. rewrite D.
    unfold vd.
    rewrite (add_vars_keys _ _ _ _ _
               (add_vars_relaxed (fun n => Ok (relaxed n)) names (fun _ _ => eq_refl))).
    apply (keys_after_fresh names []). exact ND. }
  (* both children are the root again *)
  assert (Gc : generate_child_nodes oracle round2 model k None (PyDict k)
                 (log ++ [g0; g1])
               = (Ok (root, root), log ++ [g0; g1; g1; g1])).
  { unfold generate_child_nodes.
    rewrite (bind_ok _ _ _ _ c) by (unfold lift; now rewrite E).
    unfold generate_left_child_node, generate_right_child_node. rewrite Hk.
    pose proof (generate_node_run oracle round2 (left_var None (PyDict k))
                  (set_obj model) (objective_coefficients c) (constraint_coefficients c)
                  (constraint_operators c) (constraint_last_values c) names _ _ cs
                  (log ++ [g0; g1])
                  (add_vars_relaxed _ names (fun _ _ => eq_refl)) C) as L.
    cbv zeta in L. fold vd in L. rewrite <- Eg1 in L. rewrite <- Hroot in L.
    rewrite (bind_ok _ _ _ _ _ L).
    pose proof (generate_node_run oracle round2 (right_var None (PyDict k))
                  (set_obj model) (objective_coefficients c) (constraint_coefficients c)
                  (constraint_operators c) (constraint_last_values c) names _ _ cs
                  ((log ++ [g0; g1]) ++ [g1])
                  (add_vars_relaxed _ names (fun _ _ => eq_refl)) C) as R.
    cbv zeta in R. fold vd in R. rewrite <- Eg1 in R. rewrite <- Hroot in R.
    rewrite (bind_ok _ _ _ _ _ R). unfold ret. rewrite <- !app_assoc. reflexivity. }
  assert (Km : key_mem k [k] = true) by apply (key_mem_last k []).
  split.
  - unfold solve_branch_and_bound. rewrite (bind_ok _ _ _ _ _ S).
    cbn [solve_loop]. unfold bind at 1. unfold expand, bind, lift.
    rewrite D. cbn [find_next_branch_var items obind]. rewrite Sel, Gc.
    unfold admit_child, bind, lift, ret. rewrite D. cbn [items fst snd].
    repeat (cbn [items fst snd negb]; rewrite ?Km). destruct fuel; reflexivity.
  - unfold create_branch_and_bound_tree. rewrite (bind_ok _ _ _ _ _ S).
    cbn [tree_loop]. unfold bind at 1. unfold expand_tree, bind, lift.
    rewrite D. cbn [find_next_branch_var items obind]. rewrite Sel, Gc.
    unfold attach_child, bind, lift, ret. rewrite D.
    repeat (cbn [items fst snd negb]; rewrite ?Km).
    assert (G1 : add_edge (add_node (add_node empty_graph k (optimal_objective root)) k
                             (optimal_objective root)) k k
                 = mkDiGraph [(k, Some (optimal_objective root))] [(k, k)]).
    { unfold add_node, add_edge, touch_node, has_node, has_edge, edge_eqb, empty_graph,
        key_mem.
      repeat (cbn -[key_eqb]; rewrite ?key_eqb_refl). reflexivity. }
    rewrite G1.
    assert (G2 : add_edge (add_node (mkDiGraph [(k, Some (optimal_objective root))]
                                       [(k, k)]) k (optimal_objective root)) k k
                 = mkDiGraph [(k, Some (optimal_objective root))] [(k, k)]).
    { unfold add_node, add_edge, touch_node, has_node, has_edge, edge_eqb, empty_graph,
        key_mem.
      repeat (cbn -[key_eqb]; rewrite ?key_eqb_refl). reflexivity. }
    rewrite G2. destruct fuel; reflexivity.
Qed.

End Endings.

Lemma infeasible_relaxation_aborts_the_run_witness :
  exists g,
    snd (lp_relaxation MoreExamples.one_variable_oracle "MAXIMIZE" [[1]%Z] [">="] [2]%Z ["x1"] [])
    = [] ++ [g] /\
    MoreExamples.one_variable_oracle g = None /\
    solve_branch_and_bound MoreExamples.one_variable_oracle Examples.no_rounding 10
      MoreExamples.impossible_model []
    = (Raise AttributeError, [] ++ [g]) /\
    create_branch_and_bound_tree MoreExamples.one_variable_oracle Examples.no_rounding 10
      MoreExamples.impossible_model []
    = (Raise AttributeError, [] ++ [g]).
Proof.
  eexists. split; [vm_compute; reflexivity|]. split; [reflexivity|].
  eapply (infeasible_relaxation_aborts_the_run MoreExamples.one_variable_oracle
            Examples.no_rounding 10 MoreExamples.impossible_model
            (mkCoefficients [1]%Z [[1]%Z] [">="] [2]%Z) [] _).
  - reflexivity.
  - vm_compute. reflexivity.
  - reflexivity.
Defined.

(** The solver of the witness is no solver that always fails: it answers
    the relaxation of max x1 subject to x1 >= 1. *)
Example one_variable_oracle_answers :
  exists relaxation log,
    lp_relaxation MoreExamples.one_variable_oracle "MAXIMIZE" [[1]%Z] [">="] [1]%Z ["x1"] []
    = (Ok (PyDict relaxation), log).
Proof. eexists _, _. vm_compute. reflexivity. Qed.

Lemma integral_root_ends_the_search_witness :
  exists root k g0 g1,
    start Examples.zero_oracle Examples.no_rounding Examples.zero_model []
    = (Ok (root, k), [] ++ [g0; g1]) /\
    solve_branch_and_bound Examples.zero_oracle Examples.no_rounding 1
      Examples.zero_model []
    = (Ok [k], [] ++ [g0; g1; g1; g1]) /\
    create_branch_and_bound_tree Examples.zero_oracle Examples.no_rounding 1
      Examples.zero_model []
    = (Ok (mkDiGraph [(k, Some (optimal_objective root))] [(k, k)]),
       [] ++ [g0; g1; g1; g1]).
Proof.
  eexists _, _, _, _. split; [vm_compute; reflexivity|].
  eapply (integral_root_ends_the_search Examples.zero_oracle Examples.no_rounding 0
            Examples.zero_model [] _ _ _ _).
  - repeat constructor; simpl; intuition discriminate.
  - vm_compute. reflexivity.
  - repeat constructor.
  - reflexivity.
Defined.

(** ** More on the parser *)

(** Every group [findall] returns was captured by a match. *)
Lemma findall_from_groups (m : Re.matcher) (P : list ascii -> Prop) :
  (forall t g r, m t = Some (g, r) -> P g) ->
  forall fuel s, Forall P (Re.findall_from fuel m s).
Proof.
  intros Hm. induction fuel as [|fuel IH]; intro s; simpl; [constructor|].
  destruct (m s) as [[g r]|] eqn:E.
  - constructor; [exact (Hm s g r E)|apply IH].
  - destruct s; [constructor|apply IH].
Qed.

Lemma match_coeff_group t g r : Re.match_coeff t = Some (g, r) -> number g.
Proof.
  unfold Re.match_coeff. destruct (span_spec Re.is_digit t) as [_ Hd].
  destruct (Re.span Re.is_digit t) as [ds r1]. simpl in Hd.
  destruct ds as [|d ds]; [discriminate|].
  destruct (Re.span Re.is_space r1) as [sp r2].
  destruct r2 as [|c r3]; [discriminate|]. destruct (Ascii.eqb c "*"); [|discriminate].
  intro H. injection H as <- _. split; [discriminate|exact Hd].
Qed.

Lemma match_rhs_group t g r : Re.match_rhs t = Some (g, r) -> number g.
Proof.
  unfold Re.match_rhs. destruct (span_spec Re.is_digit t) as [_ Hd].
  destruct (Re.span Re.is_digit t) as [ds r1]. simpl in Hd.
  destruct ds as [|d ds]; [discriminate|].
  destruct (Re.span Re.is_space r1) as [sp r2].
  destruct r2 as [|c r3]; [|discriminate].
  intro H. injection H as <- _. split; [discriminate|exact Hd].
Qed.

(** A run of digits writes no negative number. *)
Lemma value_nonneg (ds : list ascii) :
  Forall (fun c => Re.is_digit c = true) ds -> (0 <= Re.value ds)%Z.
Proof.
  unfold Re.value. intro H.
  assert (G : forall acc, (0 <= acc)%Z ->
            (0 <= fold_left (fun a c => (10 * a + (Z.of_nat (nat_of_ascii c) - 48))%Z)
                    ds acc)%Z).
  { induction H as [|c ds Hc _ IH]; intros acc Ha; cbn [fold_left]; [exact Ha|].
    apply IH. unfold Re.is_digit in Hc. cbv zeta in Hc.
    apply andb_true_iff in Hc as [H1 _]. apply Nat.leb_le in H1. lia. }
  apply G. lia.
Qed.

Lemma coefficients_nonneg (s : string) (zs : list Z) :
  Re.ints (Re.findall Re.match_coeff s) = Ok zs ->
  Forall (fun z => (0 <= z)%Z) zs.
Proof.
  intro H. apply ints_ok in H. subst zs.
  apply Forall_map. unfold Re.findall.
  eapply Forall_impl; [|apply (findall_from_groups Re.match_coeff number)].
  - intros g [_ Hd]. apply value_nonneg. exact Hd.
  - exact match_coeff_group.
Qed.

Lemma extract_constraint_nonneg constraint row op last :
  extract_constraint constraint = Ok (row, op, last) ->
  Forall (fun z => (0 <= z)%Z) row /\ (0 <= last)%Z.
Proof.
  unfold extract_constraint. intro H.
  destruct (Re.ints (Re.findall Re.match_coeff constraint)) as [zs|e|] eqn:Ez;
    try discriminate H.
  cbn [obind] in H.
  destruct (Re.first (Re.findall Re.match_op constraint)) as [o|e|]; try discriminate H.
  cbn [obind] in H.
  destruct (Re.findall Re.match_rhs constraint) as [|l ls] eqn:El; try discriminate H.
  cbn [Re.first obind] in H.
  destruct (int_outcome l) as [Ei|Ei]; rewrite Ei in H; try discriminate H.
  cbn [obind] in H. injection H as <- _ <-.
  split; [exact (coefficients_nonneg constraint zs Ez)|].
  pose proof (findall_from_groups Re.match_rhs number match_rhs_group
                (S (List.length (list_ascii_of_string constraint)))
                (list_ascii_of_string constraint)) as F.
  unfold Re.findall in El. rewrite El in F. apply Forall_inv in F.
  apply value_nonneg. apply F.
Qed.

(** X14.  The parser never returns a negative number: every objective
    coefficient, every constraint coefficient and every right-hand side of
    a parsed model is at least 0 -- a minus sign in the text is not
    read. *)
Theorem parsed_numbers_are_nonnegative (model : Model) (c : Coefficients) :
  extract_coefficients model = Ok c ->
  Forall (fun z => (0 <= z)%Z) (objective_coefficients c) /\
  Forall (Forall (fun z => (0 <= z)%Z)) (constraint_coefficients c) /\
  Forall (fun z => (0 <= z)%Z) (constraint_last_values c).
Proof.
  unfold extract_coefficients. intro H.
  destruct (Re.ints (Re.findall Re.match_coeff (obj_f model))) as [oc|e|] eqn:Eo;
    try discriminate H.
  cbn [obind] in H.
  destruct (extract_constraints (constraints model)) as [[[rows ops] lasts]|e|] eqn:E;
    try discriminate H.
  simpl in H. injection H as <-. cbn.
  split; [exact (coefficients_nonneg _ _ Eo)|].
  revert rows ops lasts E.
  induction (constraints model) as [|s cs IH]; intros rows ops lasts E; simpl in E.
  - injection E as <- <- <-. split; constructor.
  - destruct (extract_constraint s) as [[[row op] last]|e|] eqn:Es; try discriminate E.
    simpl in E.
    destruct (extract_constraints cs) as [[[rows' ops'] lasts']|e|] eqn:Ecs;
      try discriminate E.
    simpl in E. injection E as <- <- <-.
    destruct (IH _ _ _ eq_refl) as [H1 H2].
    destruct (extract_constraint_nonneg _ _ _ _ Es) as [H3 H4].
    split; constructor; assumption.
Qed.

Lemma parsed_numbers_are_nonnegative_witness :
  extract_coefficients (mkModel "MINIMIZE" "-3*x1 + 2*x2" ["1*x1 - 4*x2 <= -2"] ["x1"; "x2"])
  = Ok (mkCoefficients [3; 2]%Z [[1; 4]%Z] ["<="] [2]%Z) /\
  (Forall (fun z => (0 <= z)%Z) [3; 2]%Z /\
   Forall (Forall (fun z => (0 <= z)%Z)) [[1; 4]%Z] /\
   Forall (fun z => (0 <= z)%Z) [2]%Z).
Proof.
  split; [reflexivity|].
  apply (parsed_numbers_are_nonnegative
           (mkModel "MINIMIZE" "-3*x1 + 2*x2" ["1*x1 - 4*x2 <= -2"] ["x1"; "x2"])
           (mkCoefficients [3; 2]%Z [[1; 4]%Z] ["<="] [2]%Z)).
  reflexivity.
Defined.

(** *** Which models parse *)

(** A first match that [findall] returns sits somewhere in the text. *)
Lemma findall_from_cons (m : Re.matcher) :
  forall fuel s g gs,
    Re.findall_from fuel m s = g :: gs ->
    exists pre t r, s = pre ++ t /\ m t = Some (g, r).
Proof.
  induction fuel as [|fuel IH]; intros s g gs H; simpl in H; [discriminate|].
  destruct (m s) as [[g' r]|] eqn:E.
  - injection H as <- _. exists [], s, r. split; [reflexivity|exact E].
  - destruct s as [|c s]; [discriminate|].
    destruct (IH s g gs H) as (pre & t & r & -> & Et).
    exists (c :: pre), t, r. split; [reflexivity|exact Et].
Qed.

Lemma operator_found (constraint : string) :
  Re.findall Re.match_op constraint <> [] <->
  exists c, In c (list_ascii_of_string constraint) /\ Re.is_opchar c = true.
Proof.
  split.
  - intro N. destruct (existsb Re.is_opchar (list_ascii_of_string constraint)) eqn:E.
    + apply existsb_exists in E. exact E.
    + exfalso. apply N. apply no_operator_found. intros c Hin.
      destruct (Re.is_opchar c) eqn:Ec; [|reflexivity].
      assert (existsb Re.is_opchar (list_ascii_of_string constraint) = true)
        by (apply existsb_exists; eauto).
      congruence.
  - intros (c & Hin & Hc) E. rewrite no_operator_found in E.
    rewrite (E c Hin) in Hc. discriminate.
Qed.

Lemma right_hand_side_found (constraint : string) :
  Re.findall Re.match_rhs constraint <> [] <->
  ends_in_number (list_ascii_of_string constraint).
Proof.
  split.
  - intro N. unfold Re.findall in N.
    destruct (Re.findall_from _ Re.match_rhs (list_ascii_of_string constraint))
      as [|g gs] eqn:E; [contradiction|].
    apply findall_from_cons in E as (pre & t & r & Es & Et).
    unfold Re.match_rhs in Et.
    destruct (span_spec Re.is_digit t) as [E1 Hd].
    destruct (Re.span Re.is_digit t) as [ds r1]. simpl in E1, Hd.
    destruct ds as [|d ds]; [discriminate|].
    destruct (span_spec Re.is_space r1) as [E2 Hs].
    destruct (Re.span Re.is_space r1) as [sp r2]. simpl in E2, Hs.
    destruct r2 as [|x r2]; [|discriminate].
    exists pre, (d :: ds), sp. rewrite app_nil_r in E2.
    repeat split; try assumption; [congruence|discriminate].
  - intros H E. apply no_right_hand_side_found in E. contradiction.
Qed.

Lemma parsed_constraint_parsable (constraint : string) (r : list Z * string * Z) :
  extract_constraint constraint = Ok r -> parsable constraint.
Proof.
  unfold parsable. rewrite <- operator_found, <- right_hand_side_found.
  unfold extract_constraint. intro H.
  destruct (Re.ints (Re.findall Re.match_coeff constraint)); try discriminate H.
  cbn [obind] in H.
  destruct (Re.findall Re.match_op constraint); [discriminate|].
  destruct (Re.findall Re.match_rhs constraint); [discriminate|].
  split; discriminate.
Qed.

Lemma parsable_constraint_parses (constraint : string) :
  numbers_fit constraint = true -> parsable constraint ->
  exists r, extract_constraint constraint = Ok r.
Proof.
  intros Fit P.
  destruct (extract_constraint_fit_outcome constraint Fit)
    as [(row & op & last & E)|E]; [eauto|].
  exfalso. revert P E. unfold parsable.
  rewrite <- operator_found, <- right_hand_side_found.
  unfold extract_constraint. rewrite (coefficients_fit constraint Fit). cbn [obind].
  intros [H1 H2].
  destruct (Re.findall Re.match_op constraint) as [|o os]; [contradiction|].
  destruct (Re.findall Re.match_rhs constraint) as [|g gs] eqn:El; [contradiction|].
  cbn [Re.first obind]. rewrite (right_hand_side_fits constraint g gs Fit El).
  discriminate.
Qed.

Lemma extract_constraints_length (cs : list string) rows ops lasts :
  extract_constraints cs = Ok (rows, ops, lasts) ->
  List.length rows = List.length cs /\ List.length ops = List.length cs /\
  List.length lasts = List.length cs.
Proof.
  revert rows ops lasts. induction cs as [|c cs IH]; intros rows ops lasts H; simpl in H.
  - injection H as <- <- <-. auto.
  - destruct (extract_constraint c) as [[[row op] last]|e|]; try discriminate H.
    simpl in H.
    destruct (extract_constraints cs) as [[[rows' ops'] lasts']|e|]; try discriminate H.
    simpl in H. injection H as <- <- <-.
    destruct (IH _ _ _ eq_refl) as (L1 & L2 & L3). simpl. auto.
Qed.

Lemma extract_constraints_parsable (cs : list string) :
  Forall (fun constraint => numbers_fit constraint = true) cs ->
  Forall parsable cs -> exists r, extract_constraints cs = Ok r.
Proof.
  intros Fit P. induction P as [|s cs Hs _ IH]; simpl.
  - eexists. reflexivity.
  - inversion Fit as [|? ? Fs Fcs]; subst.
    destruct (parsable_constraint_parses s Fs Hs) as [[[row op] last] Es].
    destruct (IH Fcs) as [[[rows ops] lasts] Ec].
    rewrite Es, Ec. simpl. eexists. reflexivity.
Qed.

Lemma parsed_model_parsable (model : Model) (c : Coefficients) :
  extract_coefficients model = Ok c -> Forall parsable (constraints model).
Proof.
  unfold extract_coefficients. intro H.
  destruct (Re.ints (Re.findall Re.match_coeff (obj_f model))); try discriminate H.
  cbn [obind] in H.
  destruct (extract_constraints (constraints model)) as [[[rows ops] lasts]|e|] eqn:E;
    try discriminate H.
  destruct (extract_constraints_ok _ _ _ _ E) as (_ & _ & Hall).
  apply Forall_forall. intros s Hin.
  destruct (Hall s Hin) as (row & op & last & Es & _).
  exact (parsed_constraint_parsable s _ Es).
Qed.

(** X15.  On a model of ASCII text none of whose numbers has more digits
    than [int] converts, [extract_coefficients] succeeds exactly when
    every constraint has an operator character and ends in a number; it
    then returns one coefficient row, one operator and one right-hand
    side per constraint.  Otherwise it raises [IndexError].  The objective
    text never makes it fail. *)
Theorem models_that_parse (model : Model) :
  ascii_model model ->
  numbers_fit_model model ->
  (Forall parsable (constraints model) ->
   exists c,
     extract_coefficients model = Ok c /\
     List.length (constraint_coefficients c) = List.length (constraints model) /\
     List.length (constraint_operators c) = List.length (constraints model) /\
     List.length (constraint_last_values c) = List.length (constraints model)) /\
  (~ Forall parsable (constraints model) ->
   extract_coefficients model = Raise IndexError).
Proof.
  intros _ Fit. split.
  - intro F. destruct (extract_coefficients_fit_outcome model Fit) as [[c E]|E].
    + exists c. split; [exact E|].
      unfold extract_coefficients in E.
      destruct (Re.ints (Re.findall Re.match_coeff (obj_f model))); try discriminate E.
      cbn [obind] in E.
      destruct (extract_constraints (constraints model)) as [[[rows ops] lasts]|e|] eqn:Ec;
        try discriminate E.
      simpl in E. injection E as <-. cbn.
      apply (extract_constraints_length _ _ _ _ Ec).
    + exfalso. unfold extract_coefficients in E. destruct Fit as [Fo Fc].
      rewrite (coefficients_fit _ Fo) in E. cbn [obind] in E.
      destruct (extract_constraints_parsable _ Fc F) as [[[rows ops] lasts] Er].
      rewrite Er in E. discriminate E.
  - intro N. destruct (extract_coefficients_fit_outcome model Fit) as [[c E]|E];
      [|exact E].
    exfalso. apply N. exact (parsed_model_parsable model c E).
Qed.

Lemma models_that_parse_witness :
  (Forall parsable (constraints Examples.scenario_model) ->
   exists c,
     extract_coefficients Examples.scenario_model = Ok c /\
     List.length (constraint_coefficients c)
     = List.length (constraints Examples.scenario_model) /\
     List.length (constraint_operators c)
     = List.length (constraints Examples.scenario_model) /\
     List.length (constraint_last_values c)
     = List.length (constraints Examples.scenario_model)) /\
  (~ Forall parsable (constraints Examples.scenario_model) ->
   extract_coefficients Examples.scenario_model = Raise IndexError).
Proof.
  apply (models_that_parse Examples.scenario_model).
  - split; [reflexivity|repeat constructor].
  - split; [reflexivity|repeat constructor].
Defined.

(** *** Reading back a constraint written the documented way *)

(** Positions at which the pattern cannot match are passed over. *)
Lemma findall_from_skip (m : Re.matcher) (pre t : list ascii) :
  (forall p q, pre = p ++ q -> q <> [] -> m (q ++ t) = None) ->
  forall fuel,
    Re.findall_from (List.length pre + fuel) m (pre ++ t) = Re.findall_from fuel m t.
Proof.
  induction pre as [|c pre IH]; intros H fuel; [reflexivity|].
  cbn [List.length Nat.add app Re.findall_from].
  assert (N : m (c :: pre ++ t) = None)
    by (apply (H [] (c :: pre) eq_refl); discriminate).
  rewrite N.
  apply IH. intros p q E Hq. apply (H (c :: p) q); [|exact Hq]. simpl. now f_equal.
Qed.

(** The first match after a stretch without one. *)
Lemma findall_first (m : Re.matcher) (pre t g r : list ascii) :
  (forall p q, pre = p ++ q -> q <> [] -> m (q ++ t) = None) ->
  m t = Some (g, r) ->
  Re.first (Re.findall m (string_of_list_ascii (pre ++ t))) = Ok g.
Proof.
  intros Hpre Ht. unfold Re.findall. rewrite list_ascii_of_string_of_list_ascii.
  rewrite length_app, <- Nat.add_succ_r, (findall_from_skip m pre t Hpre).
  simpl. rewrite Ht. reflexivity.
Qed.

Lemma match_coeff_some t g r :
  Re.match_coeff t = Some (g, r) ->
  exists sp, t = (g ++ sp) ++ "*"%char :: r /\ g <> [] /\
             Forall (fun c => Re.is_digit c = true) g /\
             Forall (fun c => Re.is_space c = true) sp.
Proof.
  unfold Re.match_coeff. destruct (span_spec Re.is_digit t) as [E1 Hd].
  destruct (Re.span Re.is_digit t) as [ds r1]. simpl in E1, Hd.
  destruct ds as [|d ds]; [discriminate|].
  destruct (span_spec Re.is_space r1) as [E2 Hs].
  destruct (Re.span Re.is_space r1) as [sp r2]. simpl in E2, Hs.
  destruct r2 as [|c r3]; [discriminate|].
  destruct (Ascii.eqb_spec c "*"); [|discriminate].
  intro H. injection H as <- <-. exists sp. subst c.
  repeat split; try assumption; [|discriminate].
  rewrite <- app_assoc. congruence.
Qed.

Lemma match_rhs_some t g r :
  Re.match_rhs t = Some (g, r) ->
  exists sp, t = g ++ sp /\ g <> [] /\
             Forall (fun c => Re.is_digit c = true) g /\
             Forall (fun c => Re.is_space c = true) sp.
Proof.
  unfold Re.match_rhs. destruct (span_spec Re.is_digit t) as [E1 Hd].
  destruct (Re.span Re.is_digit t) as [ds r1]. simpl in E1, Hd.
  destruct ds as [|d ds]; [discriminate|].
  destruct (span_spec Re.is_space r1) as [E2 Hs].
  destruct (Re.span Re.is_space r1) as [sp r2]. simpl in E2, Hs.
  destruct r2 as [|c r3]; [|discriminate].
  intro H. injection H as <- _. exists sp. rewrite app_nil_r in E2.
  repeat split; try assumption; [congruence|discriminate].
Qed.

Lemma match_coeff_number (ds r : list ascii) :
  number ds -> Re.match_coeff (ds ++ "*"%char :: r) = Some (ds, r).
Proof.
  intros [Hne Hd]. unfold Re.match_coeff.
  rewrite (span_app Re.is_digit ds ("*"%char :: r) Hd eq_refl).
  destruct ds; [contradiction|]. reflexivity.
Qed.

Lemma match_rhs_number (ds : list ascii) :
  number ds -> Re.match_rhs ds = Some (ds, []).
Proof.
  intros [Hne Hd]. unfold Re.match_rhs.
  pose proof (span_app Re.is_digit ds [] Hd I) as Sp. rewrite app_nil_r in Sp.
  rewrite Sp. destruct ds; [contradiction|]. reflexivity.
Qed.

Lemma match_op_run (op r : list ascii) :
  op <> [] -> Forall (fun c => Re.is_opchar c = true) op ->
  match r with [] => True | c :: _ => Re.is_opchar c = false end ->
  Re.match_op (op ++ r) = Some (op, r).
Proof.
  intros Hne Ho Hr. unfold Re.match_op. rewrite (span_app Re.is_opchar op r Ho Hr).
  destruct op; [contradiction|]. reflexivity.
Qed.

(** What the character classes exclude. *)
Lemma digit_is_plain (c : ascii) : Re.is_digit c = true -> plain c = true.
Proof.
  intro H. unfold plain.
  assert (A : (nat_of_ascii c <? 128)%nat = true).
  { unfold Re.is_digit in H. cbv zeta in H. apply andb_true_iff in H as [_ H].
    apply Nat.leb_le in H. apply Nat.ltb_lt. lia. }
  rewrite A.
  destruct (Re.is_space c) eqn:Es;
    [apply space_is_no_digit in Es; congruence|].
  unfold Re.is_opchar.
  destruct (Ascii.eqb_spec c "<") as [->|_]; [discriminate H|].
  destruct (Ascii.eqb_spec c ">") as [->|_]; [discriminate H|].
  destruct (Ascii.eqb_spec c "=") as [->|_]; [discriminate H|].
  destruct (Ascii.eqb_spec c "*") as [->|_]; [discriminate H|].
  reflexivity.
Qed.

Lemma plain_spec (c : ascii) :
  plain c = true ->
  Re.is_space c = false /\ Re.is_opchar c = false /\ c <> "*"%char.
Proof.
  unfold plain. intro H. apply andb_true_iff in H as [H H3].
  apply andb_true_iff in H as [H H2]. apply andb_true_iff in H as [_ H1].
  apply negb_true_iff in H1, H2, H3. repeat split; try assumption.
  intros ->. discriminate H3.
Qed.

Lemma opchar_spec (c : ascii) :
  Re.is_opchar c = true ->
  Re.is_space c = false /\ Re.is_digit c = false /\ c <> "*"%char.
Proof.
  unfold Re.is_opchar. intro H.
  destruct (Ascii.eqb_spec c "<") as [E|_];
    [subst c; repeat split; try reflexivity; discriminate|].
  destruct (Ascii.eqb_spec c ">") as [E|_];
    [subst c; repeat split; try reflexivity; discriminate|].
  destruct (Ascii.eqb_spec c "=") as [E|_];
    [subst c; repeat split; try reflexivity; discriminate|].
  discriminate H.
Qed.

(** A text read up to its first [*]. *)
Lemma prefix_before_star (q u r t : list ascii) :
  u ++ "*"%char :: r = q ++ t -> ~ In "*"%char q -> exists v, u = q ++ v.
Proof.
  revert u. induction q as [|c q IH]; intros u E N; [exists u; reflexivity|].
  destruct u as [|c' u]; simpl in E.
  - injection E as <- _. exfalso. apply N. now left.
  - injection E as -> E. destruct (IH u E) as [v ->].
    + intro Hin. apply N. now right.
    + exists v. reflexivity.
Qed.

(** A coefficient cannot start inside a stretch that has no [*] and
    holds something other than digits followed by blanks. *)
Lemma match_coeff_blocked (q t : list ascii) (x : ascii) :
  ~ In "*"%char q -> In x q ->
  Re.is_digit x = false -> Re.is_space x = false ->
  Re.match_coeff (q ++ t) = None.
Proof.
  intros Nstar Hx Hd Hs.
  destruct (Re.match_coeff (q ++ t)) as [[g r]|] eqn:E; [|reflexivity].
  exfalso. apply match_coeff_some in E as (sp & E & _ & Fd & Fs).
  destruct (prefix_before_star q (g ++ sp) r t (eq_sym E) Nstar) as [v Ev].
  assert (Hin : In x (g ++ sp)) by (rewrite Ev; apply in_or_app; now left).
  apply in_app_or in Hin as [Hin|Hin].
  - rewrite Forall_forall in Fd. rewrite (Fd x Hin) in Hd. discriminate.
  - rewrite Forall_forall in Fs. rewrite (Fs x Hin) in Hs. discriminate.
Qed.

Lemma match_coeff_no_digit (c : ascii) (s : list ascii) :
  Re.is_digit c = false -> Re.match_coeff (c :: s) = None.
Proof. intro H. unfold Re.match_coeff. simpl. rewrite H. reflexivity. Qed.

(** Without a [*] there is no coefficient. *)
Lemma no_star_no_coefficient (s : list ascii) (fuel : nat) :
  (List.length s < fuel)%nat -> ~ In "*"%char s ->
  Re.findall_from fuel Re.match_coeff s = [].
Proof.
  intros L N. apply findall_from_nil; [exact L|]. intros pre t E.
  destruct (Re.match_coeff t) as [[g r]|] eqn:Em; [|reflexivity].
  exfalso. apply N. apply match_coeff_some in Em as (sp & -> & _).
  rewrite E. apply in_or_app. right. apply in_or_app. right. now left.
Qed.

Lemma plain_no_star (n : list ascii) :
  Forall (fun c => plain c = true) n -> ~ In "*"%char n.
Proof.
  intros F Hin. rewrite Forall_forall in F. apply F in Hin. discriminate Hin.
Qed.

Section Coefficients.

(** What follows the sum; it has no [*]. *)
Variable tail : list ascii.
Hypothesis tail_no_star : ~ In "*"%char tail.

(** Scanning for coefficients from inside a variable name finds exactly
    the coefficients of the terms that follow. *)
Lemma coefficients_after_name (ts : list (list ascii * list ascii)) :
  Forall well_formed_term ts ->
  forall (n : list ascii) (fuel : nat),
    Forall (fun c => plain c = true) n ->
    (List.length (n ++ more_terms ts ++ tail) < fuel)%nat ->
    Re.findall_from fuel Re.match_coeff (n ++ more_terms ts ++ tail) = map fst ts.
Proof.
  induction 1 as [|[ds n'] ts [[Hds _] Hn'] _ IH]; intros n fuel Hn L.
  - cbn [more_terms app map]. apply no_star_no_coefficient; [exact L|].
    intro Hin. apply in_app_or in Hin as [Hin|Hin].
    + now apply (plain_no_star n Hn).
    + now apply tail_no_star.
  - cbn [more_terms map fst snd] in *. unfold term_text in *. cbn [fst snd] in *.
    set (t := ds ++ "*"%char :: n' ++ more_terms ts ++ tail).
    set (pre := n ++ [" "; "+"; " "]%char).
    assert (Et : n ++ (" "%char :: "+"%char :: " "%char ::
                         (ds ++ "*"%char :: n') ++ more_terms ts) ++ tail = pre ++ t).
    { unfold pre, t. repeat (rewrite <- app_assoc || cbn [app]). reflexivity. }
    rewrite Et in *. rewrite length_app in L.
    replace fuel with (List.length pre + (fuel - List.length pre))%nat by lia.
    rewrite findall_from_skip.
    + destruct (fuel - List.length pre)%nat as [|f] eqn:Ef; [lia|].
      cbn [Re.findall_from]. unfold t at 1.
      rewrite (match_coeff_number ds _ Hds). f_equal. apply IH; [exact Hn'|].
      unfold t in L. rewrite length_app in L. cbn [List.length] in L. lia.
    + intros p q E Hq.
      assert (Nstar : ~ In "*"%char q).
      { intro Hin. assert (Hpre : In "*"%char pre)
          by (rewrite E; apply in_or_app; now right).
        unfold pre in Hpre. apply in_app_or in Hpre as [Hpre|Hpre].
        - now apply (plain_no_star n Hn).
        - simpl in Hpre. intuition discriminate. }
      unfold pre in E. apply app_eq_app in E as [l [[_ E]|[_ E]]].
      * subst q. apply (match_coeff_blocked _ _ "+"%char Nstar);
          [apply in_or_app; right; simpl; auto|reflexivity|reflexivity].
      * destruct l as [|a [|b [|c l]]]; simpl in E.
        -- subst q. apply (match_coeff_blocked _ _ "+"%char Nstar);
             [simpl; auto|reflexivity|reflexivity].
        -- injection E as _ <-. apply (match_coeff_blocked _ _ "+"%char Nstar);
             [simpl; auto|reflexivity|reflexivity].
        -- injection E as _ _ <-. apply match_coeff_no_digit. reflexivity.
        -- injection E as _ _ _ E. symmetry in E. apply app_eq_nil in E as [_ ->].
           contradiction.
Qed.

(** The coefficients of a sum of terms are found in order. *)
Lemma sum_coefficients (ts : list (list ascii * list ascii)) :
  Forall well_formed_term ts ->
  Re.findall Re.match_coeff (string_of_list_ascii (sum_text ts ++ tail)) = map fst ts.
Proof.
  intro F. unfold Re.findall. rewrite list_ascii_of_string_of_list_ascii.
  destruct F as [|[ds n] ts [[Hds _] Hn] F].
  - apply (coefficients_after_name [] (Forall_nil _) []); [constructor|].
    cbn [more_terms sum_text app]. lia.
  - cbn [sum_text map fst snd] in *. unfold term_text. cbn [fst snd] in *.
    replace (((ds ++ "*"%char :: n) ++ more_terms ts) ++ tail)
      with (ds ++ "*"%char :: n ++ more_terms ts ++ tail)
      by (rewrite <- !app_assoc; reflexivity).
    cbn [Re.findall_from]. rewrite (match_coeff_number ds _ Hds). f_equal.
    apply coefficients_after_name; [exact F|exact Hn|].
    rewrite (length_app ds). cbn [List.length]. lia.
Qed.

End Coefficients.

Section RoundTrip.

Variables op rhs : list ascii.
Hypothesis op_nonempty : op <> [].
Hypothesis op_chars : Forall (fun c => Re.is_opchar c = true) op.
Hypothesis rhs_number : number rhs.

Lemma constraint_tail_no_star : ~ In "*"%char (" "%char :: op ++ " "%char :: rhs).
Proof.
  intros [H|H]; [discriminate H|].
  apply in_app_or in H as [H|[H|H]]; [|discriminate H|].
  - rewrite Forall_forall in op_chars. apply op_chars, opchar_spec in H.
    now apply (proj2 (proj2 H)).
  - destruct rhs_number as [_ F]. rewrite Forall_forall in F.
    apply F in H. discriminate H.
Qed.

Lemma text_coefficients (ts : list (list ascii * list ascii)) :
  Forall well_formed_term ts ->
  Re.findall Re.match_coeff (string_of_list_ascii (constraint_text ts op rhs))
  = map fst ts.
Proof. intro F. apply sum_coefficients; [exact constraint_tail_no_star|exact F]. Qed.

Lemma sum_text_no_opchar (ts : list (list ascii * list ascii)) :
  Forall well_formed_term ts ->
  Forall (fun c => Re.is_opchar c = false) (sum_text ts).
Proof.
  assert (T : forall t, well_formed_term t ->
                Forall (fun c => Re.is_opchar c = false) (term_text t)).
  { intros [ds n] [[[_ Hd] _] Hn]. unfold term_text. cbn [fst snd] in *.
    apply Forall_app. split; [|constructor; [reflexivity|]].
    - eapply Forall_impl; [|exact Hd]. intros c Hc.
      apply digit_is_plain, plain_spec in Hc. apply Hc.
    - eapply Forall_impl; [|exact Hn]. intros c Hc. apply plain_spec in Hc. apply Hc. }
  assert (M : forall ts, Forall well_formed_term ts ->
                Forall (fun c => Re.is_opchar c = false) (more_terms ts)).
  { induction 1 as [|t ts' Ht _ IH]; cbn [more_terms]; [constructor|].
    repeat (constructor; [reflexivity|]). apply Forall_app. split; [now apply T|exact IH]. }
  intros [|t ts' Ht F]; cbn [sum_text]; [constructor|].
  apply Forall_app. split; [now apply T|now apply M].
Qed.

Lemma text_operator (ts : list (list ascii * list ascii)) :
  Forall well_formed_term ts ->
  Re.first (Re.findall Re.match_op (string_of_list_ascii (constraint_text ts op rhs)))
  = Ok op.
Proof.
  intro F. unfold constraint_text.
  replace (sum_text ts ++ " "%char :: op ++ " "%char :: rhs)
    with ((sum_text ts ++ [" "%char]) ++ op ++ " "%char :: rhs)
    by (rewrite <- app_assoc; reflexivity).
  apply (findall_first _ _ _ op (" "%char :: rhs)).
  - intros p q E Hq. destruct q as [|c q]; [contradiction|].
    assert (Hc : Re.is_opchar c = false).
    { assert (Hin : In c (sum_text ts ++ [" "%char]))
        by (rewrite E; apply in_or_app; right; now left).
      apply in_app_or in Hin as [Hin|[<-|[]]]; [|reflexivity].
      pose proof (sum_text_no_opchar ts F) as N. rewrite Forall_forall in N.
      now apply N. }
    unfold Re.match_op. simpl. rewrite Hc. reflexivity.
  - apply match_op_run; [exact op_nonempty|exact op_chars|reflexivity].
Qed.

(** A digit right after a blank keeps the text before it from being the
    number at the end. *)
Lemma match_rhs_blocked (a b : list ascii) (s d : ascii) :
  Re.is_space s = true -> Re.is_digit d = true ->
  Re.match_rhs (a ++ s :: d :: b) = None.
Proof.
  intros Hs Hd. destruct (Re.match_rhs (a ++ s :: d :: b)) as [[g r]|] eqn:E;
    [|reflexivity].
  exfalso. apply match_rhs_some in E as (sp & E & _ & Fd & Fs).
  rewrite Forall_forall in Fd, Fs. symmetry in E.
  apply app_eq_app in E as [l [[E1 E2]|[E1 E2]]].
  - destruct l as [|x l]; simpl in E2.
    + assert (Hin : In d sp) by (rewrite <- E2; right; now left).
      apply Fs, space_is_no_digit in Hin. congruence.
    + injection E2 as <- E2.
      assert (Hin : In s g) by (rewrite E1; apply in_or_app; right; now left).
      apply Fd in Hin. apply space_is_no_digit in Hs. congruence.
  - assert (Hin : In d sp).
    { rewrite E2. apply in_or_app. right. right. now left. }
    apply Fs, space_is_no_digit in Hin. congruence.
Qed.

Lemma text_right_hand_side (ts : list (list ascii * list ascii)) :
  Re.first (Re.findall Re.match_rhs (string_of_list_ascii (constraint_text ts op rhs)))
  = Ok rhs.
Proof.
  unfold constraint_text.
  replace (sum_text ts ++ " "%char :: op ++ " "%char :: rhs)
    with ((sum_text ts ++ " "%char :: op ++ [" "%char]) ++ rhs)
    by (rewrite <- !app_assoc; simpl; rewrite <- app_assoc; reflexivity).
  apply (findall_first _ _ _ rhs []).
  - intros p q E Hq.
    destruct (exists_last Hq) as (q' & x & ->).
    assert (x = " "%char) as ->.
    { replace (sum_text ts ++ " "%char :: op ++ [" "%char])
        with ((sum_text ts ++ " "%char :: op) ++ [" "%char]) in E
        by (rewrite <- !app_assoc; reflexivity).
      rewrite app_assoc in E. apply app_inj_tail in E as [_ E]. now symmetry. }
    destruct rhs_number as [Hne Hd]. destruct rhs as [|d ds]; [contradiction|].
    rewrite <- app_assoc. simpl. apply match_rhs_blocked; [reflexivity|].
    now inversion Hd.
  - apply match_rhs_number. exact rhs_number.
Qed.

End RoundTrip.

(** The coefficients of well-formed terms are numbers [int] converts. *)
Lemma terms_fit (ts : list (list ascii * list ascii)) :
  Forall well_formed_term ts ->
  Re.ints (map fst ts) = Ok (coefficients_of ts).
Proof.
  intro F. rewrite ints_fit.
  - unfold coefficients_of. now rewrite map_map.
  - apply Forall_map. eapply Forall_impl; [|exact F]. intros t [[_ L] _]. exact L.
Qed.

(** A constraint written the documented way is read back as written. *)
Lemma documented_row_is_read_back (r : Row) :
  well_formed_row r -> extract_constraint (row_text r) = Ok (row_meaning r).
Proof.
  destruct r as [[ts op] rhs]. intros (F & Hne & Hop & Hrhs & Lrhs).
  unfold extract_constraint, row_text, row_meaning.
  rewrite (text_coefficients op rhs Hop Hrhs ts F), (terms_fit ts F). cbn [obind].
  rewrite (text_operator op rhs Hne Hop ts F). cbn [obind].
  rewrite (text_right_hand_side op rhs Hrhs ts). cbn [obind].
  rewrite (int_fits rhs Lrhs). reflexivity.
Qed.

(** X16.  A model written the documented way is read back as written.
    Its objective is [c1*v1 + c2*v2 + ...] and each constraint
    [c1*v1 + c2*v2 + ... <op> <rhs>], with coefficients and right-hand
    sides runs of at most 4300 digits, names of ASCII characters free of
    blanks, [*] and operator characters, and operators runs of [<], [>],
    [=].  The parser returns the objective coefficients in order and, per
    constraint, its coefficients in order, its operator text and its
    right-hand side. *)
Theorem documented_model_is_read_back
  (sense : string) (objective : list (list ascii * list ascii))
  (rows : list Row) (names : list string) :
  Forall well_formed_term objective ->
  Forall well_formed_row rows ->
  extract_coefficients (written_model sense objective rows names)
  = Ok (model_meaning objective rows).
Proof.
  intros Fo Fr. unfold extract_coefficients, written_model, model_meaning.
  cbn [obj_f constraints].
  assert (E : extract_constraints (map row_text rows)
              = Ok (map (fun r => fst (fst (row_meaning r))) rows,
                    map (fun r => snd (fst (row_meaning r))) rows,
                    map (fun r => snd (row_meaning r)) rows)).
  { induction Fr as [|r rows Hr _ IH]; [reflexivity|].
    cbn [map extract_constraints]. rewrite (documented_row_is_read_back r Hr), IH.
    destruct (row_meaning r) as [[row op] last]. reflexivity. }
  pose proof (sum_coefficients [] (fun H => H) objective Fo) as S.
  rewrite app_nil_r in S. rewrite S, (terms_fit objective Fo). cbn [obind].
  rewrite E. reflexivity.
Qed.

Ltac literal_now :=
  split; [split; [discriminate|repeat constructor]|apply Nat.leb_le; reflexivity].

Lemma documented_model_is_read_back_witness :
  written_model "MAXIMIZE"
    [(list_ascii_of_string "5", list_ascii_of_string "x1");
     (list_ascii_of_string "4", list_ascii_of_string "x2")]
    [([(list_ascii_of_string "2", list_ascii_of_string "x1");
       (list_ascii_of_string "13", list_ascii_of_string "x2")],
      list_ascii_of_string "<=", list_ascii_of_string "40")]
    ["x1"; "x2"]
  = mkModel "MAXIMIZE" "5*x1 + 4*x2" ["2*x1 + 13*x2 <= 40"] ["x1"; "x2"] /\
  extract_coefficients
    (mkModel "MAXIMIZE" "5*x1 + 4*x2" ["2*x1 + 13*x2 <= 40"] ["x1"; "x2"])
  = Ok (mkCoefficients [5; 4]%Z [[2; 13]%Z] ["<="] [40]%Z).
Proof.
  split; [reflexivity|].
  apply (documented_model_is_read_back "MAXIMIZE"
           [(list_ascii_of_string "5", list_ascii_of_string "x1");
            (list_ascii_of_string "4", list_ascii_of_string "x2")]
           [([(list_ascii_of_string "2", list_ascii_of_string "x1");
              (list_ascii_of_string "13", list_ascii_of_string "x2")],
             list_ascii_of_string "<=", list_ascii_of_string "40")]
           ["x1"; "x2"]).
  - repeat (apply Forall_cons; [split; [literal_now|repeat constructor]|]).
    apply Forall_nil.
  - apply Forall_cons; [|apply Forall_nil].
    split; [|split; [discriminate|split; [repeat constructor|literal_now]]].
    repeat (apply Forall_cons; [split; [literal_now|repeat constructor]|]).
    apply Forall_nil.
Defined.

(** ** The model file reader *)

Lemma append_nil_r (s : string) : (s ++ EmptyString)%string = s.
Proof. induction s as [|c s IH]; simpl; [reflexivity|now rewrite IH]. Qed.

Lemma append_assoc (a b c : string) : ((a ++ b) ++ c)%string = (a ++ b ++ c)%string.
Proof. induction a as [|x a IH]; simpl; [reflexivity|now rewrite IH]. Qed.

Lemma lstrip_clean (s : string) : starts_clean (Str.lstrip s).
Proof.
  induction s as [|c s IH]; simpl; [exact I|].
  destruct (Re.is_space c) eqn:E; [exact IH|exact E].
Qed.

Lemma lstrip_of_clean (s : string) : starts_clean s -> Str.lstrip s = s.
Proof. destruct s as [|c s]; simpl; [reflexivity|]. now intros ->. Qed.

Lemma lstrip_blank_app (sp s : string) :
  blank sp = true -> Str.lstrip (sp ++ s) = Str.lstrip s.
Proof.
  induction sp as [|c sp IH]; simpl; [reflexivity|].
  intro H. apply andb_true_iff in H as [-> H]. now apply IH.
Qed.

Lemma lstrip_blank (sp : string) : blank sp = true -> Str.lstrip sp = EmptyString.
Proof.
  intro H. rewrite <- (append_nil_r sp). now rewrite lstrip_blank_app.
Qed.

Lemma rstrip_blank (sp : string) : blank sp = true -> Str.rstrip sp = EmptyString.
Proof.
  induction sp as [|c sp IH]; simpl; [reflexivity|].
  intro H. apply andb_true_iff in H as [Hc H]. now rewrite (IH H), Hc.
Qed.

Lemma rstrip_app_blank (s sp : string) :
  blank sp = true -> Str.rstrip (s ++ sp) = Str.rstrip s.
Proof.
  intro H. induction s as [|c s IH]; simpl; [now apply rstrip_blank|].
  now rewrite IH.
Qed.

Lemma rstrip_keeps_head (s : string) : starts_clean s -> starts_clean (Str.rstrip s).
Proof.
  destruct s as [|c s]; simpl; [trivial|]. intro H.
  destruct (Str.rstrip s); [rewrite H|]; exact H.
Qed.

Lemma rstrip_idem (s : string) : Str.rstrip (Str.rstrip s) = Str.rstrip s.
Proof.
  induction s as [|c s IH]; simpl; [reflexivity|].
  destruct (Str.rstrip s) as [|d r] eqn:E.
  - destruct (Re.is_space c) eqn:Ec; simpl; [reflexivity|now rewrite Ec].
  - change (Str.rstrip (String c (String d r))) with
      (match Str.rstrip (String d r) with
       | EmptyString => if Re.is_space c then EmptyString else String c EmptyString
       | r' => String c r'
       end).
    rewrite IH. reflexivity.
Qed.

(** Stripping twice is stripping once. *)
Lemma strip_idem (s : string) : Str.strip (Str.strip s) = Str.strip s.
Proof.
  unfold Str.strip.
  rewrite (lstrip_of_clean (Str.rstrip (Str.lstrip s)))
    by apply rstrip_keeps_head, lstrip_clean.
  apply rstrip_idem.
Qed.

Lemma strip_fixed (x : string) :
  Str.strip x = x -> starts_clean x /\ Str.rstrip x = x.
Proof.
  intro H.
  assert (C : starts_clean x).
  { rewrite <- H. apply rstrip_keeps_head, lstrip_clean. }
  split; [exact C|]. unfold Str.strip in H. now rewrite (lstrip_of_clean x C) in H.
Qed.

Lemma strip_blank_app (sp x : string) :
  blank sp = true -> Str.strip (sp ++ x) = Str.strip x.
Proof. intro H. unfold Str.strip. now rewrite lstrip_blank_app. Qed.

Lemma strip_app_blank (x sp : string) :
  blank sp = true -> Str.strip (x ++ sp) = Str.strip x.
Proof.
  intro H. unfold Str.strip. induction x as [|c x IH]; simpl.
  - now rewrite (lstrip_blank sp H).
  - destruct (Re.is_space c) eqn:Ec; [exact IH|].
    change (String c (x ++ sp)%string) with (String c x ++ sp)%string.
    now apply rstrip_app_blank.
Qed.

(** Blanks around a trimmed text are stripped off again. *)
Lemma strip_padded (x y : string) : Str.strip x = x -> padded x y -> Str.strip y = x.
Proof.
  intros Hx (sp1 & sp2 & H1 & H2 & ->).
  now rewrite (strip_blank_app sp1 _ H1), (strip_app_blank x sp2 H2).
Qed.

(** *** Commas *)

Lemma mentions_app (c : ascii) (a b : string) :
  mentions c (a ++ b) = mentions c a || mentions c b.
Proof.
  induction a as [|x a IH]; simpl; [reflexivity|]. now rewrite IH, orb_assoc.
Qed.

Lemma blank_no_comma (sp : string) : blank sp = true -> mentions "," sp = false.
Proof.
  induction sp as [|c sp IH]; simpl; [reflexivity|].
  intro H. apply andb_true_iff in H as [Hc H]. rewrite (IH H), orb_false_r.
  destruct (Ascii.eqb_spec c ","); [subst c; discriminate Hc|reflexivity].
Qed.

Lemma lstrip_mentions (c : ascii) (s : string) :
  mentions c s = false -> mentions c (Str.lstrip s) = false.
Proof.
  induction s as [|x s IH]; simpl; [trivial|]. intro H.
  apply orb_false_iff in H as [H1 H2].
  destruct (Re.is_space x); [now apply IH|]. simpl. now rewrite H1, H2.
Qed.

Lemma rstrip_mentions (c : ascii) (s : string) :
  mentions c s = false -> mentions c (Str.rstrip s) = false.
Proof.
  induction s as [|x s IH]; simpl; [trivial|]. intro H.
  apply orb_false_iff in H as [H1 H2]. specialize (IH H2).
  destruct (Str.rstrip s) as [|d r].
  - destruct (Re.is_space x); simpl; [reflexivity|now rewrite H1].
  - cbn [mentions] in *. now rewrite H1, IH.
Qed.

Lemma strip_mentions (c : ascii) (s : string) :
  mentions c s = false -> mentions c (Str.strip s) = false.
Proof. intro H. now apply rstrip_mentions, lstrip_mentions. Qed.

Lemma split_cons (sep : ascii) (s : string) :
  exists p ps, Str.split sep s = p :: ps.
Proof.
  induction s as [|c s (p & ps & IH)]; simpl; [eauto|].
  destruct (Ascii.eqb c sep); [eauto|]. rewrite IH. eauto.
Qed.

Lemma split_whole (sep : ascii) (x : string) :
  mentions sep x = false -> Str.split sep x = [x].
Proof.
  induction x as [|c x IH]; simpl; [reflexivity|]. intro H.
  apply orb_false_iff in H as [-> H]. now rewrite (IH H).
Qed.

Lemma split_app (sep : ascii) (x rest : string) :
  mentions sep x = false ->
  Str.split sep (x ++ String sep rest) = x :: Str.split sep rest.
Proof.
  induction x as [|c x IH]; simpl.
  - now rewrite Ascii.eqb_refl.
  - intro H. apply orb_false_iff in H as [-> H]. now rewrite (IH H).
Qed.

Lemma split_pieces (sep : ascii) (s : string) :
  Forall (fun p => mentions sep p = false) (Str.split sep s).
Proof.
  induction s as [|c s IH]; simpl; [repeat constructor|].
  destruct (Ascii.eqb c sep) eqn:E; [constructor; [reflexivity|exact IH]|].
  destruct (Str.split sep s) as [|p ps]; [repeat constructor; simpl; now rewrite E|].
  inversion IH; subst. constructor; [simpl; now rewrite E|assumption].
Qed.

(** Splitting what was joined gives the pieces back. *)
Lemma split_join (ps : list string) :
  ps <> [] -> Forall (fun p => mentions "," p = false) ps ->
  Str.split "," (Str.join "," ps) = ps.
Proof.
  intros Hne F. induction F as [|p ps Hp F IH]; [contradiction|].
  cbn [Str.join]. destruct ps as [|q ps]; [now apply split_whole|].
  change ("," ++ Str.join "," (q :: ps))%string with (String "," (Str.join "," (q :: ps))).
  rewrite (split_app "," p _ Hp). f_equal. apply IH. discriminate.
Qed.

(** Blanks before the first and after the last piece do not change what
    the pieces strip to. *)
Lemma split_blank_front (sp m : string) :
  blank sp = true ->
  map Str.strip (Str.split "," (sp ++ m)) = map Str.strip (Str.split "," m).
Proof.
  induction sp as [|c sp IH]; simpl; [reflexivity|]. intro H.
  apply andb_true_iff in H as [Hc H]. specialize (IH H).
  destruct (Ascii.eqb_spec c ","); [subst c; discriminate Hc|].
  destruct (split_cons "," (sp ++ m)) as (p & ps & E). rewrite E in *.
  cbn [map] in *. rewrite <- IH. f_equal.
  unfold Str.strip. simpl. now rewrite Hc.
Qed.

Lemma split_app_last (sep : ascii) (m sp : string) :
  mentions sep sp = false ->
  Str.split sep (m ++ sp) = app_last (Str.split sep m) sp.
Proof.
  intro H. induction m as [|c m IH]; simpl; [now apply split_whole|].
  destruct (split_cons sep m) as (p & ps & E). rewrite IH, E.
  destruct (Ascii.eqb c sep); cbn [app_last]; [reflexivity|].
  destruct ps; reflexivity.
Qed.

Lemma split_blank_back (m sp : string) :
  blank sp = true ->
  map Str.strip (Str.split "," (m ++ sp)) = map Str.strip (Str.split "," m).
Proof.
  intro H. rewrite (split_app_last "," m sp (blank_no_comma sp H)).
  induction (Str.split "," m) as [|p ps IH]; [reflexivity|].
  cbn [app_last]. destruct ps as [|q ps].
  - cbn [map]. now rewrite (strip_app_blank p sp H).
  - cbn [map] in *. now rewrite IH.
Qed.

Lemma lstrip_spec (s : string) :
  exists sp, blank sp = true /\ s = (sp ++ Str.lstrip s)%string.
Proof.
  induction s as [|c s (sp & H & E)]; simpl; [exists EmptyString; auto|].
  destruct (Re.is_space c) eqn:Ec.
  - exists (String c sp). simpl. rewrite Ec, H. split; [reflexivity|now f_equal].
  - exists EmptyString. auto.
Qed.

Lemma rstrip_spec (s : string) :
  exists sp, blank sp = true /\ s = (Str.rstrip s ++ sp)%string.
Proof.
  induction s as [|c s (sp & H & E)]; simpl; [exists EmptyString; auto|].
  destruct (Str.rstrip s) as [|d r].
  - destruct (Re.is_space c) eqn:Ec.
    + exists (String c sp). simpl in *. rewrite Ec, H. split; [reflexivity|now f_equal].
    + exists sp. split; [exact H|]. simpl in *. now f_equal.
  - exists sp. split; [exact H|]. simpl in *. now f_equal.
Qed.

(** Stripping a line before splitting it changes nothing once the pieces
    are stripped. *)
Lemma strip_then_split (line : string) :
  map Str.strip (Str.split "," (Str.strip line)) = map Str.strip (Str.split "," line).
Proof.
  destruct (lstrip_spec line) as (sp1 & H1 & E1).
  destruct (rstrip_spec (Str.lstrip line)) as (sp2 & H2 & E2).
  rewrite E1 at 2. rewrite E2. fold (Str.strip line).
  now rewrite (split_blank_front _ _ H1), (split_blank_back _ _ H2).
Qed.

(** A line that lists fields is read back as those fields. *)
Lemma listed_fields (xs : list string) (line : string) :
  xs <> [] -> Forall field xs -> lists xs line ->
  map Str.strip (Str.split "," line) = xs.
Proof.
  intros Hne F (ps & P & ->).
  assert (Hps : ps <> []) by (destruct P; [contradiction|discriminate]).
  rewrite (split_join ps Hps).
  - clear Hne Hps. induction P as [|x p xs ps Hp P IH]; [reflexivity|].
    inversion F as [|? ? [Hx _] F']; subst. cbn [map].
    rewrite (strip_padded x p Hx Hp). f_equal. now apply IH.
  - clear Hne Hps. induction P as [|x p xs ps (sp1 & sp2 & H1 & H2 & ->) P IH];
      [constructor|].
    inversion F as [|? ? [_ Hx] F']; subst. constructor; [|now apply IH].
    rewrite !mentions_app, Hx, (blank_no_comma _ H1), (blank_no_comma _ H2).
    reflexivity.
Qed.

Lemma middle_lines_spec (l0 l1 ln : string) (mids : list string) :
  middle_lines (l0 :: l1 :: mids ++ [ln]) = mids.
Proof.
  unfold middle_lines. cbn [List.length skipn]. rewrite length_app. cbn [List.length].
  replace (S (S (List.length mids + 1)) - 1 - 2)%nat with (List.length mids + 0)%nat by lia.
  rewrite firstn_app_2. cbn [firstn]. apply app_nil_r.
Qed.

Lemma ascii_fields (xs : list string) : Forall ascii_field xs -> Forall field xs.
Proof. apply Forall_impl. intros x [H _]. exact H. Qed.

(** X17.  A file of ASCII text that holds a model is read back as that
    model: whatever blanks surround the sense, the objective, each
    constraint and each name, [extract_values] returns the trimmed sense
    and objective, the constraints of all lines in order, and the
    names. *)
Theorem stored_model_is_read_back
  (content : list string) (sense obj : string)
  (groups : list (list string)) (names : list string) :
  storable sense obj groups names ->
  holds content sense obj groups names ->
  extract_values (Some content) = Returns (Some sense, Some obj, List.concat groups, names).
Proof.
  intros (Hs & _ & Ho & _ & Hg & Hne & Hn)
         (l0 & l1 & mids & ln & -> & P0 & P1 & Pm & Pn).
  apply ascii_fields in Hn.
  unfold extract_values.
  replace (1 <? List.length (l0 :: l1 :: mids ++ [ln]))%nat with true
    by (symmetry; apply Nat.ltb_lt; simpl; lia).
  replace (2 <? List.length (l0 :: l1 :: mids ++ [ln]))%nat with true
    by (symmetry; apply Nat.ltb_lt; simpl; rewrite length_app; simpl; lia).
  rewrite middle_lines_spec. cbn [nth].
  rewrite (strip_padded sense l0 Hs P0), (strip_padded obj l1 Ho P1).
  replace (last (l0 :: l1 :: mids ++ [ln]) EmptyString) with ln
    by (change (l0 :: l1 :: mids ++ [ln]) with ((l0 :: l1 :: mids) ++ [ln]);
        now rewrite last_last).
  rewrite strip_then_split, (listed_fields names ln Hne Hn Pn).
  do 2 f_equal. f_equal.
  induction Pm as [|g line groups mids Hl Pm IH]; [reflexivity|].
  inversion Hg as [|? ? [Hgne Hgf] Hg']; subst. cbn [flat_map List.concat].
  rewrite (listed_fields g line Hgne (ascii_fields g Hgf) Hl). f_equal. now apply IH.
Qed.

Lemma stored_model_is_read_back_witness :
  storable "MAXIMIZE" "5*x1 + 4*x2" [["2*x1 + 13*x2 <= 40"; "1*x1 + 1*x2 <= 1"]]
    ["x1"; "x2"] /\
  extract_values
    (Some [("MAXIMIZE" ++ nl)%string; ("5*x1 + 4*x2" ++ nl)%string;
           ("2*x1 + 13*x2 <= 40, 1*x1 + 1*x2 <= 1" ++ nl)%string;
           ("x1, x2" ++ nl)%string])
  = Returns (Some "MAXIMIZE", Some "5*x1 + 4*x2",
             ["2*x1 + 13*x2 <= 40"; "1*x1 + 1*x2 <= 1"], ["x1"; "x2"]).
Proof.
  assert (S : storable "MAXIMIZE" "5*x1 + 4*x2"
                [["2*x1 + 13*x2 <= 40"; "1*x1 + 1*x2 <= 1"]] ["x1"; "x2"]).
  { repeat split; try reflexivity; try discriminate.
    - repeat constructor; discriminate.
    - repeat constructor. }
  split; [exact S|].
  apply (stored_model_is_read_back _ "MAXIMIZE" "5*x1 + 4*x2"
           [["2*x1 + 13*x2 <= 40"; "1*x1 + 1*x2 <= 1"]] ["x1"; "x2"] S).
  exists ("MAXIMIZE" ++ nl)%string, ("5*x1 + 4*x2" ++ nl)%string,
    [("2*x1 + 13*x2 <= 40, 1*x1 + 1*x2 <= 1" ++ nl)%string], ("x1, x2" ++ nl)%string.
  split; [reflexivity|]. split; [|split; [|split]].
  - exists EmptyString, nl. repeat split.
  - exists EmptyString, nl. repeat split.
  - constructor; [|constructor].
    exists ["2*x1 + 13*x2 <= 40"; (" 1*x1 + 1*x2 <= 1" ++ nl)%string]. split; [|reflexivity].
    constructor; [exists EmptyString, EmptyString; repeat split|].
    constructor; [exists " ", nl; repeat split|constructor].
  - exists ["x1"; (" x2" ++ nl)%string]. split; [|reflexivity].
    constructor; [exists EmptyString, EmptyString; repeat split|].
    constructor; [exists " ", nl; repeat split|constructor].
Defined.

(** *** What the reader returns on any file *)

Lemma stripped_piece_is_field (p : string) :
  mentions "," p = false -> field (Str.strip p).
Proof. intro H. split; [apply strip_idem|now apply strip_mentions]. Qed.

Lemma stripped_pieces_are_fields (line : string) :
  Forall field (map Str.strip (Str.split "," line)).
Proof.
  apply Forall_map. eapply Forall_impl; [|apply (split_pieces "," line)].
  exact stripped_piece_is_field.
Qed.

Lemma middle_lines_length (lines : list string) :
  List.length (middle_lines lines) = (List.length lines - 3)%nat.
Proof. unfold middle_lines. rewrite length_firstn, length_skipn. lia. Qed.

Lemma flat_map_at_least {A B} (f : A -> list B) (l : list A) :
  (forall a, f a <> []) -> (List.length l <= List.length (flat_map f l))%nat.
Proof.
  intro H. induction l as [|a l IH]; simpl; [lia|].
  rewrite length_app. specialize (H a). destruct (f a); [contradiction|]. simpl. lia.
Qed.

(** X18.  On the lines of any file [extract_values] returns without an
    exception.  Every constraint and every name it returns is a field:
    stripping it again changes nothing, and it has no comma.  The last
    line is always read as the line of names, so a non-empty file gives at
    least one name; a file of at most three lines gives no constraint; a
    longer one gives at least one constraint per line between the second
    and the last. *)
Theorem extracted_values_are_fields (lines : list string) :
  exists setObj obj_f constraints binary_vars,
    extract_values (Some lines) = Returns (setObj, obj_f, constraints, binary_vars) /\
    Forall field constraints /\ Forall field binary_vars /\
    (lines <> [] -> binary_vars <> []) /\
    ((List.length lines <= 3)%nat -> constraints = []) /\
    (List.length lines - 3 <= List.length constraints)%nat.
Proof.
  unfold extract_values. do 4 eexists. split; [reflexivity|].
  pose proof (middle_lines_length lines) as L.
  repeat split.
  - destruct (2 <? List.length lines)%nat eqn:E.
    + apply Forall_flat_map, Forall_forall. intros line _.
      apply stripped_pieces_are_fields.
    + apply Nat.ltb_ge in E. destruct (middle_lines lines); [constructor|].
      simpl in L. lia.
  - destruct lines as [|l ls]; [constructor|]. apply stripped_pieces_are_fields.
  - destruct lines as [|l ls]; [contradiction|]. intros _.
    destruct (split_cons "," (Str.strip (last (l :: ls) EmptyString))) as (p & ps & E).
    rewrite E. discriminate.
  - intro H. destruct (middle_lines lines); [|simpl in L; lia].
    destruct (2 <? List.length lines)%nat; reflexivity.
  - destruct (2 <? List.length lines)%nat eqn:E.
    + rewrite <- L. apply flat_map_at_least. intro line.
      destruct (split_cons "," line) as (p & ps & Es). rewrite Es. discriminate.
    + apply Nat.ltb_ge in E. lia.
Qed.

(** X19.  [get_model_values] raises [TypeError] exactly when [open_file]
    returned [None] (no file chosen, or an empty file) or fewer than two
    lines: [len(None)] fails in [extract_values], and a missing second
    line leaves [obj_f] at [None], which [display_lines] cannot
    concatenate.  In every other case it returns the text and the
    values. *)
Theorem get_model_values_outcome (content : option (list string)) :
  (get_model_values content = Raises TypeError <->
   content = None \/ exists lines, content = Some lines /\ (List.length lines < 2)%nat) /\
  (forall lines, content = Some lines -> (2 <= List.length lines)%nat ->
     exists text v, get_model_values content = Returns (text, v) /\
                    extract_values content = Returns v).
Proof.
  destruct content as [lines|]; [|split; [split; auto|discriminate]].
  unfold get_model_values, extract_values.
  destruct (1 <? List.length lines)%nat eqn:E; cbn [display_lines].
  - apply Nat.ltb_lt in E. split.
    + split; [discriminate|]. intros [H|(l & H & L)]; [discriminate|].
      injection H as <-. lia.
    + intros l _ _. eauto.
  - apply Nat.ltb_ge in E. split.
    + split; [|reflexivity]. intros _. right. exists lines. split; [reflexivity|lia].
    + intros l H L. injection H as <-. lia.
Qed.

Lemma blank_strip (p : string) : blank p = true -> Str.strip p = EmptyString.
Proof. intro H. unfold Str.strip. now rewrite (lstrip_blank p H). Qed.

(** X20.  A blank piece among the constraint lines of a file of ASCII
    text -- a blank line, a comma at the end of a line, two commas in a
    row -- is returned by [extract_values] as an empty constraint, and the
    model built from the values cannot be parsed: when no number of the
    objective and of the constraints has more digits than [int] converts,
    [extract_coefficients] raises [IndexError]. *)
Theorem blank_constraint_breaks_the_parser
  (lines : list string) (sense obj : string) (cs names : list string)
  (line piece : string) :
  Forall (fun l => ascii_text l = true) lines ->
  extract_values (Some lines) = Returns (Some sense, Some obj, cs, names) ->
  numbers_fit_model (mkModel sense obj cs names) ->
  In line (middle_lines lines) ->
  In piece (Str.split "," line) ->
  blank piece = true ->
  In EmptyString cs /\
  extract_coefficients (mkModel sense obj cs names) = Raise IndexError.
Proof.
  intros _ H Fit Hline Hpiece Hblank.
  assert (Hin : In EmptyString cs).
  { unfold extract_values in H. injection H as _ _ <- _.
    pose proof (middle_lines_length lines) as L.
    destruct (2 <? List.length lines)%nat eqn:E.
    - apply in_flat_map. exists line. split; [exact Hline|].
      rewrite <- (blank_strip piece Hblank). now apply in_map.
    - apply Nat.ltb_ge in E. destruct (middle_lines lines); [contradiction|].
      simpl in L. lia. }
  split; [exact Hin|].
  destruct (extract_coefficients_fit_outcome (mkModel sense obj cs names) Fit)
    as [[c E]|E]; [|exact E].
  exfalso. apply parsed_model_parsable in E. cbn [constraints] in E.
  rewrite Forall_forall in E. destruct (E _ Hin) as [(c' & [] & _) _].
Qed.

Lemma blank_constraint_breaks_the_parser_witness :
  extract_values
    (Some [("MAXIMIZE" ++ nl)%string; ("5*x1 + 4*x2" ++ nl)%string;
           ("2*x1 + 13*x2 <= 40," ++ nl)%string; ("x1, x2" ++ nl)%string])
  = Returns (Some "MAXIMIZE", Some "5*x1 + 4*x2",
             ["2*x1 + 13*x2 <= 40"; EmptyString], ["x1"; "x2"]) /\
  In EmptyString ["2*x1 + 13*x2 <= 40"; EmptyString] /\
  extract_coefficients
    (mkModel "MAXIMIZE" "5*x1 + 4*x2" ["2*x1 + 13*x2 <= 40"; EmptyString] ["x1"; "x2"])
  = Raise IndexError.
Proof.
  split; [reflexivity|].
  apply (blank_constraint_breaks_the_parser
           [("MAXIMIZE" ++ nl)%string; ("5*x1 + 4*x2" ++ nl)%string;
            ("2*x1 + 13*x2 <= 40," ++ nl)%string; ("x1, x2" ++ nl)%string]
           "MAXIMIZE" "5*x1 + 4*x2" ["2*x1 + 13*x2 <= 40"; EmptyString] ["x1"; "x2"]
           ("2*x1 + 13*x2 <= 40," ++ nl)%string nl).
  - repeat constructor.
  - reflexivity.
  - split; [reflexivity|repeat constructor].
  - left. reflexivity.
  - right. left. reflexivity.
  - reflexivity.
Defined.
